(** * Midi2Image: the MIDI-to-image pipeline of [midi_to_image.py]

    A shallow embedding of the note-span extractor, the colour mapper, the
    strip builder, the rectangle packer and the built-in PNG writer, and the
    properties of them that the specification states.

    Python floats are IEEE-754 binary64 numbers.  The code is embedded once,
    over an interface [Arith] of the float operations it uses, and read at two
    instances: [binary64], the bit-exact double-precision arithmetic CPython
    executes (built on the Standard Library's [SpecFloat]), and [exact], real
    arithmetic, in which the specification's formulas are written. *)

From Stdlib Require Import String Ascii.
From Stdlib Require Import ZArith List Bool Lia.
From Stdlib Require Import Reals Lra R_Ifp.
From Stdlib Require Import SpecFloat.
From Stdlib Require Import Sorted.
From Stdlib Require DecimalString DecimalZ DecimalPos.
Import ListNotations.

Local Open Scope Z_scope.

(** ** Python exceptions and results *)

Inductive exn : Type :=
| FileNotFoundError
| ValueError (msg : string)
| ZeroDivisionError
| OverflowError
| IndexError
| StructError.

Inductive result (T : Type) : Type :=
| Ok (v : T)
| Raise (e : exn).

Arguments Ok {T} v.
Arguments Raise {T} e.

Definition bind {T U : Type} (c : result T) (k : T -> result U) : result U :=
  match c with
  | Ok v => k v
  | Raise e => Raise e
  end.

Notation "x <- c ;; k" := (bind c (fun x => k))
  (at level 61, c at next level, right associativity).

Notation "' p <- c ;; k" := (bind c (fun p => k))
  (at level 61, p pattern, c at next level, right associativity).

(** ** The float operations the program uses *)

Class Arith : Type := {
  num : Type;
  of_int : Z -> num;            (* float(n) *)
  add : num -> num -> num;
  sub : num -> num -> num;
  mul : num -> num -> num;
  div : num -> num -> num;      (* quotient by a non-zero divisor *)
  int_div : Z -> Z -> option num;
                                (* a / b of two ints, b not zero: None when
                                   the quotient is too large for a float *)
  sqrt : num -> num;
  leb : num -> num -> bool;     (* x <= y *)
  ltb : num -> num -> bool;     (* x < y *)
  eqb : num -> num -> bool;     (* x == y *)
  ceil : num -> option Z;       (* math.ceil x; None on an infinity or a NaN *)
  is_nan : num -> bool;
  trunc : num -> Z;             (* int(x) of a finite x *)
}.

Section PythonFloat.
Context {A : Arith}.

(** [x / y]: Python raises on a zero divisor. *)
Definition py_truediv (x y : num) : result num :=
  if eqb y (of_int 0) then Raise ZeroDivisionError else Ok (div x y).

(** [a / b] for two ints: the quotient of the integers, rounded once.
    Python raises on a zero divisor, and when the quotient is too large for a
    float. *)
Definition py_int_truediv (a b : Z) : result num :=
  if b =? 0 then Raise ZeroDivisionError
  else match int_div a b with
       | Some q => Ok q
       | None => Raise OverflowError
       end.

(** [math.ceil(x)]: raises ValueError on a NaN and OverflowError on an
    infinity. *)
Definition math_ceil (x : num) : result Z :=
  match ceil x with
  | Some n => Ok n
  | None =>
      if is_nan x then Raise (ValueError "cannot convert float NaN to integer")
      else Raise OverflowError
  end.

(** [float(n)] raises OverflowError on an int too large for a float, for
    which [of_int n] is an infinity. *)
Definition float_overflows (n : Z) : bool :=
  match ceil (of_int n) with
  | Some _ => false
  | None => true
  end.

(** [math.sqrt(x)]: raises on a negative argument. *)
Definition math_sqrt (x : num) : result num :=
  if ltb x (of_int 0) then Raise (ValueError "math domain error")
  else Ok (sqrt x).

(** A decimal literal [m / 10^k], such as [0.4]: the float nearest to it. *)
Definition decimal (m : Z) (k : Z) : num := div (of_int m) (of_int (10 ^ k)).

(** [max(iterable)]: the first element is kept until a later one is [>]. *)
Definition py_max (x : num) (xs : list num) : num :=
  fold_left (fun m y => if ltb m y then y else m) xs x.
End PythonFloat.

(** *** IEEE-754 binary64, as CPython computes *)

Module B64.
Definition prec : Z := 53.
Definition emax : Z := 1024.

Definition of_int (n : Z) : spec_float := binary_normalize prec emax n 0 false.

Definition is_zero (x : spec_float) : bool :=
  match x with
  | S754_zero _ => true
  | _ => false
  end.

(** The integer value [m * 2^e] rounded towards plus infinity. *)
Definition ceil (x : spec_float) : option Z :=
  match x with
  | S754_zero _ => Some 0
  | S754_finite s m e =>
      let v := if s then Z.neg m else Z.pos m in
      Some (if 0 <=? e then v * 2 ^ e else - ((- v) / 2 ^ (- e)))
  | S754_infinity _ | S754_nan => None
  end.

(** Rounded towards zero. *)
Definition trunc (x : spec_float) : Z :=
  match x with
  | S754_finite s m e =>
      let a := if 0 <=? e then Z.pos m * 2 ^ e else Z.pos m / 2 ^ (- e) in
      if s then - a else a
  | _ => 0
  end.

Definition is_finite (x : spec_float) : bool :=
  match x with
  | S754_zero _ | S754_finite _ _ _ => true
  | _ => false
  end.

Definition is_nan (x : spec_float) : bool :=
  match x with
  | S754_nan => true
  | _ => false
  end.

(** An int as the unrounded number [n * 2^0]. *)
Definition unrounded (n : Z) : spec_float :=
  match n with
  | Z0 => S754_zero false
  | Zpos p => S754_finite false p 0
  | Zneg p => S754_finite true p 0
  end.

(** [a / b] for two ints, [b] not zero, as CPython's [long_true_divide]
    computes it: the quotient of the two integers, whatever their size,
    rounded once to the nearest double, ties to even. *)
Definition int_div (a b : Z) : option spec_float :=
  match SFdiv prec emax (unrounded a) (unrounded b) with
  | S754_infinity _ => None
  | q => Some q
  end.

(** The exponent of the format at magnitude [e]: [max (e - 53) (-1074)]. *)
Definition fexp (e : Z) : Z := SpecFloat.fexp prec emax e.

(** The number of binary digits of a positive integer. *)
Definition digits (m : Z) : Z := Z.log2 m + 1.

(** Zero, a positive number or plus infinity. *)
Definition nonneg (x : spec_float) : bool :=
  match x with
  | S754_zero _ | S754_infinity false | S754_finite false _ _ => true
  | _ => false
  end.

(** The mantissa and the exponent are those of the format. *)
Definition canonical (x : spec_float) : bool :=
  match x with
  | S754_finite _ m e => canonical_mantissa prec emax m e
  | _ => true
  end.
End B64.

Definition binary64 : Arith := {|
  num := spec_float;
  of_int := B64.of_int;
  add := SFadd B64.prec B64.emax;
  sub := SFsub B64.prec B64.emax;
  mul := SFmul B64.prec B64.emax;
  div := SFdiv B64.prec B64.emax;
  int_div := B64.int_div;
  sqrt := SFsqrt B64.prec B64.emax;
  leb := SFleb;
  ltb := SFltb;
  eqb := SFeqb;
  ceil := B64.ceil;
  is_nan := B64.is_nan;
  trunc := B64.trunc;
|}.

(** *** Exact real arithmetic *)

Module Exact.
Definition leb (x y : R) : bool := if Rle_dec x y then true else false.
Definition ltb (x y : R) : bool := if Rlt_dec x y then true else false.
Definition eqb (x y : R) : bool := if Req_dec_T x y then true else false.

(** The least integer not below [x]. *)
Definition ceil (x : R) : Z := 1 - up (- x).

Definition trunc (x : R) : Z :=
  if Rle_dec 0 x then up x - 1 else ceil x.
End Exact.

Definition exact : Arith := {|
  num := R;
  of_int := IZR;
  add := Rplus;
  sub := Rminus;
  mul := Rmult;
  div := Rdiv;
  int_div := fun a b => Some (IZR a / IZR b)%R;
  sqrt := R_sqrt.sqrt;
  leb := Exact.leb;
  ltb := Exact.ltb;
  eqb := Exact.eqb;
  ceil := fun x => Some (Exact.ceil x);
  is_nan := fun _ => false;
  trunc := Exact.trunc;
|}.

(** ** Colour mapper *)

Definition pixel : Type := (Z * Z * Z)%type.

Definition NOTE_NAMES : list string :=
  ["C"; "C#"; "D"; "D#"; "E"; "F"; "F#"; "G"; "G#"; "A"; "A#"; "B"]%string.

Definition NATURAL_COLORS : list (string * pixel) :=
  [ ("C", (255, 214, 10));
    ("D", (46, 204, 113));
    ("E", (201, 162, 39));
    ("F", (31, 58, 147));
    ("G", (93, 173, 226));
    ("A", (139, 0, 0));
    ("B", (44, 62, 80)) ]%string.

Definition SHARP_COLORS : list (string * pixel) :=
  [ ("C#", (255, 0, 255));
    ("D#", (153, 50, 204));
    ("F#", (180, 255, 0));
    ("G#", (255, 87, 34));
    ("A#", (0, 255, 255)) ]%string.

(** [d.get(key)] on a dict with string keys. *)
Fixpoint dict_get {V : Type} (d : list (string * V)) (key : string) : option V :=
  match d with
  | [] => None
  | (k, v) :: rest => if String.eqb k key then Some v else dict_get rest key
  end.

Definition base_color (note_number : Z) : pixel :=
  let base_name := nth (Z.to_nat (note_number mod 12)) NOTE_NAMES EmptyString in
  match dict_get SHARP_COLORS base_name with
  | Some base => base
  | None =>
      match dict_get NATURAL_COLORS base_name with
      | Some base => base
      | None => (80, 80, 80)
      end
  end.

Section ColorMapper.
Context {A : Arith}.

(** [0.4 + 0.6 * (max(0, min(127, velocity)) / 127)] *)
Definition brightness (velocity : Z) : num :=
  add (decimal 4 1)
      (mul (decimal 6 1)
           (div (of_int (Z.max 0 (Z.min 127 velocity))) (of_int 127))).

Definition color_for_note (note_number velocity : Z) : pixel :=
  let '(r, g, b) := base_color note_number in
  let scale := brightness velocity in
  let f c := Z.min 255 (trunc (mul (of_int c) scale)) in
  (f r, f g, f b).
End ColorMapper.

(** ** Note names *)

(** [str(n)] of an int: its decimal digits, after a minus sign when [n] is
    negative. *)
Definition py_str (n : Z) : string :=
  DecimalString.NilZero.string_of_int (Z.to_int n).

(** [octave = (note_number // 12) - 1], [name = NOTE_NAMES[note_number % 12]]
    and [f"{name}{octave}"]. *)
Definition note_number_to_name (note_number : Z) : string :=
  let octave := note_number / 12 - 1 in
  let name := nth (Z.to_nat (note_number mod 12)) NOTE_NAMES EmptyString in
  (name ++ py_str octave)%string.

(** ** Note-span extractor *)

(** A message of the merged track, [msg.time] being its delta in ticks. *)
Inductive Message : Type :=
| note_on (time channel note velocity : Z)
| note_off (time channel note velocity : Z)
| set_tempo (time tempo : Z)
| other (time : Z).

Definition msg_time (msg : Message) : Z :=
  match msg with
  | note_on t _ _ _ | note_off t _ _ _ | set_tempo t _ | other t => t
  end.

(** What [MidiFile(filepath)] gives the extractor: the resolution and
    [mido.merge_tracks(mid.tracks)]. *)
Record MidiFile : Type := {
  ticks_per_beat : Z;
  merged_tracks : list Message;
}.

(** The key [(msg.channel, msg.note)] of the dict [active]. *)
Definition key : Type := (Z * Z)%type.

Definition key_eqb (a b : key) : bool :=
  (fst a =? fst b) && (snd a =? snd b).

(** A Python dict keeps its keys in insertion order; assigning to a key that
    is present keeps the key's place. *)
Fixpoint dict_set {V : Type} (d : list (key * V)) (k : key) (v : V)
  : list (key * V) :=
  match d with
  | [] => [(k, v)]
  | (k', v') :: rest =>
      if key_eqb k' k then (k', v) :: rest else (k', v') :: dict_set rest k v
  end.

Fixpoint dict_lookup {V : Type} (d : list (key * V)) (k : key) : option V :=
  match d with
  | [] => None
  | (k', v') :: rest => if key_eqb k' k then Some v' else dict_lookup rest k
  end.

Fixpoint dict_remove {V : Type} (d : list (key * V)) (k : key)
  : list (key * V) :=
  match d with
  | [] => []
  | (k', v') :: rest =>
      if key_eqb k' k then rest else (k', v') :: dict_remove rest k
  end.

Definition dict_keys {V : Type} (d : list (key * V)) : list key := map fst d.

(** The dataclass [NoteSpan]; [T] is the type of the times. *)
Record NoteSpan (T : Type) : Type := {
  note : Z;
  channel : Z;
  start : T;
  end_ : T;
  velocity : Z;
}.

Arguments Build_NoteSpan {T} _ _ _ _ _.
Arguments note {T} _.
Arguments channel {T} _.
Arguments start {T} _.
Arguments end_ {T} _.
Arguments velocity {T} _.

(** The local variables of [parse_midi_to_spans] across its loop. *)
Record ExtractState (T : Type) : Type := {
  tempo : Z;
  current_time : T;
  active : list (key * (T * Z));
  spans : list (NoteSpan T);
}.

Arguments Build_ExtractState {T} _ _ _ _.
Arguments tempo {T} _.
Arguments current_time {T} _.
Arguments active {T} _.
Arguments spans {T} _.

Section Extractor.
Context {A : Arith}.

(** [max(0.0, self.end - self.start)] *)
Definition duration (s : NoteSpan num) : num :=
  let d := sub (end_ s) (start s) in
  if ltb (of_int 0) d then d else of_int 0.

Definition span_key (s : NoteSpan num) : key := (channel s, note s).

(** Modelled from the spec: [mido.tick2second] is library code that is not
    under src/; section 4.1 gives
    seconds = ticks * (tempo / 1_000_000) / ticks_per_beat. *)
Definition tick2second (tick ticks_per_beat tempo : Z) : result num :=
  beat <- py_truediv (of_int tempo) (of_int 1000000) ;;
  py_truediv (mul (of_int tick) beat) (of_int ticks_per_beat).

(** The conversion [mido.tick2second tick ticks_per_beat tempo] the
    extractor calls. *)
Variable tick_to_second : Z -> Z -> Z -> result num.

Definition initial_state : ExtractState num :=
  {| tempo := 500000; current_time := of_int 0; active := []; spans := [] |}.

(** The branch of a note-off, and of a note-on of velocity zero. *)
Definition close_note (st : ExtractState num) (now : num) (ch n : Z)
  : ExtractState num :=
  match dict_lookup (active st) (ch, n) with
  | Some (start_time, vel) =>
      {| tempo := tempo st;
         current_time := now;
         active := dict_remove (active st) (ch, n);
         spans := spans st ++
                  [ {| note := n; channel := ch; start := start_time;
                       end_ := now; velocity := vel |} ] |}
  | None =>
      {| tempo := tempo st; current_time := now;
         active := active st; spans := spans st |}
  end.

(** The body of the loop once [current_time] has been advanced to [now]. *)
Definition dispatch (st : ExtractState num) (now : num) (msg : Message)
  : ExtractState num :=
  let idle := {| tempo := tempo st; current_time := now;
                 active := active st; spans := spans st |} in
  match msg with
  | set_tempo _ new_tempo =>
      {| tempo := new_tempo; current_time := now;
         active := active st; spans := spans st |}
  | note_on _ ch n vel =>
      if 0 <? vel then
        {| tempo := tempo st; current_time := now;
           active := dict_set (active st) (ch, n) (now, vel);
           spans := spans st |}
      else if vel =? 0 then close_note st now ch n
      else idle
  | note_off _ ch n _ => close_note st now ch n
  | other _ => idle
  end.

(** One iteration of the loop over the merged messages: the delta is
    converted with the tempo in effect, then the message is handled. *)
Definition step (tpb : Z) (st : ExtractState num) (msg : Message)
  : result (ExtractState num) :=
  delta_seconds <- tick_to_second (msg_time msg) tpb (tempo st) ;;
  Ok (dispatch st (add (current_time st) delta_seconds) msg).

Fixpoint run (tpb : Z) (st : ExtractState num) (msgs : list Message)
  : result (ExtractState num) :=
  match msgs with
  | [] => Ok st
  | msg :: rest => st' <- step tpb st msg ;; run tpb st' rest
  end.

(** "Close any hanging notes at file end". *)
Definition hanging (st : ExtractState num) : list (NoteSpan num) :=
  map (fun '((ch, n), (start_time, vel)) =>
         {| note := n; channel := ch; start := start_time;
            end_ := current_time st; velocity := vel |})
      (active st).

Definition extract_spans (tpb : Z) (msgs : list Message)
  : result (list (NoteSpan num)) :=
  st <- run tpb initial_state msgs ;;
  Ok (spans st ++ hanging st).

(** [fs filepath] is the MIDI file at [filepath], if there is one. *)
Definition parse_midi_to_spans (fs : string -> option MidiFile)
    (filepath : string) : result (list (NoteSpan num)) :=
  match fs filepath with
  | None => Raise FileNotFoundError
  | Some mid => extract_spans (ticks_per_beat mid) (merged_tracks mid)
  end.
End Extractor.


(** ** The module-level random generator

    [random.randint] draws from the hidden generator of the [random] module;
    no function of the program takes a generator.  Its state is modelled as
    the sequence of values it is going to deliver and the number already
    taken. *)

Record rng : Type := {
  tape : nat -> Z;
  taken : nat;
}.

Definition randint (lo hi : Z) (g : rng) : Z * rng :=
  (lo + tape g (taken g) mod (hi - lo + 1),
   {| tape := tape g; taken := S (taken g) |}).

(** [(random.randint(0, 255), random.randint(0, 255), random.randint(0, 255))] *)
Definition random_pixel (g : rng) : pixel * rng :=
  let '(r, g1) := randint 0 255 g in
  let '(gr, g2) := randint 0 255 g1 in
  let '(b, g3) := randint 0 255 g2 in
  ((r, gr, b), g3).

(** [range(n)] *)
Definition py_range (n : Z) : list Z := map Z.of_nat (seq 0 (Z.to_nat n)).

(** ** Strip builder *)

Section StripBuilder.
Context {A : Arith}.

(** [span.start <= t < span.end] *)
Definition is_active (t : num) (span : NoteSpan num) : bool :=
  leb (start span) t && ltb t (end_ span).

Definition add_color (acc : pixel) (span : NoteSpan num) : pixel :=
  let '(r, g, b) := acc in
  let '(cr, cg, cb) := color_for_note (note span) (velocity span) in
  (r + cr, g + cg, b + cb).

(** The pixel of a non-empty list of active spans. *)
Definition blend (active_spans : list (NoteSpan num)) : pixel :=
  let '(r, g, b) := fold_left add_color active_spans (0, 0, 0) in
  let count := Z.of_nat (length active_spans) in
  (r / count, g / count, b / count).

(** The sample time of index [i]: [t = i * step]. *)
Definition sample_time (step : num) (i : Z) : num := mul (of_int i) step.

(** One iteration of [for i in range(total_pixels)]. *)
Definition sample_pixel (all_spans : list (NoteSpan num)) (step : num)
    (background : option pixel) (i : Z) (g : rng) : pixel * rng :=
  let t := sample_time step i in
  match filter (is_active t) all_spans with
  | [] =>
      match background with
      | None => random_pixel g
      | Some bg => (bg, g)
      end
  | active_spans => (blend active_spans, g)
  end.

Definition strip_loop (all_spans : list (NoteSpan num)) (step : num)
    (background : option pixel) (indices : list Z)
    (strip : list pixel) (g : rng) : list pixel * rng :=
  fold_left
    (fun '(strip, g) i =>
       let '(p, g') := sample_pixel all_spans step background i g in
       (strip ++ [p], g'))
    indices (strip, g).

(** [max(span.end for span in spans)] of a non-empty list. *)
Definition total_duration (first : NoteSpan num) (rest : list (NoteSpan num))
  : num :=
  py_max (end_ first) (map end_ rest).

(** [total_pixels] and [step].  The product converts [pixels_per_second]
    to a float first: where that raises OverflowError, the product is an
    infinity or a NaN here, the ceiling fails, and the exception is that of
    the conversion. *)
Definition strip_layout (first : NoteSpan num) (rest : list (NoteSpan num))
    (pixels_per_second : Z) : result (Z * num) :=
  match
    math_ceil (mul (total_duration first rest) (of_int pixels_per_second))
  with
  | Ok n =>
      step <- py_truediv (of_int 1) (of_int pixels_per_second) ;;
      Ok (Z.max 1 n, step)
  | Raise e =>
      Raise (if float_overflows pixels_per_second then OverflowError else e)
  end.

Definition spans_to_color_strip (all_spans : list (NoteSpan num))
    (pixels_per_second : Z) (background : option pixel) (g : rng)
  : result (list pixel) * rng :=
  match all_spans with
  | [] => (Ok [], g)
  | first :: rest =>
      match strip_layout first rest pixels_per_second with
      | Raise e => (Raise e, g)
      | Ok (total_pixels, step) =>
          let '(strip, g') :=
            strip_loop all_spans step background (py_range total_pixels) [] g
          in (Ok strip, g')
      end
  end.
End StripBuilder.

(** ** Rectangle packer *)

(** Python lists are objects: a caller and a callee that hold the same list
    see each other's [append].  The store maps addresses to list contents. *)
Definition loc : Type := nat.

Record world : Type := {
  heap : list (list pixel);
  gen : rng;
}.

Definition heap_get (h : list (list pixel)) (l : loc) : list pixel :=
  nth l h [].

Fixpoint heap_set (h : list (list pixel)) (l : loc) (v : list pixel)
  : list (list pixel) :=
  match h, l with
  | [], _ => []
  | _ :: rest, O => v :: rest
  | x :: rest, S l' => x :: heap_set rest l' v
  end.

(** A new list object. *)
Definition heap_alloc (h : list (list pixel)) (v : list pixel)
  : loc * list (list pixel) :=
  (length h, h ++ [v]).

(** [l[:n]] *)
Definition py_prefix {T : Type} (l : list T) (n : Z) : list T :=
  if 0 <=? n then firstn (Z.to_nat n) l
  else firstn (Z.to_nat (Z.of_nat (length l) + n)) l.

(** What the packer returns: a Pillow image when Pillow is installed, else
    the tuple [(width, height, data)], [data] being a new list. *)
Inductive Packed : Type :=
| PillowImage (width height : Z) (data : list pixel)
| RawImage (width height : Z) (data : loc).

Section RectanglePacker.
Context {A : Arith}.

(** [height] and [width] of a strip of [area] pixels. *)
Definition rect_dims (area ratio_w ratio_h : Z) : result (Z * Z) :=
  target_ratio <- py_int_truediv ratio_w ratio_h ;;
  quotient <- py_truediv (of_int area) target_ratio ;;
  root <- math_sqrt quotient ;;
  height <- math_ceil root ;;
  width <- math_ceil (mul (of_int height) target_ratio) ;;
  Ok (width, height).

(** [for _ in range(needed): strip.append(random pixel)] *)
Fixpoint append_noise (needed : nat) (strip : loc) (w : world) : world :=
  match needed with
  | O => w
  | S k =>
      let '(p, g') := random_pixel (gen w) in
      append_noise k strip
        {| heap := heap_set (heap w) strip (heap_get (heap w) strip ++ [p]);
           gen := g' |}
  end.

(** [strip.extend([(0, 0, 0)] * needed)] *)
Definition extend_black (needed : Z) (strip : loc) (w : world) : world :=
  {| heap := heap_set (heap w) strip
               (heap_get (heap w) strip ++ repeat (0, 0, 0) (Z.to_nat needed));
     gen := gen w |}.

Definition pad (needed : Z) (noise : bool) (strip : loc) (w : world) : world :=
  if 0 <? needed then
    if noise then append_noise (Z.to_nat needed) strip w
    else extend_black needed strip w
  else w.

Definition color_strip_to_rect_image (pillow : bool) (strip : loc)
    (ratio : Z * Z) (noise : bool) (w : world) : result Packed * world :=
  match heap_get (heap w) strip with
  | [] => (Raise (ValueError "Color strip is empty"), w)
  | _ :: _ =>
      let '(ratio_w, ratio_h) := ratio in
      if (ratio_w <=? 0) || (ratio_h <=? 0) then
        (Raise (ValueError "Aspect ratio must be positive"), w)
      else
        let area := Z.of_nat (length (heap_get (heap w) strip)) in
        match rect_dims area ratio_w ratio_h with
        | Raise e => (Raise e, w)
        | Ok (width, height) =>
            let needed := width * height - area in
            let w1 := pad needed noise strip w in
            let data := py_prefix (heap_get (heap w1) strip) (width * height) in
            if pillow then (Ok (PillowImage width height data), w1)
            else
              let '(l, h2) := heap_alloc (heap w1) data in
              (Ok (RawImage width height l), {| heap := h2; gen := gen w1 |})
        end
  end.
End RectanglePacker.

(** ** The built-in PNG writer *)

(** Bytes are integers in [range(256)]. *)
Definition byte_ok (b : Z) : bool := (0 <=? b) && (b <? 256).

Definition bytes_of_string (s : string) : list Z :=
  map (fun c => Z.of_N (N_of_ascii c)) (list_ascii_of_string s).

(** [zlib.crc32], bit by bit: the reflected polynomial 0xEDB88320. *)
Definition crc_shift (c : Z) : Z :=
  if Z.testbit c 0 then Z.lxor (Z.shiftr c 1) 3988292384 else Z.shiftr c 1.

Definition crc_byte (c b : Z) : Z :=
  let c0 := Z.lxor c b in
  crc_shift (crc_shift (crc_shift (crc_shift
    (crc_shift (crc_shift (crc_shift (crc_shift c0))))))).

Definition crc32 (data : list Z) : Z :=
  Z.lxor (fold_left crc_byte data 4294967295) 4294967295.

(** [bytearray.append(b)] *)
Definition bytearray_append (raw : list Z) (b : Z) : result (list Z) :=
  if byte_ok b then Ok (raw ++ [b])
  else Raise (ValueError "byte must be in range(0, 256)").

(** [bytearray.extend(bs)] *)
Fixpoint bytearray_extend (raw : list Z) (bs : list Z) : result (list Z) :=
  match bs with
  | [] => Ok raw
  | b :: rest => raw' <- bytearray_append raw b ;; bytearray_extend raw' rest
  end.

(** [l[i]], a negative [i] counting from the end. *)
Definition list_index {T : Type} (l : list T) (i : Z) : result T :=
  let n := Z.of_nat (length l) in
  let j := if i <? 0 then i + n else i in
  if (0 <=? j) && (j <? n) then
    match nth_error l (Z.to_nat j) with
    | Some v => Ok v
    | None => Raise IndexError
    end
  else Raise IndexError.

(** [struct.pack("!I", n)]: four bytes, most significant first. *)
Definition pack_I (n : Z) : result (list Z) :=
  if (0 <=? n) && (n <? 4294967296) then
    Ok [ Z.land (Z.shiftr n 24) 255; Z.land (Z.shiftr n 16) 255;
         Z.land (Z.shiftr n 8) 255; Z.land n 255 ]
  else Raise StructError.

(** [struct.pack("!B", n)] *)
Definition pack_B (n : Z) : result (list Z) :=
  if byte_ok n then Ok [n] else Raise StructError.

Definition PNG_SIGNATURE : list Z := [137; 80; 78; 71; 13; 10; 26; 10].

Section PngWriter.
(** [zlib.compress(data, level)], library code. *)
Variable zlib_compress : list Z -> Z -> list Z.

(** [for x in range(width)] *)
Fixpoint row_loop (data : list pixel) (row_start : Z) (xs : list Z)
    (raw : list Z) : result (list Z) :=
  match xs with
  | [] => Ok raw
  | x :: rest =>
      '(r, g, b) <- list_index data (row_start + x) ;;
      raw' <- bytearray_extend raw [r; g; b] ;;
      row_loop data row_start rest raw'
  end.

(** [for y in range(height)] *)
Fixpoint scanline_loop (data : list pixel) (width : Z) (ys : list Z)
    (raw : list Z) : result (list Z) :=
  match ys with
  | [] => Ok raw
  | y :: rest =>
      raw0 <- bytearray_append raw 0 ;;
      let row_start := y * width in
      raw1 <- row_loop data row_start (py_range width) raw0 ;;
      scanline_loop data width rest raw1
  end.

Definition chunk (tag payload : list Z) : result (list Z) :=
  let crc := Z.land (crc32 (tag ++ payload)) 4294967295 in
  len <- pack_I (Z.of_nat (length payload)) ;;
  sum <- pack_I crc ;;
  Ok (len ++ tag ++ payload ++ sum).

(** [struct.pack("!IIBBBBB", width, height, 8, 2, 0, 0, 0)] *)
Definition pack_header (width height : Z) : result (list Z) :=
  w <- pack_I width ;;
  h <- pack_I height ;;
  b1 <- pack_B 8 ;;
  b2 <- pack_B 2 ;;
  b3 <- pack_B 0 ;;
  b4 <- pack_B 0 ;;
  b5 <- pack_B 0 ;;
  Ok (w ++ h ++ b1 ++ b2 ++ b3 ++ b4 ++ b5).

(** The bytes [_write_png] writes to [path]. *)
Definition _write_png (width height : Z) (data : list pixel)
  : result (list Z) :=
  raw <- scanline_loop data width (py_range height) [] ;;
  header <- pack_header width height ;;
  ihdr <- chunk (bytes_of_string "IHDR") header ;;
  idat <- chunk (bytes_of_string "IDAT") (zlib_compress raw 9) ;;
  iend <- chunk (bytes_of_string "IEND") [] ;;
  Ok (PNG_SIGNATURE ++ ihdr ++ idat ++ iend).

(** *** The encoder as section 4.6 words it *)

(** Four bytes, big-endian, by positional digits. *)
Definition be32 (n : Z) : list Z :=
  [ n / 16777216 mod 256; n / 65536 mod 256; n / 256 mod 256; n mod 256 ].

(** [length][tag][payload][CRC-32 over tag+payload] *)
Definition framed (tag : string) (payload : list Z) : list Z :=
  be32 (Z.of_nat (length payload)) ++ bytes_of_string tag ++ payload
    ++ be32 (crc32 (bytes_of_string tag ++ payload)).

Definition pixel_bytes (p : pixel) : list Z :=
  let '(r, g, b) := p in [r; g; b].

(** Rows of [width] pixels, each prefixed with filter byte 0. *)
Fixpoint scanlines (width : nat) (rows : nat) (data : list pixel) : list Z :=
  match rows with
  | O => []
  | S k =>
      0 :: flat_map pixel_bytes (firstn width data)
        ++ scanlines width k (skipn width data)
  end.

Definition png_layout (width height : Z) (data : list pixel) : list Z :=
  PNG_SIGNATURE
    ++ framed "IHDR" (be32 width ++ be32 height ++ [8; 2; 0; 0; 0])
    ++ framed "IDAT"
         (zlib_compress (scanlines (Z.to_nat width) (Z.to_nat height) data) 9)
    ++ framed "IEND" [].
End PngWriter.

(** ** The pipeline *)

(** What ends up in the file at [output_path]. *)
Inductive Saved : Type :=
| SavedByPillow (width height : Z) (data : list pixel)
| SavedPng (bytes : list Z).

Section Pipeline.
Context {A : Arith}.
Variable tick_to_second : Z -> Z -> Z -> result num.
Variable zlib_compress : list Z -> Z -> list Z.

Definition midi_to_image (pillow : bool) (fs : string -> option MidiFile)
    (midi_path : string) (pixels_per_second : Z) (w : world)
  : result Saved * world :=
  match parse_midi_to_spans tick_to_second fs midi_path with
  | Raise e => (Raise e, w)
  | Ok all_spans =>
      match spans_to_color_strip all_spans pixels_per_second None (gen w) with
      | (Raise e, g1) => (Raise e, {| heap := heap w; gen := g1 |})
      | (Ok strip, g1) =>
          let '(l, h1) := heap_alloc (heap w) strip in
          match color_strip_to_rect_image pillow l (4, 3) true
                  {| heap := h1; gen := g1 |} with
          | (Raise e, w2) => (Raise e, w2)
          | (Ok (PillowImage width height data), w2) =>
              (Ok (SavedByPillow width height data), w2)
          | (Ok (RawImage width height data), w2) =>
              (bind (_write_png zlib_compress width height
                       (heap_get (heap w2) data)) (fun b => Ok (SavedPng b)),
               w2)
          end
      end
  end.
End Pipeline.

(** ** Vocabulary of the properties *)

(** A generator that always delivers 0, and one that always delivers 1. *)
Definition gen_zero : rng := {| tape := fun _ => 0; taken := 0%nat |}.
Definition gen_one : rng := {| tape := fun _ => 1; taken := 0%nat |}.

(** No compression: a stand-in for [zlib.compress] where a concrete one is
    needed. *)
Definition stored (data : list Z) (level : Z) : list Z := data.

(** MIDI data bytes have seven bits, a channel four. *)
Definition wf_message (msg : Message) : Prop :=
  match msg with
  | note_on _ ch n vel | note_off _ ch n vel =>
      0 <= ch <= 15 /\ 0 <= n <= 127 /\ 0 <= vel <= 127
  | set_tempo _ _ | other _ => True
  end.

(** The tempos in effect along a stream: the default one and those that the
    stream sets. *)
Definition tempos_of (msgs : list Message) : list Z :=
  500000 :: flat_map (fun m => match m with
                               | set_tempo _ new_tempo => [new_tempo]
                               | _ => []
                               end) msgs.

(** The message ends the sounding period of [k]. *)
Definition closes (k : key) (msg : Message) : bool :=
  match msg with
  | note_off _ ch n _ => key_eqb (ch, n) k
  | note_on _ ch n vel => key_eqb (ch, n) k && (vel =? 0)
  | _ => false
  end.

(** The order facts about elapsed time that the extractor relies on, of the
    values [time_ok] that the clock can show. *)
Class TimeLaws (A : Arith) (time_ok : num -> Prop) : Prop := {
  time_ok_zero : time_ok (of_int 0);
  leb_refl : forall x, time_ok x -> leb x x = true;
  leb_trans :
    forall x y z, time_ok x -> time_ok y -> time_ok z ->
                  leb x y = true -> leb y z = true -> leb x z = true;
  add_increasing :
    forall x d, time_ok x -> time_ok d ->
                time_ok (add x d) /\ leb x (add x d) = true;
}.

(** The times of exact arithmetic: the real numbers that are not negative. *)
Definition exact_time_ok (x : R) : Prop := (0 <= x)%R.

(** The times of double precision: zero, the positive doubles and plus
    infinity; no NaN. *)
Definition b64_time_ok (x : spec_float) : Prop :=
  B64.nonneg x = true /\ B64.canonical x = true.

(** A positive finite canonical double of magnitude (digits plus exponent)
    between [lo] and [hi]. *)
Definition b64_finite (lo hi : Z) (x : spec_float) : Prop :=
  exists m e, x = S754_finite false m e
              /\ B64.fexp (B64.digits (Zpos m) + e) = e
              /\ lo <= B64.digits (Zpos m) + e <= hi.

(** The real number that a double stands for. *)
Definition b64_val (x : spec_float) : R :=
  match x with
  | S754_finite s m e =>
      ((if s then -1 else 1) * IZR (Zpos m) * powerRZ 2 e)%R
  | _ => 0%R
  end.

(** A positive finite canonical double of magnitude between [lo] and [hi]
    that stands for a real number between [x * (1 - 2^-52)] and
    [x * (1 + 2^-52)]. *)
Definition b64_near (lo hi : Z) (x : R) (y : spec_float) : Prop :=
  b64_finite lo hi y
  /\ (x * (1 - powerRZ 2 (-52)) <= b64_val y <= x * (1 + powerRZ 2 (-52)))%R.

Section Vocabulary.
Context {A : Arith}.

(** Along the stream the conversion of a delta never raises and gives a
    time: for every delta of the stream and every tempo in effect. *)
Definition conversions_ok (time_ok : num -> Prop)
    (conv : Z -> Z -> Z -> result num) (tpb : Z) (msgs : list Message) : Prop :=
  forall m tempo, In m msgs -> In tempo (tempos_of msgs) ->
    exists d, conv (msg_time m) tpb tempo = Ok d /\ time_ok d.

Definition span_ok (s : NoteSpan num) : Prop :=
  leb (start s) (end_ s) = true
  /\ 0 <= velocity s <= 127
  /\ 0 <= note s <= 127.

Definition has_key (k : key) (s : NoteSpan num) : bool :=
  key_eqb (span_key s) k.

(** What holds of the extractor's variables between two iterations. *)
Definition extract_inv (time_ok : num -> Prop) (tempos : list Z)
    (st : ExtractState num) : Prop :=
  time_ok (current_time st)
  /\ In (tempo st) tempos
  /\ (forall ch n s v, In ((ch, n), (s, v)) (active st) ->
        time_ok s /\ leb s (current_time st) = true
        /\ 0 <= v <= 127 /\ 0 <= n <= 127)
  /\ Forall span_ok (spans st).

Definition red (p : pixel) : Z := fst (fst p).
Definition green (p : pixel) : Z := snd (fst p).
Definition blue (p : pixel) : Z := snd p.

(** The sum of one channel of the mapped colours of [l]. *)
Definition channel_sum (channel_of : pixel -> Z) (l : list (NoteSpan num)) : Z :=
  fold_right Z.add 0
    (map (fun s => channel_of (color_for_note (note s) (velocity s))) l).

(** The unweighted per-channel mean, integer-divided by the count. *)
Definition mean_color (l : list (NoteSpan num)) : pixel :=
  let k := Z.of_nat (length l) in
  (channel_sum red l / k, channel_sum green l / k, channel_sum blue l / k).

(** Pixel [i] of a returned strip. *)
Definition strip_pixel (r : result (list pixel)) (i : nat) : option pixel :=
  match r with
  | Ok strip => nth_error strip i
  | Raise _ => None
  end.

Definition packed_dims (p : Packed) : Z * Z :=
  match p with
  | PillowImage width height _ | RawImage width height _ => (width, height)
  end.

Definition packed_data (h : list (list pixel)) (p : Packed) : list pixel :=
  match p with
  | PillowImage _ _ data => data
  | RawImage _ _ l => heap_get h l
  end.
End Vocabulary.

(** Section 4.5 in exact arithmetic: [target_ratio = w/h],
    [height = ceil(sqrt(area / target_ratio))] and
    [width = ceil(height * target_ratio)]. *)
Definition exact_ratio (ratio_w ratio_h : Z) : R :=
  (IZR ratio_w / IZR ratio_h)%R.

Definition exact_height (area ratio_w ratio_h : Z) : Z :=
  Exact.ceil (R_sqrt.sqrt (IZR area / exact_ratio ratio_w ratio_h)).

Definition exact_width (area ratio_w ratio_h : Z) : Z :=
  Exact.ceil (IZR (exact_height area ratio_w ratio_h)
              * exact_ratio ratio_w ratio_h).

(** The three products [c * scale] of the colour mapper are finite doubles,
    so that [int(c * scale)] does not raise. *)
Definition b64_scaled_finite (pitch_class velocity : Z) : bool :=
  let '(r, g, b) := base_color pitch_class in
  let scale := @brightness binary64 velocity in
  B64.is_finite (@mul binary64 (of_int r) scale)
  && B64.is_finite (@mul binary64 (of_int g) scale)
  && B64.is_finite (@mul binary64 (of_int b) scale).

(** An RGB triple of bytes. *)
Definition pixel_ok (p : pixel) : Prop :=
  let '(r, g, b) := p in
  byte_ok r = true /\ byte_ok g = true /\ byte_ok b = true.

(** [w] and [h] are the ceilings of section 4.5 taken in exact arithmetic,
    decided on integers: (h-1)^2 < area / (rw/rh) <= h^2 and
    w - 1 < h * (rw/rh) <= w. *)
Definition exact_dims_check (area rw rh w h : Z) : bool :=
  (1 <=? h)
  && ((h - 1) * (h - 1) * rw <? area * rh) && (area * rh <=? h * h * rw)
  && ((w - 1) * rh <? h * rw) && (h * rw <=? w * rh).

(** Two generator states that deliver the same values from now on. *)
Definition same_draws (g1 g2 : rng) : Prop :=
  forall k, tape g1 (taken g1 + k)%nat = tape g2 (taken g2 + k)%nat.

(** ** Vocabulary of the further properties *)

(** Channel by channel, [p] is at most [q]. *)
Definition channels_le (p q : pixel) : bool :=
  let '(r1, g1, b1) := p in
  let '(r2, g2, b2) := q in
  (r1 <=? r2) && (g1 <=? g2) && (b1 <=? b2).

Definition pixel_eqb (p q : pixel) : bool :=
  let '(r1, g1, b1) := p in
  let '(r2, g2, b2) := q in
  (r1 =? r2) && (g1 =? g2) && (b1 =? b2).

(** [pixel_ok], decided. *)
Definition pixel_okb (p : pixel) : bool :=
  let '(r, g, b) := p in byte_ok r && byte_ok g && byte_ok b.

(** The clamped velocity [max(0, min(127, velocity))]. *)
Definition clamp_velocity (velocity : Z) : Z := Z.max 0 (Z.min 127 velocity).

(** The double-precision colours of the twelve pitch classes at a velocity. *)
Definition b64_palette (velocity : Z) : list pixel :=
  map (fun pc => @color_for_note binary64 pc velocity) (py_range 12).

(** The entries of a list of colours are pairwise different. *)
Fixpoint all_different (l : list pixel) : bool :=
  match l with
  | [] => true
  | p :: rest => negb (existsb (pixel_eqb p) rest) && all_different rest
  end.

(** The stream has a note-on of positive velocity with these data. *)
Definition sounded (msgs : list Message) (ch n vel : Z) : Prop :=
  0 < vel /\ exists t, In (note_on t ch n vel) msgs.

(** A note-on that starts a sounding period. *)
Definition starts_note (msg : Message) : bool :=
  match msg with
  | note_on _ _ _ vel => 0 <? vel
  | _ => false
  end.

(** A double without a minus sign: a zero, a finite number or an infinity
    with the sign bit clear, or a NaN. *)
Definition b64_unsigned (x : spec_float) : Prop :=
  match x with
  | S754_zero s | S754_infinity s | S754_finite s _ _ => s = false
  | S754_nan => True
  end.

(** The pixel made of three draws of [randint(0, 255)], the first of them
    [k] draws from now. *)
Definition drawn_pixel (g : rng) (k : nat) : pixel :=
  (tape g (taken g + k) mod 256,
   tape g (taken g + k + 1) mod 256,
   tape g (taken g + k + 2) mod 256).

Section FurtherVocabulary.
Context {A : Arith}.

(** [a] ends no later than [b]. *)
Definition ends_before (a b : NoteSpan num) : Prop :=
  leb (end_ a) (end_ b) = true.

(** What the spans and the sounding notes of a state are made from. *)
Definition from_note_ons (msgs : list Message) (st : ExtractState num) : Prop :=
  Forall (fun s => sounded msgs (channel s) (note s) (velocity s)) (spans st)
  /\ forall ch n s v, In ((ch, n), (s, v)) (active st) -> sounded msgs ch n v.

(** The spans and the sounding notes together are no more than [k]. *)
Definition accounted (k : nat) (st : ExtractState num) : Prop :=
  (length (spans st) + length (active st) <= k)%nat.

(** The spans closed so far are in the order of their ends, none of which is
    later than the clock. *)
Definition ends_inv (time_ok : num -> Prop) (tempos : list Z)
    (st : ExtractState num) : Prop :=
  time_ok (current_time st)
  /\ In (tempo st) tempos
  /\ StronglySorted ends_before (spans st)
  /\ Forall (fun s => time_ok (end_ s)
                      /\ leb (end_ s) (current_time st) = true) (spans st).

(** [max(span.end for span in spans)], of a list that is not empty. *)
Definition max_end (all_spans : list (NoteSpan num)) : option num :=
  match all_spans with
  | [] => None
  | first :: rest => Some (total_duration first rest)
  end.

(** No span is active at the sample time of index [i]. *)
Definition is_filler (all_spans : list (NoteSpan num)) (step : num) (i : Z)
  : bool :=
  match filter (is_active (sample_time step i)) all_spans with
  | [] => true
  | _ :: _ => false
  end.

(** Pixel [i] of a strip built with the background [bg]. *)
Definition filled_pixel (all_spans : list (NoteSpan num)) (step : num)
    (bg : pixel) (i : Z) : pixel :=
  if is_filler all_spans step i then bg
  else mean_color (filter (is_active (sample_time step i)) all_spans).
End FurtherVocabulary.

(** The message is a note-on or a note-off of key [k]. *)
Definition touches (k : key) (msg : Message) : bool :=
  match msg with
  | note_on _ ch n _ | note_off _ ch n _ => key_eqb (ch, n) k
  | _ => false
  end.

(** The stream with the notes of the other keys silenced: their messages
    stay in place, with their deltas, as messages that are no notes. *)
Definition mute (k : key) (msg : Message) : Message :=
  match msg with
  | note_on t _ _ _ | note_off t _ _ _ =>
      if touches k msg then msg else other t
  | _ => msg
  end.

(** The entries of key [k] of a dict. *)
Definition only_key {V : Type} (k : key) (d : list (key * V))
  : list (key * V) :=
  filter (fun e => key_eqb (fst e) k) d.

Section KeyVocabulary.
Context {A : Arith}.

(** [st'] is what the extractor holds for key [k] alone when it holds [st]
    for all keys. *)
Definition restricted (k : key) (st st' : ExtractState num) : Prop :=
  tempo st' = tempo st
  /\ current_time st' = current_time st
  /\ active st' = only_key k (active st)
  /\ spans st' = filter (has_key k) (spans st).
End KeyVocabulary.

(** The message of [bytearray.append] and [bytearray.extend]. *)
Definition BYTE_RANGE : string := "byte must be in range(0, 256)".

(** Index [i] of [data] holds a pixel that the writer accepts. *)
Definition readable (data : list pixel) (i : Z) : Prop :=
  exists p, list_index data i = Ok p /\ pixel_ok p.

(** Reading index [i] of [data] raises [e]. *)
Definition refused (data : list pixel) (e : exn) (i : Z) : Prop :=
  (list_index data i = Raise IndexError /\ e = IndexError)
  \/ (exists p, list_index data i = Ok p /\ ~ pixel_ok p
                /\ e = ValueError BYTE_RANGE).

(** *** A reader of the file *)

(** The number that four big-endian bytes stand for. *)
Definition be32_value (bs : list Z) : Z :=
  fold_left (fun acc b => acc * 256 + b) bs 0.

(** Width and height as a reader finds them in the header chunk, whose
    payload follows the 8 bytes of the signature, 4 of length and 4 of tag. *)
Definition png_width (bytes : list Z) : Z :=
  be32_value (firstn 4 (skipn 16 bytes)).

Definition png_height (bytes : list Z) : Z :=
  be32_value (firstn 4 (skipn 20 bytes)).

(** The payload of the data chunk, which follows the 33 bytes of signature
    and header chunk: 4 bytes of length, the tag, the payload. *)
Definition png_idat (bytes : list Z) : list Z :=
  firstn (Z.to_nat (be32_value (firstn 4 (skipn 33 bytes)))) (skipn 41 bytes).

Section PngReader.
(** The inverse of the compression. *)
Variable unzip : list Z -> list Z.

(** The filter byte of row [y]. *)
Definition png_filter (bytes : list Z) (y : Z) : option Z :=
  nth_error (unzip (png_idat bytes))
            (Z.to_nat (y * (3 * png_width bytes + 1))).

(** The pixel in column [x] of row [y]. *)
Definition png_pixel (bytes : list Z) (x y : Z) : option pixel :=
  let raw := unzip (png_idat bytes) in
  let o := Z.to_nat (y * (3 * png_width bytes + 1) + 1 + 3 * x) in
  match nth_error raw o, nth_error raw (o + 1), nth_error raw (o + 2) with
  | Some r, Some g, Some b => Some (r, g, b)
  | _, _, _ => None
  end.
End PngReader.

(** ** Concrete inputs *)

(** One half, the double nearest to 0.5. *)
Definition b64_half : @num binary64 := S754_finite false 4503599627370496 (-53).

(** Scenario A: a note-on at tick 0, its note-off 480 ticks later. *)
Definition scenario_A : list Message :=
  [note_on 0 0 60 100; note_off 480 0 60 0].

(** A note of 6360 ticks, for a file in SMPTE time: 25 frames per second and
    40 ticks per frame are the division bytes 0xE7 0x28, which read as a
    signed 16-bit number are -6360. *)
Definition smpte_stream : list Message :=
  [note_on 0 0 60 100; note_off 6360 0 60 0].

(** A note held across a change of tempo, and a note left hanging. *)
Definition tempo_stream : list Message :=
  [note_on 0 0 60 100; set_tempo 240 1000000; note_off 240 0 60 0;
   note_on 120 1 64 90; other 480].

(** The state after a note-on of key (0, 60) at time 0, in binary64. *)
Definition sounding_state : ExtractState (@num binary64) :=
  {| tempo := 500000; current_time := of_int 0;
     active := [((0, 60), (of_int 0, 100))]; spans := [] |}.

(** A note-on that is never closed, in binary64. *)
Definition hanging_stream : list Message :=
  [note_on 0 0 60 100; other 240; note_on 0 1 64 80; note_off 240 1 64 0].

(** A file with a single message that is not a note. *)
Definition silent_fs (path : string) : option MidiFile :=
  Some {| ticks_per_beat := 480; merged_tracks := [other 480] |}.

(** Two overlapping spans, of pitch classes C and D, ending at 1.0 and 2.0. *)
Definition overlap_spans : list (NoteSpan (@num binary64)) :=
  [ {| note := 60; channel := 0; start := of_int 0; end_ := of_int 1;
       velocity := 100 |};
    {| note := 62; channel := 0; start := of_int 0; end_ := of_int 2;
       velocity := 100 |} ].

(** A span that starts one second into the piece: the first pixel is filler. *)
Definition late_span : list (NoteSpan (@num binary64)) :=
  [ {| note := 60; channel := 0; start := of_int 1; end_ := of_int 2;
       velocity := 100 |} ].

(** The generator of [gen_zero] after seven draws. *)
Definition gen_zero_later : rng := {| tape := fun _ => 0; taken := 7%nat |}.

(** A store whose only list is a strip of thirteen pixels. *)
Definition thirteen_pixels : world :=
  {| heap := [repeat (7, 7, 7) 13]; gen := gen_zero |}.

(** A file that holds scenario A, at 480 ticks per beat. *)
Definition one_note_fs (path : string) : option MidiFile :=
  Some {| ticks_per_beat := 480; merged_tracks := scenario_A |}.

(** The span of scenario A in double precision. *)
Definition scenario_A_span : NoteSpan (@num binary64) :=
  {| note := 60; channel := 0; start := of_int 0; end_ := b64_half;
     velocity := 100 |}.

(** The store after the pipeline has run on scenario A from an empty store
    with the generator [gen_one]: the padded strip and the canvas. *)
Definition scenario_A_store : world :=
  {| heap := [ repeat (222, 186, 8) 25 ++ repeat (1, 1, 1) 10;
               repeat (222, 186, 8) 25 ++ repeat (1, 1, 1) 10 ];
     gen := {| tape := fun _ => 1; taken := 30 |} |}.

(** A note of key (0, 60) around which a note of key (1, 64) begins. *)
Definition two_keys_stream : list Message :=
  [note_on 0 0 60 100; other 240; note_on 0 1 64 80; note_off 240 0 60 0].

(** One quarter, the double nearest to 0.25. *)
Definition b64_quarter : @num binary64 :=
  S754_finite false 4503599627370496 (-54).

(** A note that lasts from 0.25 s to 0.5 s, and one from 0 s to 2 s. *)
Definition short_span : NoteSpan (@num binary64) :=
  {| note := 62; channel := 0; start := b64_quarter; end_ := b64_half;
     velocity := 100 |}.

Definition long_span : NoteSpan (@num binary64) :=
  {| note := 60; channel := 0; start := of_int 0; end_ := of_int 2;
     velocity := 100 |}.

(** * Properties *)

(** ** Results and dicts *)

Lemma bind_ok {T U : Type} (c : result T) (k : T -> result U) (u : U) :
  bind c k = Ok u -> exists v, c = Ok v /\ k v = Ok u.
Proof.
  destruct c as [v | e]; simpl; intros H; [eauto | discriminate].
Qed.

Lemma key_eqb_eq (a b : key) : key_eqb a b = true <-> a = b.
Proof.
  destruct a as [a1 a2], b as [b1 b2]; unfold key_eqb; simpl.
  rewrite andb_true_iff, !Z.eqb_eq. split.
  - intros [-> ->]; reflexivity.
  - intros H; inversion H; auto.
Qed.

Lemma key_eqb_refl (a : key) : key_eqb a a = true.
Proof. apply key_eqb_eq; reflexivity. Qed.

Lemma key_eqb_neq (a b : key) : key_eqb a b = false <-> a <> b.
Proof.
  rewrite <- key_eqb_eq. destruct (key_eqb a b); split; congruence.
Qed.

Lemma key_eqb_sym (a b : key) : key_eqb a b = key_eqb b a.
Proof.
  destruct (key_eqb b a) eqn:E.
  - apply key_eqb_eq in E; subst; apply key_eqb_refl.
  - apply key_eqb_neq in E. apply key_eqb_neq. congruence.
Qed.

Section DictFacts.
Context {V : Type}.
Implicit Types (d : list (key * V)) (k : key) (v : V).

Lemma dict_lookup_set_same d k v : dict_lookup (dict_set d k v) k = Some v.
Proof.
  induction d as [| [k' v'] d IH]; simpl.
  - rewrite key_eqb_refl; reflexivity.
  - destruct (key_eqb k' k) eqn:E; simpl; rewrite E; auto.
Qed.

Lemma dict_lookup_set_other d k k' v :
  k' <> k -> dict_lookup (dict_set d k v) k' = dict_lookup d k'.
Proof.
  intros Hne. induction d as [| [k0 v0] d IH]; simpl.
  - apply key_eqb_neq in Hne. rewrite key_eqb_sym, Hne; reflexivity.
  - destruct (key_eqb k0 k) eqn:E; simpl.
    + apply key_eqb_eq in E; subst k0.
      assert (E' : key_eqb k k' = false) by (apply key_eqb_neq; congruence).
      rewrite E'; reflexivity.
    + destruct (key_eqb k0 k'); auto.
Qed.

Lemma dict_keys_set_present d k v v0 :
  dict_lookup d k = Some v0 -> dict_keys (dict_set d k v) = dict_keys d.
Proof.
  induction d as [| [k' v'] d IH]; simpl; [discriminate |].
  destruct (key_eqb k' k) eqn:E; simpl; intros H; [reflexivity |].
  f_equal; auto.
Qed.

Lemma dict_keys_set_absent d k v :
  dict_lookup d k = None -> dict_keys (dict_set d k v) = dict_keys d ++ [k].
Proof.
  induction d as [| [k' v'] d IH]; simpl; [reflexivity |].
  destruct (key_eqb k' k) eqn:E; simpl; intros H; [discriminate |].
  f_equal; auto.
Qed.

Lemma dict_lookup_none_not_in d k :
  dict_lookup d k = None <-> ~ In k (dict_keys d).
Proof.
  induction d as [| [k' v'] d IH]; simpl.
  - split; auto.
  - destruct (key_eqb k' k) eqn:E.
    + apply key_eqb_eq in E; subst. split; [discriminate | intros H; elim H; auto].
    + apply key_eqb_neq in E. rewrite IH. split.
      * intros H [H1 | H1]; auto.
      * intros H H1; apply H; auto.
Qed.

Lemma dict_lookup_in d k v : dict_lookup d k = Some v -> In (k, v) d.
Proof.
  induction d as [| [k' v'] d IH]; simpl; [discriminate |].
  destruct (key_eqb k' k) eqn:E.
  - apply key_eqb_eq in E; subst. intros H; inversion H; auto.
  - auto.
Qed.

Lemma dict_keys_remove_incl d k x :
  In x (dict_keys (dict_remove d k)) -> In x (dict_keys d).
Proof.
  induction d as [| [k' v'] d IH]; simpl; auto.
  destruct (key_eqb k' k); simpl; intuition.
Qed.

Lemma dict_in_remove d k x :
  In x (dict_remove d k) -> In x d.
Proof.
  induction d as [| [k' v'] d IH]; simpl; auto.
  destruct (key_eqb k' k); simpl; intuition.
Qed.

Lemma dict_in_set d k v x :
  In x (dict_set d k v) -> x = (k, v) \/ In x d.
Proof.
  induction d as [| [k' v'] d IH]; simpl.
  - intuition.
  - destruct (key_eqb k' k) eqn:E; simpl.
    + apply key_eqb_eq in E; subst. intuition.
    + intuition.
Qed.

Lemma dict_nodup_set d k v :
  NoDup (dict_keys d) -> NoDup (dict_keys (dict_set d k v)).
Proof.
  intros Hnd. destruct (dict_lookup d k) eqn:E.
  - erewrite dict_keys_set_present; eauto.
  - rewrite dict_keys_set_absent by assumption.
    apply dict_lookup_none_not_in in E.
    apply NoDup_app; [assumption | repeat constructor; intros [] |].
    intros x Hx [<- | []]. contradiction.
Qed.

Lemma dict_nodup_remove d k :
  NoDup (dict_keys d) -> NoDup (dict_keys (dict_remove d k)).
Proof.
  induction d as [| [k' v'] d IH]; simpl; auto.
  intros Hnd. inversion Hnd; subst.
  destruct (key_eqb k' k); simpl; auto.
  constructor; auto. intros Hin. apply dict_keys_remove_incl in Hin. auto.
Qed.

Lemma dict_lookup_remove_other d k k' :
  k' <> k -> dict_lookup (dict_remove d k) k' = dict_lookup d k'.
Proof.
  intros Hne. induction d as [| [k0 v0] d IH]; simpl; auto.
  destruct (key_eqb k0 k) eqn:E; simpl.
  - apply key_eqb_eq in E; subst k0.
    apply key_eqb_neq in Hne. rewrite key_eqb_sym, Hne. reflexivity.
  - destruct (key_eqb k0 k'); auto.
Qed.
End DictFacts.

(** ** Note-span extractor *)

Section ExtractorFacts.
Context {A : Arith}.
Variable conv : Z -> Z -> Z -> result num.
Variable tpb : Z.

Lemma step_ok (st st' : ExtractState num) (msg : Message) :
  step conv tpb st msg = Ok st' ->
  exists d, conv (msg_time msg) tpb (tempo st) = Ok d
            /\ st' = dispatch st (add (current_time st) d) msg.
Proof.
  unfold step. intros H. apply bind_ok in H as (d & Hd & H).
  exists d. split; [assumption | congruence].
Qed.

Lemma run_app (l1 l2 : list Message) (st : ExtractState num) :
  run conv tpb st (l1 ++ l2)
  = bind (run conv tpb st l1) (fun st1 => run conv tpb st1 l2).
Proof.
  revert st. induction l1 as [| m l1 IH]; intros st; simpl; [reflexivity |].
  destruct (step conv tpb st m); simpl; auto.
Qed.

Lemma dispatch_time (st : ExtractState num) now msg :
  current_time (dispatch st now msg) = now.
Proof.
  destruct msg; simpl; auto; unfold close_note;
    repeat match goal with
           | |- context [if ?b then _ else _] => destruct b
           | |- context [match ?o with Some _ => _ | None => _ end] =>
               destruct o as [[? ?] |]
           end; reflexivity.
Qed.

(** What [dispatch] appends to [spans]. *)
Lemma dispatch_spans (st : ExtractState num) now msg :
  exists emitted,
    spans (dispatch st now msg) = spans st ++ emitted
    /\ forall s, In s emitted ->
         closes (span_key s) msg = true
         /\ dict_lookup (active st) (span_key s) = Some (start s, velocity s)
         /\ end_ s = now.
Proof.
  assert (Hnone : exists emitted : list (NoteSpan num),
             spans st = spans st ++ emitted
             /\ forall s, In s emitted ->
                  closes (span_key s) msg = true
                  /\ dict_lookup (active st) (span_key s)
                     = Some (start s, velocity s)
                  /\ end_ s = now).
  { exists []. rewrite app_nil_r. split; [reflexivity | intros s []]. }
  assert (Hclose : forall ch n,
             closes (ch, n) msg = true ->
             exists emitted : list (NoteSpan num),
               spans (close_note st now ch n) = spans st ++ emitted
               /\ forall s, In s emitted ->
                    closes (span_key s) msg = true
                    /\ dict_lookup (active st) (span_key s)
                       = Some (start s, velocity s)
                    /\ end_ s = now).
  { intros ch n Hc. unfold close_note.
    destruct (dict_lookup (active st) (ch, n)) as [[s0 v0] |] eqn:E; simpl.
    - eexists. split; [reflexivity |].
      intros s [<- | []]; simpl; auto.
    - exact Hnone. }
  destruct msg as [t ch n vel | t ch n vel | t nt | t]; unfold dispatch;
    try exact Hnone.
  - destruct (0 <? vel); [exact Hnone |].
    destruct (vel =? 0) eqn:E; [| exact Hnone].
    apply Hclose. simpl. rewrite key_eqb_refl, E. reflexivity.
  - apply Hclose. simpl. apply key_eqb_refl.
Qed.

Lemma dispatch_nodup (st : ExtractState num) now msg :
  NoDup (dict_keys (active st)) ->
  NoDup (dict_keys (active (dispatch st now msg))).
Proof.
  intros Hnd.
  assert (Hclose : forall ch n,
             NoDup (dict_keys (active (close_note st now ch n)))).
  { intros ch n. unfold close_note.
    destruct (dict_lookup (active st) (ch, n)) as [[s0 v0] |]; simpl; auto.
    apply dict_nodup_remove; assumption. }
  destruct msg as [t ch n vel | t ch n vel | t nt | t]; simpl; auto.
  destruct (0 <? vel); simpl; [apply dict_nodup_set; assumption |].
  destruct (vel =? 0); auto.
Qed.

Lemma run_nodup (msgs : list Message) (st st' : ExtractState num) :
  NoDup (dict_keys (active st)) ->
  run conv tpb st msgs = Ok st' ->
  NoDup (dict_keys (active st')).
Proof.
  revert st. induction msgs as [| m msgs IH]; simpl; intros st Hnd H.
  - inversion H; subst; assumption.
  - apply bind_ok in H as (st1 & H1 & H2).
    apply step_ok in H1 as (d & _ & ->).
    eapply IH; [| eassumption]. apply dispatch_nodup; assumption.
Qed.

(** A key that no message closes stays in the table, and no span of it is
    emitted. *)
Lemma dispatch_keeps_open (st : ExtractState num) now msg k v0 :
  closes k msg = false ->
  dict_lookup (active st) k = Some v0 ->
  exists v1, dict_lookup (active (dispatch st now msg)) k = Some v1.
Proof.
  intros Hc Hk.
  assert (Hclose : forall ch n,
             key_eqb (ch, n) k = false ->
             exists v1, dict_lookup (active (close_note st now ch n)) k
                        = Some v1).
  { intros ch n Hne. unfold close_note.
    destruct (dict_lookup (active st) (ch, n)) as [[s0 w0] |]; simpl; eauto.
    rewrite dict_lookup_remove_other; eauto.
    apply key_eqb_neq in Hne. congruence. }
  destruct msg as [t ch n vel | t ch n vel | t nt | t]; simpl in *; eauto.
  destruct (0 <? vel) eqn:Ev; simpl.
  - destruct (key_eqb (ch, n) k) eqn:Ek.
    + apply key_eqb_eq in Ek; subst k.
      rewrite dict_lookup_set_same; eauto.
    + rewrite dict_lookup_set_other; eauto.
      apply key_eqb_neq in Ek. congruence.
  - destruct (vel =? 0) eqn:E0; eauto.
    apply Hclose. rewrite andb_true_r in Hc. exact Hc.
Qed.

Lemma run_keeps_open (msgs : list Message) (st st' : ExtractState num) k v0 :
  Forall (fun m => closes k m = false) msgs ->
  dict_lookup (active st) k = Some v0 ->
  run conv tpb st msgs = Ok st' ->
  (exists v1, dict_lookup (active st') k = Some v1)
  /\ exists later, spans st' = spans st ++ later
                   /\ filter (has_key k) later = [].
Proof.
  revert st v0. induction msgs as [| m msgs IH]; simpl; intros st v0 Hall Hk H.
  - inversion H; subst. split; [eauto |].
    exists []. rewrite app_nil_r. auto.
  - inversion Hall as [| ? ? Hm Hrest]; subst.
    apply bind_ok in H as (st1 & H1 & H2).
    apply step_ok in H1 as (d & _ & ->).
    destruct (dispatch_keeps_open st (add (current_time st) d) m k v0 Hm Hk)
      as (v1 & Hv1).
    destruct (IH _ _ Hrest Hv1 H2) as (Hopen & later & Hl & Hf).
    split; [assumption |].
    destruct (dispatch_spans st (add (current_time st) d) m)
      as (emitted & He & Hin).
    exists (emitted ++ later). split.
    + rewrite Hl, He, app_assoc. reflexivity.
    + rewrite filter_app, Hf, app_nil_r.
      clear - Hin Hm.
      induction emitted as [| s em IHem]; simpl; [reflexivity |].
      destruct (has_key k s) eqn:E.
      * unfold has_key in E. apply key_eqb_eq in E.
        destruct (Hin s (or_introl eq_refl)) as (Hc & _).
        rewrite E in Hc. congruence.
      * apply IHem. intros s' Hs'. apply Hin. right; assumption.
Qed.

(** The spans that close the hanging notes, key by key. *)
Lemma hanging_of_key (st : ExtractState num) ch n start_time vel :
  NoDup (dict_keys (active st)) ->
  dict_lookup (active st) (ch, n) = Some (start_time, vel) ->
  filter (has_key (ch, n)) (hanging st)
  = [ {| note := n; channel := ch; start := start_time;
         end_ := current_time st; velocity := vel |} ].
Proof.
  unfold hanging. generalize (current_time st) as now.
  induction (active st) as [| [[c0 n0] [s0 v0]] d IH]; simpl; intros now Hnd Hk;
    [discriminate |].
  inversion Hnd as [| ? ? Hnot Hnd']; subst.
  unfold has_key at 1, span_key at 1; simpl.
  destruct (key_eqb (c0, n0) (ch, n)) eqn:E.
  - apply key_eqb_eq in E. inversion E; subst c0 n0.
    inversion Hk; subst s0 v0. f_equal.
    clear - Hnot. induction d as [| [[c1 n1] [s1 v1]] d IHd]; simpl;
      [reflexivity |].
    unfold has_key at 1, span_key at 1; simpl.
    destruct (key_eqb (c1, n1) (ch, n)) eqn:E1.
    + apply key_eqb_eq in E1. elim Hnot. simpl. auto.
    + apply IHd. intros Hin. apply Hnot. simpl. auto.
  - apply IH; assumption.
Qed.

Lemma hanging_without_key (st : ExtractState num) k :
  dict_lookup (active st) k = None ->
  filter (has_key k) (hanging st) = [].
Proof.
  unfold hanging. generalize (current_time st) as now.
  induction (active st) as [| [[c0 n0] [s0 v0]] d IH]; simpl; intros now Hk;
    [reflexivity |].
  unfold has_key at 1, span_key at 1; simpl.
  destruct (key_eqb (c0, n0) k); [discriminate | auto].
Qed.
Lemma run_split (pre post : list Message) (m : Message)
    (st st' : ExtractState num) :
  run conv tpb st (pre ++ m :: post) = Ok st' ->
  exists st1 st2,
    run conv tpb st pre = Ok st1
    /\ step conv tpb st1 m = Ok st2
    /\ run conv tpb st (pre ++ [m]) = Ok st2
    /\ run conv tpb st2 post = Ok st'.
Proof.
  rewrite run_app. intros H.
  apply bind_ok in H as (st1 & H1 & H). simpl in H.
  apply bind_ok in H as (st2 & H2 & H).
  exists st1, st2. repeat split; auto.
  rewrite run_app, H1. simpl. rewrite H2. reflexivity.
Qed.

(** C7: when a note-on with velocity > 0 arrives for a (channel, pitch) key
    that is already sounding, the extractor overwrites the stored start time
    and velocity with the new event's values and emits no span for the
    earlier sounding period; the other keys keep their entries. *)
Theorem retrigger_overwrites (st : ExtractState num) (t ch n vel : Z)
    (old : num * Z) (d : num) :
  0 < vel ->
  dict_lookup (active st) (ch, n) = Some old ->
  conv t tpb (tempo st) = Ok d ->
  exists st',
    step conv tpb st (note_on t ch n vel) = Ok st'
    /\ spans st' = spans st
    /\ dict_lookup (active st') (ch, n) = Some (add (current_time st) d, vel)
    /\ dict_keys (active st') = dict_keys (active st)
    /\ forall k, k <> (ch, n) ->
         dict_lookup (active st') k = dict_lookup (active st) k.
Proof.
  intros Hvel Hold Hd. unfold step. simpl. rewrite Hd. simpl.
  apply Z.ltb_lt in Hvel. rewrite Hvel.
  eexists. split; [reflexivity |]. simpl. repeat split.
  - apply dict_lookup_set_same.
  - eapply dict_keys_set_present; eassumption.
  - intros k Hk. apply dict_lookup_set_other; assumption.
Qed.

Lemma run_total (msgs : list Message) (st : ExtractState num) :
  (forall tick tempo, exists d, conv tick tpb tempo = Ok d) ->
  exists st', run conv tpb st msgs = Ok st'.
Proof.
  intros Hconv. revert st.
  induction msgs as [| m msgs IH]; intros st; simpl; [eauto |].
  unfold step. destruct (Hconv (msg_time m) (tempo st)) as (d & ->).
  simpl. apply IH.
Qed.

(** C6: for every event stream (whose deltas convert), the extractor returns,
    and each (channel, pitch) key still sounding when the stream ends emits
    exactly one final span, whose end is the last observed time; a key that
    is not sounding emits none; and a note-on that no later message closes
    gives, among the spans emitted after it, exactly one span of its key,
    ending at the last observed time. *)
Theorem hanging_notes_closed_once (msgs : list Message) :
  (forall tick tempo, exists d, conv tick tpb tempo = Ok d) ->
  exists st,
    run conv tpb initial_state msgs = Ok st
    /\ extract_spans conv tpb msgs = Ok (spans st ++ hanging st)
    /\ length (hanging st) = length (active st)
    /\ (forall ch n start_time vel,
          dict_lookup (active st) (ch, n) = Some (start_time, vel) ->
          filter (has_key (ch, n)) (hanging st)
          = [ {| note := n; channel := ch; start := start_time;
                 end_ := current_time st; velocity := vel |} ])
    /\ (forall k, dict_lookup (active st) k = None ->
          filter (has_key k) (hanging st) = [])
    /\ (forall pre t ch n vel post,
          msgs = pre ++ note_on t ch n vel :: post ->
          0 < vel ->
          Forall (fun m => closes (ch, n) m = false) post ->
          exists st2 later start_time vel',
            run conv tpb initial_state (pre ++ [note_on t ch n vel]) = Ok st2
            /\ spans st ++ hanging st = spans st2 ++ later
            /\ filter (has_key (ch, n)) later
               = [ {| note := n; channel := ch; start := start_time;
                      end_ := current_time st; velocity := vel' |} ]).
Proof.
  intros Hconv.
  destruct (run_total msgs initial_state Hconv) as (st & Hrun).
  exists st. split; [exact Hrun |].
  assert (Hnd : NoDup (dict_keys (active st))).
  { eapply run_nodup; [| exact Hrun]. simpl. constructor. }
  split; [unfold extract_spans; rewrite Hrun; reflexivity |].
  split; [unfold hanging; apply length_map |].
  split; [intros; apply hanging_of_key; assumption |].
  split; [intros; apply hanging_without_key; assumption |].
  intros pre t ch n vel post -> Hvel Hpost.
  destruct (run_split _ _ _ _ _ Hrun) as (st1 & st2 & H1 & H2 & H12 & H3).
  apply step_ok in H2 as (d & Hd & Hst2).
  assert (Hopen : dict_lookup (active st2) (ch, n)
                  = Some (add (current_time st1) d, vel)).
  { subst st2. simpl. apply Z.ltb_lt in Hvel. rewrite Hvel. simpl.
    apply dict_lookup_set_same. }
  destruct (run_keeps_open _ _ _ _ _ Hpost Hopen H3)
    as ([[s1 v1] Hv1] & later & Hl & Hf).
  exists st2, (later ++ hanging st), s1, v1.
  split; [assumption |]. split.
  - rewrite Hl, app_assoc. reflexivity.
  - rewrite filter_app, Hf. simpl. apply hanging_of_key; assumption.
Qed.

(** *** Well-formed spans *)

Variable time_ok : num -> Prop.
Context {L : TimeLaws A time_ok}.

Lemma dispatch_inv (tempos : list Z) (st : ExtractState num) (d : num)
    (msg : Message) :
  wf_message msg ->
  (forall t new_tempo, msg = set_tempo t new_tempo -> In new_tempo tempos) ->
  time_ok d ->
  extract_inv time_ok tempos st ->
  extract_inv time_ok tempos (dispatch st (add (current_time st) d) msg).
Proof.
  intros Hwf Hset Hd (Hcur & Htempo & Hact & Hsp).
  set (now := add (current_time st) d).
  destruct (add_increasing (current_time st) d Hcur Hd) as [Hnow Hstep].
  fold now in Hnow, Hstep.
  assert (Hact' : forall ch n s v, In ((ch, n), (s, v)) (active st) ->
             time_ok s /\ leb s now = true
             /\ 0 <= v <= 127 /\ 0 <= n <= 127).
  { intros ch n s v Hin. destruct (Hact _ _ _ _ Hin) as (H0 & H1 & H2 & H3).
    split; [exact H0 |].
    split; [apply (leb_trans s (current_time st) now); assumption | auto]. }
  assert (Hidle : extract_inv time_ok tempos
                    {| tempo := tempo st; current_time := now;
                       active := active st; spans := spans st |}).
  { split; [exact Hnow |]. split; [exact Htempo |].
    split; [exact Hact' | exact Hsp]. }
  assert (Hclose : forall ch n,
             extract_inv time_ok tempos (close_note st now ch n)).
  { intros ch n. unfold close_note.
    destruct (dict_lookup (active st) (ch, n)) as [[s0 v0] |] eqn:E;
      [| exact Hidle].
    apply dict_lookup_in in E.
    destruct (Hact' _ _ _ _ E) as (H0 & H1 & H2 & H3).
    split; [exact Hnow |]. split; [exact Htempo |]. split; simpl.
    - intros c1 n1 s1 v1 Hin. apply dict_in_remove in Hin. eauto.
    - apply Forall_app. split; [assumption |].
      constructor; [| constructor]. repeat split; simpl; lia || assumption. }
  destruct msg as [t ch n vel | t ch n vel | t nt | t]; unfold dispatch;
    try exact Hidle; try apply Hclose.
  - destruct (0 <? vel) eqn:Ev.
    + apply Z.ltb_lt in Ev. simpl in Hwf.
      split; [exact Hnow |]. split; [exact Htempo |]. split; simpl; auto.
      intros c1 n1 s1 v1 Hin. apply dict_in_set in Hin as [Heq | Hin]; eauto.
      inversion Heq; subst.
      split; [exact Hnow |]. split; [apply leb_refl; exact Hnow | lia].
    + destruct (vel =? 0); [apply Hclose | exact Hidle].
  - split; [exact Hnow |]. split; [simpl; eapply Hset; reflexivity |].
    split; simpl; auto.
Qed.

Lemma run_inv (tempos : list Z) (msgs : list Message) (st : ExtractState num) :
  (forall m tempo, In m msgs -> In tempo tempos ->
     exists d, conv (msg_time m) tpb tempo = Ok d /\ time_ok d) ->
  (forall t new_tempo, In (set_tempo t new_tempo) msgs -> In new_tempo tempos) ->
  Forall wf_message msgs ->
  extract_inv time_ok tempos st ->
  exists st', run conv tpb st msgs = Ok st' /\ extract_inv time_ok tempos st'.
Proof.
  revert st.
  induction msgs as [| m msgs IH]; simpl; intros st Hconv Hset Hall Hinv;
    [eauto |].
  inversion Hall as [| ? ? Hm Hrest]; subst.
  destruct (Hconv m (tempo st) (or_introl eq_refl) (proj1 (proj2 Hinv)))
    as (d & Hd & Hok).
  unfold step. rewrite Hd. cbn [bind].
  apply IH.
  - intros m0 tempo H0 Ht. apply Hconv; [right; exact H0 | exact Ht].
  - intros t new_tempo H0. apply (Hset t new_tempo). right. exact H0.
  - exact Hrest.
  - apply dispatch_inv; try assumption.
    intros t new_tempo ->. apply (Hset t new_tempo). left. reflexivity.
Qed.

Lemma tempos_of_set (msgs : list Message) (t new_tempo : Z) :
  In (set_tempo t new_tempo) msgs -> In new_tempo (tempos_of msgs).
Proof.
  intros Hin. unfold tempos_of. right. apply in_flat_map.
  exists (set_tempo t new_tempo). split; [exact Hin | left; reflexivity].
Qed.

(** C5 (amended): for every stream of MIDI messages (data bytes in range)
    whose deltas convert to times that are not negative, the extractor
    returns, and every NoteSpan in its output satisfies end >= start,
    0 <= velocity <= 127 and 0 <= pitch <= 127. *)
Theorem extracted_spans_well_formed (msgs : list Message) :
  conversions_ok time_ok conv tpb msgs ->
  Forall wf_message msgs ->
  exists out,
    extract_spans conv tpb msgs = Ok out /\ Forall span_ok out.
Proof.
  intros Hconv Hall.
  assert (Hinit : extract_inv time_ok (tempos_of msgs) initial_state).
  { split; [apply time_ok_zero |]. split; [left; reflexivity |].
    split; [intros ch n s v [] | constructor]. }
  destruct (run_inv (tempos_of msgs) msgs initial_state Hconv
              (tempos_of_set msgs) Hall Hinit)
    as (st & Hrun & Hcur & Htempo & Hact & Hsp).
  exists (spans st ++ hanging st). unfold extract_spans. rewrite Hrun.
  split; [reflexivity |].
  apply Forall_app. split; [assumption |].
  unfold hanging. apply Forall_forall. intros s Hs.
  apply in_map_iff in Hs as ([[ch n] [s0 v0]] & <- & Hin).
  destruct (Hact _ _ _ _ Hin) as (H0 & H1 & H2 & H3).
  repeat split; simpl; lia || assumption.
Qed.
End ExtractorFacts.

(** ** The two arithmetics *)

Lemma exact_leb_true (x y : R) : @leb exact x y = true <-> (x <= y)%R.
Proof.
  simpl. unfold Exact.leb. destruct (Rle_dec x y); split; intros; auto;
    try discriminate; contradiction.
Qed.

Lemma exact_ltb_true (x y : R) : @ltb exact x y = true <-> (x < y)%R.
Proof.
  simpl. unfold Exact.ltb. destruct (Rlt_dec x y); split; intros; auto;
    try discriminate; contradiction.
Qed.

Lemma exact_ltb_false (x y : R) : @ltb exact x y = false <-> (y <= x)%R.
Proof.
  simpl. unfold Exact.ltb. destruct (Rlt_dec x y); split; intros; auto;
    try discriminate; lra.
Qed.

Lemma exact_truediv (x y : R) :
  y <> 0%R -> @py_truediv exact x y = Ok (x / y)%R.
Proof.
  intros Hy. unfold py_truediv. simpl. unfold Exact.eqb.
  destruct (Req_dec_T y 0); [contradiction | reflexivity].
Qed.

Lemma exact_int_truediv (a b : Z) :
  b <> 0 -> @py_int_truediv exact a b = Ok (IZR a / IZR b)%R.
Proof.
  intros Hb. unfold py_int_truediv.
  destruct (Z.eqb_spec b 0) as [E | _]; [contradiction | reflexivity].
Qed.

Lemma exact_math_sqrt (x : R) :
  (0 <= x)%R -> @math_sqrt exact x = Ok (R_sqrt.sqrt x).
Proof.
  intros Hx. unfold math_sqrt.
  assert (E : @ltb exact x (@of_int exact 0) = false)
    by (apply exact_ltb_false; simpl; lra).
  rewrite E. reflexivity.
Qed.

Lemma exact_time_laws : TimeLaws exact exact_time_ok.
Proof.
  constructor; unfold exact_time_ok.
  - simpl. lra.
  - intros x _. apply exact_leb_true. lra.
  - intros x y z _ _ _ H1 H2. apply exact_leb_true in H1, H2.
    apply exact_leb_true. lra.
  - intros x d H1 H2. split; [simpl; lra |].
    apply exact_leb_true. simpl. lra.
Qed.

(** In exact arithmetic the conversion is the formula of section 4.1. *)
Lemma exact_tick2second (tick tpb tempo : Z) :
  tpb <> 0 ->
  @tick2second exact tick tpb tempo
  = Ok (IZR tick * (IZR tempo / 1000000) / IZR tpb)%R.
Proof.
  intros Htpb. unfold tick2second.
  rewrite exact_truediv by (simpl; lra). simpl bind.
  rewrite exact_truediv; [reflexivity |].
  simpl. intros H. apply eq_IZR_R0 in H. contradiction.
Qed.

Lemma exact_conversions_ok (tpb : Z) (msgs : list Message) :
  0 < tpb ->
  (forall m, In m msgs -> 0 <= msg_time m) ->
  (forall tempo, In tempo (tempos_of msgs) -> 0 <= tempo) ->
  conversions_ok (A := exact) exact_time_ok tick2second tpb msgs.
Proof.
  intros Htpb Hticks Htempos m tempo Hm Ht.
  rewrite exact_tick2second by lia.
  eexists. split; [reflexivity |]. unfold exact_time_ok.
  pose proof (Hticks m Hm) as Htick. pose proof (Htempos tempo Ht) as Htempo.
  apply IZR_le in Htick, Htempo. apply IZR_lt in Htpb.
  apply Rmult_le_pos; [| apply Rlt_le, Rinv_0_lt_compat; assumption].
  apply Rmult_le_pos; [assumption |].
  apply Rmult_le_pos; [assumption |].
  apply Rlt_le, Rinv_0_lt_compat. lra.
Qed.

(** *** Double precision: rounding and the order of times *)

Lemma digits2_pos_size (p : positive) : digits2_pos p = Pos.size p.
Proof. induction p; simpl; congruence. Qed.

Lemma Zdigits2_digits (p : positive) : Zdigits2 (Zpos p) = B64.digits (Zpos p).
Proof.
  unfold B64.digits. simpl Zdigits2. rewrite digits2_pos_size.
  destruct p; simpl; try rewrite Pos2Z.inj_succ; lia.
Qed.

Lemma digits_pos (m : Z) : 0 < m -> 0 < B64.digits m.
Proof. intros H. unfold B64.digits. pose proof (Z.log2_nonneg m). lia. Qed.

Lemma digits_le (a b : Z) : 0 < a -> a <= b -> B64.digits a <= B64.digits b.
Proof. intros Ha Hab. unfold B64.digits. pose proof (Z.log2_le_mono a b Hab). lia. Qed.

Lemma digits_div_pow2 (m k : Z) :
  0 < m -> 0 <= k < B64.digits m -> B64.digits (m / 2 ^ k) = B64.digits m - k.
Proof.
  intros Hm Hk. unfold B64.digits in *.
  rewrite <- Z.shiftr_div_pow2 by lia.
  rewrite Z.log2_shiftr by lia. lia.
Qed.

Lemma div_pow2_pos (m k : Z) :
  0 < m -> 0 <= k < B64.digits m -> 0 < m / 2 ^ k.
Proof.
  intros Hm Hk. unfold B64.digits in Hk.
  apply Z.div_str_pos. split; [apply Z.pow_pos_nonneg; lia |].
  destruct (Z.log2_spec m Hm) as [H1 _].
  apply Z.le_trans with (2 ^ Z.log2 m); [| exact H1].
  apply Z.pow_le_mono_r; lia.
Qed.

Lemma div_pow2_zero (m k : Z) :
  0 < m -> B64.digits m <= k -> m / 2 ^ k = 0.
Proof.
  intros Hm Hk. unfold B64.digits in Hk.
  apply Z.div_small. split; [lia |].
  destruct (Z.log2_spec m Hm) as [_ H2].
  apply Z.lt_le_trans with (2 ^ Z.succ (Z.log2 m)); [exact H2 |].
  apply Z.pow_le_mono_r; lia.
Qed.

Lemma digits_mul_pow2 (m k : Z) :
  0 < m -> 0 <= k -> B64.digits (m * 2 ^ k) = B64.digits m + k.
Proof.
  intros Hm Hk. unfold B64.digits. rewrite Z.log2_mul_pow2 by lia. lia.
Qed.

Lemma digits_succ (m : Z) : 0 < m -> B64.digits m <= B64.digits (m + 1) <= B64.digits m + 1.
Proof.
  intros Hm. split; [apply digits_le; lia |].
  unfold B64.digits.
  assert (Z.log2 (m + 1) <= Z.log2 m + 1); [| lia].
  destruct (Z.log2_spec m Hm) as [H1 H2].
  pose proof (Z.log2_nonneg m) as Hn.
  rewrite <- (Z.log2_pow2 (Z.log2 m + 1)) by lia.
  apply Z.log2_le_mono. unfold Z.succ in H2. lia.
Qed.

(** **** Shifting right *)

Lemma shr_1_m (mrs : shr_record) :
  0 <= shr_m mrs -> shr_m (shr_1 mrs) = shr_m mrs / 2.
Proof.
  destruct mrs as [m r s]. cbn [shr_m]. intros Hm.
  destruct m as [| [p | p |] | p]; cbn [shr_1 shr_m]; try lia.
  - reflexivity.
  - apply Z.div_unique with (r := 1); lia.
  - apply Z.div_unique with (r := 0); lia.
  - reflexivity.
Qed.

Lemma iter_shr_m (p : positive) (mrs : shr_record) :
  0 <= shr_m mrs ->
  shr_m (iter_pos shr_1 p mrs) = shr_m mrs / 2 ^ Zpos p.
Proof.
  revert mrs. induction p as [p IH | p IH |]; intros mrs Hm.
  - cbn [iter_pos].
    assert (H1 : 0 <= shr_m (shr_1 mrs)).
    { rewrite shr_1_m by exact Hm. apply Z.div_pos; lia. }
    assert (H2 : 0 <= shr_m (iter_pos shr_1 p (shr_1 mrs))).
    { rewrite IH by exact H1. apply Z.div_pos; lia. }
    rewrite IH by exact H2. rewrite IH by exact H1. rewrite shr_1_m by exact Hm.
    rewrite !Z.div_div by lia.
    f_equal. replace (Z.pos p~1) with (Z.pos p + Z.pos p + 1) by lia.
    rewrite !Z.pow_add_r, Z.pow_1_r by lia. ring.
  - cbn [iter_pos].
    assert (H2 : 0 <= shr_m (iter_pos shr_1 p mrs)).
    { rewrite IH by exact Hm. apply Z.div_pos; lia. }
    rewrite IH by exact H2. rewrite IH by exact Hm.
    rewrite !Z.div_div by lia.
    f_equal. replace (Z.pos p~0) with (Z.pos p + Z.pos p) by lia.
    rewrite !Z.pow_add_r by lia. ring.
  - cbn [iter_pos]. rewrite shr_1_m by exact Hm. reflexivity.
Qed.

Lemma shr_spec (mrs : shr_record) (e n : Z) :
  0 <= shr_m mrs ->
  shr_m (fst (shr mrs e n)) = shr_m mrs / 2 ^ Z.max 0 n
  /\ snd (shr mrs e n) = e + Z.max 0 n.
Proof.
  intros Hm. unfold shr. destruct n as [| p | p]; simpl fst; simpl snd.
  - simpl. rewrite Z.div_1_r. lia.
  - rewrite iter_shr_m by exact Hm. split; [f_equal | lia].
  - simpl. rewrite Z.div_1_r. lia.
Qed.

Lemma fexp_eq (e : Z) : B64.fexp e = Z.max (e - 53) (-1074).
Proof. reflexivity. Qed.

Lemma fexp_mono (a b : Z) : a <= b -> B64.fexp a <= B64.fexp b.
Proof. rewrite !fexp_eq. lia. Qed.

Lemma shr_record_of_loc_m (m : Z) (l : location) :
  shr_m (shr_record_of_loc m l) = m.
Proof. destruct l as [| []]; reflexivity. Qed.

(** [shr_fexp] on a positive mantissa: the exponent rises to [B64.fexp], the
    mantissa loses as many bits. *)
Lemma shr_fexp_spec (m e : Z) (l : location) :
  0 < m ->
  let r := shr_fexp B64.prec B64.emax m e l in
  snd r = Z.max e (B64.fexp (B64.digits m + e))
  /\ shr_m (fst r) = m / 2 ^ (snd r - e).
Proof.
  intros Hm r. unfold r, shr_fexp.
  destruct m as [| p | p]; try lia.
  rewrite Zdigits2_digits.
  destruct (shr_spec (shr_record_of_loc (Z.pos p) l) e
              (B64.fexp (B64.digits (Z.pos p) + e) - e)) as [H1 H2].
  { rewrite shr_record_of_loc_m. lia. }
  rewrite shr_record_of_loc_m in H1.
  fold (B64.fexp (B64.digits (Z.pos p) + e)) in *. rewrite H2, H1. split; [lia |]. f_equal. f_equal. lia.
Qed.

Lemma shr_fexp_zero (e : Z) (l : location) :
  shr_m (fst (shr_fexp B64.prec B64.emax 0 e l)) = 0.
Proof.
  unfold shr_fexp.
  destruct (shr_spec (shr_record_of_loc 0 l) e
              (SpecFloat.fexp B64.prec B64.emax (Zdigits2 0 + e) - e)) as [H1 _].
  { rewrite shr_record_of_loc_m. lia. }
  rewrite H1, shr_record_of_loc_m. apply Z.div_0_l.
  apply Z.pow_nonzero; lia.
Qed.

Lemma round_nearest_even_range (m : Z) (l : location) :
  m <= round_nearest_even m l <= m + 1.
Proof.
  unfold round_nearest_even. destruct l as [| []]; try lia.
  destruct (Z.even m); lia.
Qed.

(** **** Rounding *)

(** The result of [binary_round_aux] on a positive mantissa, step by step:
    [m1] after the first shift, [m2] after rounding to nearest even, and the
    second shift. *)
Lemma binary_round_aux_cases (s : bool) (m e : Z) (l : location) :
  0 < m ->
  let e1 := Z.max e (B64.fexp (B64.digits m + e)) in
  let m1 := m / 2 ^ (e1 - e) in
  exists m2,
    m1 <= m2 <= m1 + 1
    /\ ((m2 = 0
         /\ binary_round_aux B64.prec B64.emax s m e l = S754_zero s)
        \/ (0 < m2
            /\ let e2 := Z.max e1 (B64.fexp (B64.digits m2 + e1)) in
               let m3 := m2 / 2 ^ (e2 - e1) in
               (m3 = 0
                /\ binary_round_aux B64.prec B64.emax s m e l = S754_zero s)
               \/ (0 < m3
                   /\ binary_round_aux B64.prec B64.emax s m e l
                      = if e2 <=? 971 then S754_finite s (Z.to_pos m3) e2
                        else S754_infinity s))).
Proof.
  intros Hm e1 m1. unfold binary_round_aux.
  pose proof (shr_fexp_spec m e l Hm) as H1. cbv zeta in H1.
  destruct (shr_fexp B64.prec B64.emax m e l) as [mrs' e'] eqn:E1.
  cbn [fst snd] in H1. destruct H1 as [He' Hm1].
  fold e1 in He'. subst e'. fold m1 in Hm1.
  set (m2 := round_nearest_even (shr_m mrs') (loc_of_shr_record mrs')).
  pose proof (round_nearest_even_range (shr_m mrs') (loc_of_shr_record mrs'))
    as Hr. fold m2 in Hr. rewrite Hm1 in Hr.
  assert (Hm1pos : 0 <= m1) by (apply Z.div_pos; [lia | apply Z.pow_pos_nonneg; lia]).
  exists m2. split; [exact Hr |].
  destruct (Z.eq_dec m2 0) as [E0 | N0].
  - left. split; [exact E0 |]. rewrite E0.
    pose proof (shr_fexp_zero e1 loc_Exact) as Hz.
    destruct (shr_fexp B64.prec B64.emax 0 e1 loc_Exact) as [mrs'' e''].
    cbn [fst] in Hz. rewrite Hz. reflexivity.
  - right. assert (Hm2 : 0 < m2) by lia. split; [exact Hm2 |].
    pose proof (shr_fexp_spec m2 e1 loc_Exact Hm2) as H2. cbv zeta in H2.
    destruct (shr_fexp B64.prec B64.emax m2 e1 loc_Exact) as [mrs'' e''].
    cbn [fst snd] in H2. destruct H2 as [He'' Hm3].
    cbv zeta. rewrite <- He'', <- Hm3.
    assert (Hm3pos : 0 <= shr_m mrs'').
    { rewrite Hm3. apply Z.div_pos; [lia | apply Z.pow_pos_nonneg; lia]. }
    destruct (shr_m mrs'') as [| p | p] eqn:E3; try lia.
    + left. split; reflexivity.
    + right. split; [lia |]. reflexivity.
Qed.

(** The same, for a mantissa that is not shifted left of its place
    ([e <= B64.fexp (B64.digits m + e)]) and a magnitude above the smallest exponent:
    the result is a canonical double [m3 * 2^e2] of the sign [s], of the
    magnitude of the argument or one above, or an infinity. *)
Lemma binary_round_aux_shape (s : bool) (m e : Z) (l : location) :
  0 < m ->
  e <= B64.fexp (B64.digits m + e) ->
  -1074 < B64.digits m + e ->
  let F := B64.fexp (B64.digits m + e) in
  let m1 := m / 2 ^ (F - e) in
  exists m2 e2 m3,
    m1 <= m2 <= m1 + 1 /\ 0 < m1 /\ F <= e2 /\ (e2 = F -> m3 = m2)
    /\ 0 < m3 /\ B64.fexp (B64.digits m3 + e2) = e2
    /\ B64.digits m + e <= B64.digits m3 + e2 <= B64.digits m + e + 1
    /\ binary_round_aux B64.prec B64.emax s m e l
       = if e2 <=? 971 then S754_finite s (Z.to_pos m3) e2
         else S754_infinity s.
Proof.
  intros Hm HIC Hmin F m1.
  destruct (binary_round_aux_cases s m e l Hm) as (m2 & Hm2 & Hcases).
  fold F in Hm2, Hcases.
  replace (Z.max e F) with F in Hm2, Hcases by lia.
  fold m1 in Hm2, Hcases.
  assert (HFlt : F < B64.digits m + e) by (unfold F; rewrite fexp_eq; lia).
  assert (Hm1 : 0 < m1) by (apply div_pow2_pos; lia).
  assert (Hd1 : B64.digits m1 + F = B64.digits m + e).
  { unfold m1. rewrite digits_div_pow2 by lia. lia. }
  destruct Hcases as [[E0 _] | [Hm2pos Hcases]]; [lia |].
  cbv zeta in Hcases.
  set (d2 := B64.digits m2) in *.
  assert (Hd2 : B64.digits m1 <= d2 <= B64.digits m1 + 1).
  { unfold d2. destruct (Z.eq_dec m2 m1) as [-> | Hn]; [lia |].
    replace m2 with (m1 + 1) by lia. apply digits_succ. exact Hm1. }
  assert (He2 : Z.max F (B64.fexp (d2 + F)) = B64.fexp (d2 + F)).
  { assert (B64.fexp (B64.digits m + e) <= B64.fexp (d2 + F)) by (apply fexp_mono; lia).
    fold F in H. lia. }
  rewrite He2 in Hcases.
  set (e2 := B64.fexp (d2 + F)) in *.
  assert (Hshift : 0 <= e2 - F < d2).
  { unfold e2. rewrite fexp_eq. unfold F in *. rewrite fexp_eq in *.
    pose proof (digits_pos m1 Hm1). lia. }
  set (m3 := m2 / 2 ^ (e2 - F)) in *.
  assert (Hm3 : 0 < m3) by (apply div_pow2_pos; [lia | exact Hshift]).
  assert (Hd3 : B64.digits m3 + e2 = d2 + F).
  { unfold m3. rewrite digits_div_pow2 by lia. fold d2. lia. }
  destruct Hcases as [[E0 _] | [_ Hres]]; [lia |].
  exists m2, e2, m3.
  split; [exact Hm2 |]. split; [exact Hm1 |]. split; [lia |].
  split; [intros E; unfold m3; replace (e2 - F) with 0 by lia;
          apply Z.div_1_r |].
  split; [exact Hm3 |]. split; [rewrite Hd3; reflexivity |].
  split; [lia | exact Hres].
Qed.

(** **** Addition of times *)

Lemma canonical_spec (m : positive) (e : Z) :
  canonical_mantissa B64.prec B64.emax m e = true
  <-> B64.fexp (B64.digits (Zpos m) + e) = e.
Proof.
  unfold canonical_mantissa. rewrite Z.eqb_eq.
  change (Z.pos (digits2_pos m)) with (Zdigits2 (Z.pos m)).
  rewrite Zdigits2_digits. reflexivity.
Qed.

Lemma iter_xO_pow2 (m d : positive) :
  Zpos (Pos.iter xO m d) = Zpos m * 2 ^ Zpos d.
Proof.
  induction d as [| d IH] using Pos.peano_ind.
  - simpl. lia.
  - rewrite Pos.iter_succ, Pos2Z.inj_xO, IH, Pos2Z.inj_succ, Z.pow_succ_r by lia.
    ring.
Qed.

Lemma shl_align_spec (m : positive) (e e' : Z) :
  snd (shl_align m e e') = Z.min e e'
  /\ Zpos (fst (shl_align m e e')) = Zpos m * 2 ^ (e - Z.min e e').
Proof.
  unfold shl_align. destruct (e' - e) as [| d | d] eqn:E; cbn [fst snd].
  - replace (e - Z.min e e') with 0 by lia. rewrite Z.mul_1_r. lia.
  - replace (e - Z.min e e') with 0 by lia. rewrite Z.mul_1_r. lia.
  - rewrite iter_xO_pow2. split; [lia |]. f_equal. f_equal. lia.
Qed.

Lemma b64_leb_finite (m1 m2 : positive) (e1 e2 : Z) :
  SFleb (S754_finite false m1 e1) (S754_finite false m2 e2) = true
  <-> e1 < e2 \/ (e1 = e2 /\ (m1 <= m2)%positive).
Proof.
  unfold SFleb, SFcompare. rewrite Pos.compare_cont_spec. cbn [Pos.switch_Eq].
  destruct (Z.compare_spec e1 e2) as [He | He | He].
  - destruct (Pos.compare_spec m1 m2) as [Hm | Hm | Hm]; split; intros H;
      try discriminate; try reflexivity; try (right; split; [lia | lia]).
    destruct H as [H | [_ H]]; lia.
  - split; intros H; [left; lia | reflexivity].
  - split; intros H; [discriminate | lia].
Qed.

(** [binary_round]: the mantissa is first shifted left to its place. *)
Lemma binary_round_shape (M : positive) (ez : Z) :
  -1074 < B64.digits (Zpos M) + ez ->
  let D := B64.digits (Zpos M) + ez in
  let F := B64.fexp D in
  let m1 := Zpos M * 2 ^ (ez - Z.min ez F) / 2 ^ (F - Z.min ez F) in
  exists m2 e2 m3,
    m1 <= m2 <= m1 + 1 /\ 0 < m1 /\ F <= e2 /\ (e2 = F -> m3 = m2)
    /\ 0 < m3 /\ B64.fexp (B64.digits m3 + e2) = e2
    /\ D <= B64.digits m3 + e2 <= D + 1
    /\ binary_round B64.prec B64.emax false M ez
       = if e2 <=? 971 then S754_finite false (Z.to_pos m3) e2
         else S754_infinity false.
Proof.
  intros Hmin D F m1. unfold binary_round.
  change (Z.pos (digits2_pos M)) with (Zdigits2 (Z.pos M)).
  rewrite Zdigits2_digits. fold D.
  change (SpecFloat.fexp B64.prec B64.emax D) with (B64.fexp D). fold F.
  destruct (shl_align_spec M ez F) as [Hs Hz].
  destruct (shl_align M ez F) as [mz ez2]. cbn [fst snd] in Hs, Hz. subst ez2.
  assert (Hdz : B64.digits (Zpos mz) + Z.min ez F = D).
  { rewrite Hz, digits_mul_pow2 by lia. unfold D. lia. }
  destruct (binary_round_aux_shape false (Zpos mz) (Z.min ez F) loc_Exact)
    as (m2 & e2 & m3 & Hm2 & Hm1 & HF & Heq & Hm3 & Hc & Hd & Hres);
    try rewrite Hdz; try (fold F; lia); try lia.
  rewrite Hdz in Hm2, Hm1, HF, Heq, Hd. fold F in Hm2, Hm1, HF, Heq.
  rewrite Hz in Hm2, Hm1. fold m1 in Hm2, Hm1.
  exists m2, e2, m3. repeat split; try assumption; apply Hm2 || apply Hd.
Qed.

(** Rounding a sum that is at least the canonical [mx * 2^ex]. *)
Lemma binary_round_ge (M mx : positive) (ez ex : Z) :
  B64.fexp (B64.digits (Zpos mx) + ex) = ex ->
  ez <= ex ->
  Zpos mx * 2 ^ (ex - ez) <= Zpos M ->
  let r := binary_round B64.prec B64.emax false M ez in
  B64.nonneg r = true /\ B64.canonical r = true
  /\ SFleb (S754_finite false mx ex) r = true.
Proof.
  intros Hcan Hez Hle r. unfold r.
  set (D := B64.digits (Zpos M) + ez). set (F := B64.fexp D).
  assert (Hdx : B64.digits (Zpos mx) + ex <= D).
  { unfold D.
    assert (B64.digits (Zpos mx * 2 ^ (ex - ez)) <= B64.digits (Zpos M)).
    { apply digits_le; [| exact Hle].
      apply Z.mul_pos_pos; [lia | apply Z.pow_pos_nonneg; lia]. }
    rewrite digits_mul_pow2 in H by lia. lia. }
  assert (HexF : ex <= F).
  { rewrite <- Hcan. apply fexp_mono. exact Hdx. }
  assert (Hemin : -1074 <= ex) by (rewrite <- Hcan, fexp_eq; lia).
  pose proof (digits_pos (Zpos mx) ltac:(lia)) as Hdpos.
  destruct (binary_round_shape M ez ltac:(fold D; lia))
    as (m2 & e2 & m3 & Hm2 & Hm1 & HFe2 & Heq & Hm3 & Hc & _ & Hres).
  fold D in Hm2, Hm1, HFe2, Heq, Hres. fold F in Hm2, Hm1, HFe2, Heq, Hres.
  rewrite Hres.
  destruct (e2 <=? 971); [| repeat split; reflexivity].
  split; [reflexivity |]. split.
  - cbn [B64.canonical]. apply canonical_spec.
    rewrite Z2Pos.id by lia. exact Hc.
  - apply b64_leb_finite.
    destruct (Z.eq_dec ex e2) as [Heq2 | Hne]; [right | left; lia].
    split; [exact Heq2 |].
    assert (HF : F = ex) by lia.
    rewrite (Heq ltac:(lia)) in *.
    assert (Hmx : Zpos mx <= Zpos M * 2 ^ (ez - Z.min ez F)
                               / 2 ^ (F - Z.min ez F)).
    { apply Z.div_le_lower_bound; [apply Z.pow_pos_nonneg; lia |].
      rewrite HF.
      replace (ex - Z.min ez ex) with ((ex - ez) + (ez - Z.min ez ex)) by lia.
      rewrite Z.pow_add_r by lia.
      assert (0 < 2 ^ (ez - Z.min ez ex)) by (apply Z.pow_pos_nonneg; lia).
      nia. }
    pose proof (Z2Pos.id m2 ltac:(lia)) as Hid. lia.
Qed.

Lemma b64_leb_refl (x : spec_float) : b64_time_ok x -> SFleb x x = true.
Proof.
  intros [Hn _]. destruct x as [[|] | [|] | | [|] m e]; try discriminate;
    try reflexivity.
  apply b64_leb_finite. right. split; [reflexivity | lia].
Qed.

Lemma b64_leb_trans (x y z : spec_float) :
  b64_time_ok x -> b64_time_ok y -> b64_time_ok z ->
  SFleb x y = true -> SFleb y z = true -> SFleb x z = true.
Proof.
  intros [Hx _] [Hy _] [Hz _].
  destruct x as [sx | [|] | | [|] mx ex]; try discriminate;
    destruct y as [sy | [|] | | [|] my ey]; try discriminate;
    destruct z as [sz | [|] | | [|] mz ez]; try discriminate;
    try reflexivity; try (intros; discriminate); try (intros; assumption).
  intros H1 H2. apply b64_leb_finite in H1, H2. apply b64_leb_finite. lia.
Qed.

Lemma b64_add_increasing (x d : spec_float) :
  b64_time_ok x -> b64_time_ok d ->
  b64_time_ok (SFadd B64.prec B64.emax x d)
  /\ SFleb x (SFadd B64.prec B64.emax x d) = true.
Proof.
  intros Hx Hd. pose proof (b64_leb_refl x Hx) as Hrefl.
  destruct Hx as [Hxn Hxc], Hd as [Hdn Hdc].
  destruct x as [sx | [|] | | [|] mx ex]; try discriminate;
    destruct d as [sd | [|] | | [|] md ed]; try discriminate;
    try (split; [split; reflexivity | reflexivity]);
    try (split; [split; assumption | reflexivity]);
    try (split; [split; assumption | assumption]).
  - (* zero + zero *)
    destruct sx, sd; split; try split; reflexivity.
  - (* finite + finite *)
    cbn [SFadd cond_Zopp].
    set (ez := Z.min ex ed).
    destruct (shl_align_spec mx ex ez) as [_ Hx'].
    destruct (shl_align_spec md ed ez) as [_ Hd'].
    replace (Z.min ex ez) with ez in Hx' by (unfold ez; lia).
    change (Z.pos (fst (shl_align mx ex ez)) + Z.pos (fst (shl_align md ed ez)))
      with (Z.pos (fst (shl_align mx ex ez) + fst (shl_align md ed ez))).
    cbn [binary_normalize].
    apply canonical_spec in Hxc.
    destruct (binary_round_ge
                (fst (shl_align mx ex ez) + fst (shl_align md ed ez))%positive
                mx ez ex Hxc ltac:(unfold ez; lia))
      as (H1 & H2 & H3).
    { rewrite Pos2Z.inj_add, Hx'. lia. }
    split; [split |]; assumption.
Qed.

(** **** Conversion of ticks *)

Lemma digits_spec (m : Z) : 0 < m -> 2 ^ (B64.digits m - 1) <= m < 2 ^ B64.digits m.
Proof.
  intros Hm. unfold B64.digits. destruct (Z.log2_spec m Hm) as [H1 H2].
  replace (Z.log2 m + 1 - 1) with (Z.log2 m) by lia.
  replace (Z.log2 m + 1) with (Z.succ (Z.log2 m)) by lia. lia.
Qed.

Lemma digits_ge (m k : Z) : 0 < m -> 2 ^ k <= m -> k + 1 <= B64.digits m.
Proof.
  intros Hm H. unfold B64.digits.
  destruct (Z_lt_le_dec k 0) as [Hk | Hk].
  - pose proof (Z.log2_nonneg m). lia.
  - apply Z.log2_le_pow2 in H; lia.
Qed.

Lemma digits_le_pow2 (m k : Z) : 0 < m -> m < 2 ^ k -> B64.digits m <= k.
Proof.
  intros Hm H. unfold B64.digits.
  assert (0 <= k).
  { destruct (Z_lt_le_dec k 0) as [Hk | Hk]; [| exact Hk].
    rewrite Z.pow_neg_r in H by exact Hk. lia. }
  apply Z.log2_lt_pow2 in H; lia.
Qed.

Lemma digits_mul (a b : Z) :
  0 < a -> 0 < b -> B64.digits a + B64.digits b - 1 <= B64.digits (a * b) <= B64.digits a + B64.digits b.
Proof.
  intros Ha Hb. unfold B64.digits.
  pose proof (Z.log2_mul_below a b Ha Hb).
  pose proof (Z.log2_mul_above a b ltac:(lia) ltac:(lia)). lia.
Qed.

Lemma digits_div (a b : Z) :
  0 < a -> 0 < b -> B64.digits b < B64.digits a ->
  0 < a / b
  /\ B64.digits a - B64.digits b <= B64.digits (a / b) <= B64.digits a - B64.digits b + 1.
Proof.
  intros Ha Hb Hd.
  destruct (digits_spec a Ha) as [Ha1 Ha2].
  destruct (digits_spec b Hb) as [Hb1 Hb2].
  pose proof (digits_pos b Hb) as Hdb.
  set (k := B64.digits a - 1 - B64.digits b).
  assert (Hk : 0 <= k) by (unfold k; lia).
  assert (Hlow : 2 ^ k <= a / b).
  { apply Z.div_le_lower_bound; [lia |].
    apply Z.le_trans with (2 ^ B64.digits b * 2 ^ k).
    - apply Z.mul_le_mono_nonneg_r; [apply Z.pow_nonneg; lia | lia].
    - rewrite <- Z.pow_add_r by lia.
      replace (B64.digits b + k) with (B64.digits a - 1) by (unfold k; lia). lia. }
  assert (Hq : 0 < a / b).
  { assert (0 < 2 ^ k) by (apply Z.pow_pos_nonneg; lia). lia. }
  split; [exact Hq |]. split.
  - pose proof (digits_ge (a / b) k Hq Hlow). unfold k in *. lia.
  - apply digits_le_pow2; [exact Hq |].
    apply Z.div_lt_upper_bound; [lia |].
    apply Z.lt_le_trans with (2 ^ B64.digits a); [lia |].
    replace (B64.digits a) with ((B64.digits b - 1) + (B64.digits a - B64.digits b + 1)) at 1
      by lia.
    rewrite Z.pow_add_r by lia.
    apply Z.mul_le_mono_nonneg_r; [apply Z.pow_nonneg; lia | lia].
Qed.

(** The double of a positive integer. *)
Lemma b64_of_int_pos (n : Z) :
  0 < n -> B64.digits n <= 1000 ->
  b64_finite (B64.digits n) (B64.digits n + 1)
    (binary_normalize B64.prec B64.emax n 0 false).
Proof.
  intros Hn Hd. destruct n as [| p | p]; try lia.
  cbn [binary_normalize].
  pose proof (digits_pos (Zpos p) Hn) as Hp.
  destruct (binary_round_shape p 0 ltac:(lia))
    as (m2 & e2 & m3 & _ & _ & _ & _ & Hm3 & Hc & Hmag & Hres).
  rewrite Z.add_0_r in Hmag.
  assert (He2 : e2 <= 971) by (rewrite <- Hc, fexp_eq; lia).
  apply Z.leb_le in He2. rewrite He2 in Hres.
  exists (Z.to_pos m3), e2. rewrite Z2Pos.id by lia.
  split; [exact Hres |]. split; [exact Hc | exact Hmag].
Qed.

(** The quotient of two positive finite canonical doubles, the magnitudes
    of which differ by less than a thousand. *)
Lemma b64_div_finite (x y : spec_float) (lx hx ly hy : Z) :
  b64_finite lx hx x -> b64_finite ly hy y ->
  -1000 <= lx - hy -> hx - ly <= 1000 ->
  b64_finite (lx - hy) (hx - ly + 2) (SFdiv B64.prec B64.emax x y).
Proof.
  intros (mx & ex & -> & Hcx & Hmx) (my & ey & -> & Hcy & Hmy) Hlo Hhi.
  cbn [SFdiv xorb]. unfold SFdiv_core_binary.
  rewrite !Zdigits2_digits.
  set (dx := B64.digits (Zpos mx)) in *. set (dy := B64.digits (Zpos my)) in *.
  change (SpecFloat.fexp B64.prec B64.emax (dx + ex - (dy + ey)))
    with (B64.fexp (dx + ex - (dy + ey))).
  set (Dq := dx + ex - (dy + ey)).
  set (e' := Z.min (B64.fexp Dq) (ex - ey)).
  set (s := ex - ey - e').
  assert (Hs : 0 <= s) by (unfold s, e'; lia).
  set (m' := match s with
             | 0 => Z.pos mx
             | Z.pos _ => Z.shiftl (Z.pos mx) s
             | Z.neg _ => 0
             end).
  assert (Hm' : m' = Zpos mx * 2 ^ s).
  { unfold m'. destruct s as [| p | p] eqn:Es; try lia.
    apply Z.shiftl_mul_pow2. lia. }
  assert (Hdm : B64.digits m' = dx + s).
  { rewrite Hm'. apply digits_mul_pow2; lia. }
  assert (Hm'pos : 0 < m').
  { rewrite Hm'. apply Z.mul_pos_pos; [lia | apply Z.pow_pos_nonneg; lia]. }
  assert (HDq : -1000 <= Dq <= 1000) by (unfold Dq; lia).
  assert (Hfe : B64.fexp Dq = Dq - 53) by (rewrite fexp_eq; lia).
  assert (Hdd : dy < B64.digits m').
  { rewrite Hdm. unfold s, e'. rewrite Hfe. unfold Dq. lia. }
  destruct (digits_div m' (Zpos my) Hm'pos ltac:(lia) Hdd) as (Hq & Hdq).
  fold dy in Hdq. rewrite Hdm in Hdq.
  assert (Eq : Z.div_eucl m' (Z.pos my) = (m' / Z.pos my, m' mod Z.pos my)).
  { unfold Z.div, Z.modulo. destruct (Z.div_eucl m' (Z.pos my)). reflexivity. }
  rewrite Eq.
  set (q := m' / Z.pos my) in *.
  assert (Hmagq : Dq <= B64.digits q + e' <= Dq + 1) by (unfold s, Dq in *; lia).
  destruct (binary_round_aux_shape false q e'
              (new_location (Z.pos my) (m' mod Z.pos my)) Hq)
    as (m2 & e2 & m3 & _ & _ & _ & _ & Hm3 & Hc & Hmag & Hres).
  { apply Z.le_trans with (B64.fexp Dq); [unfold e'; lia |].
    apply fexp_mono. lia. }
  { lia. }
  assert (He2 : e2 <= 971) by (rewrite <- Hc, fexp_eq; lia).
  apply Z.leb_le in He2. rewrite He2 in Hres.
  exists (Z.to_pos m3), e2. rewrite Z2Pos.id by lia.
  split; [exact Hres |]. split; [exact Hc |]. unfold Dq in *. lia.
Qed.

(** The product of two positive finite canonical doubles of magnitudes
    within a thousand of 1. *)
Lemma b64_mul_finite (x y : spec_float) (lx hx ly hy : Z) :
  b64_finite lx hx x -> b64_finite ly hy y ->
  -500 <= lx -> hx <= 500 -> -500 <= ly -> hy <= 500 ->
  b64_finite (lx + ly - 1) (hx + hy + 1) (SFmul B64.prec B64.emax x y).
Proof.
  intros (mx & ex & -> & Hcx & Hmx) (my & ey & -> & Hcy & Hmy) H1 H2 H3 H4.
  cbn [SFmul xorb].
  rewrite fexp_eq in Hcx, Hcy.
  change (Z.pos (mx * my)) with (Z.pos mx * Z.pos my).
  pose proof (digits_mul (Zpos mx) (Zpos my) ltac:(lia) ltac:(lia)) as Hd.
  destruct (binary_round_aux_shape false (Z.pos mx * Z.pos my) (ex + ey)
              loc_Exact ltac:(lia))
    as (m2 & e2 & m3 & _ & _ & _ & _ & Hm3 & Hc & Hmag & Hres).
  { rewrite fexp_eq. lia. }
  { lia. }
  assert (He2 : e2 <= 971) by (rewrite <- Hc, fexp_eq; lia).
  apply Z.leb_le in He2. rewrite He2 in Hres.
  exists (Z.to_pos m3), e2. rewrite Z2Pos.id by lia.
  split; [exact Hres |]. split; [exact Hc |]. lia.
Qed.

Lemma b64_time_laws : TimeLaws binary64 b64_time_ok.
Proof.
  constructor.
  - split; reflexivity.
  - exact b64_leb_refl.
  - exact b64_leb_trans.
  - exact b64_add_increasing.
Qed.

Lemma b64_finite_time_ok (lo hi : Z) (x : spec_float) :
  b64_finite lo hi x -> b64_time_ok x.
Proof.
  intros (m & e & -> & Hc & _). split; [reflexivity |].
  apply canonical_spec. exact Hc.
Qed.

Lemma b64_finite_nonzero (lo hi : Z) (x : spec_float) :
  b64_finite lo hi x -> @eqb binary64 x (of_int 0) = false.
Proof. intros (m & e & -> & _). reflexivity. Qed.

Lemma digits_below (n k : Z) :
  0 < n < 2 ^ k -> 1 <= B64.digits n <= k.
Proof.
  intros [Hn Hk]. split; [pose proof (digits_pos n Hn); lia |].
  apply digits_le_pow2; assumption.
Qed.

(** The double of a positive integer is not zero. *)
Lemma b64_of_int_nonzero (n : Z) :
  0 < n -> @eqb binary64 (of_int n) (of_int 0) = false.
Proof.
  intros Hn. destruct n as [| p | p]; try lia.
  change (@of_int binary64 (Z.pos p))
    with (binary_round B64.prec B64.emax false p 0).
  pose proof (digits_pos (Zpos p) Hn) as Hp.
  destruct (binary_round_shape p 0 ltac:(lia))
    as (m2 & e2 & m3 & _ & _ & _ & _ & _ & _ & _ & Hres).
  rewrite Hres. destruct (e2 <=? 971); reflexivity.
Qed.

(** In double precision the conversion of section 4.1 returns a time, for
    the deltas, tempos and resolutions of a MIDI file. *)
Lemma b64_tick2second_ok (tick tpb tempo : Z) :
  0 <= tick < 2 ^ 28 -> 0 <= tempo < 2 ^ 24 -> 0 < tpb < 2 ^ 16 ->
  exists d, @tick2second binary64 tick tpb tempo = Ok d /\ b64_time_ok d.
Proof.
  intros Htick Htempo Htpb.
  assert (Hc6 : b64_finite 20 21 (@of_int binary64 1000000)).
  { apply (b64_of_int_pos 1000000); [lia | vm_compute; discriminate]. }
  assert (Hctpb : b64_finite 1 17 (@of_int binary64 tpb)).
  { destruct (digits_below tpb 16 ltac:(lia)) as [H1 H2].
    destruct (b64_of_int_pos tpb ltac:(lia) ltac:(lia)) as (m & e & E & Hc & Hm).
    exists m, e. split; [exact E |]. split; [exact Hc | lia]. }
  assert (Ht : @of_int binary64 tick = S754_zero false
               \/ b64_finite 1 29 (@of_int binary64 tick)).
  { destruct (Z.eq_dec tick 0) as [-> | Hne]; [left; reflexivity | right].
    destruct (digits_below tick 28 ltac:(lia)) as [H1 H2].
    destruct (b64_of_int_pos tick ltac:(lia) ltac:(lia)) as (m & e & E & Hc & Hm).
    exists m, e. split; [exact E |]. split; [exact Hc | lia]. }
  assert (Hscale : @div binary64 (of_int tempo) (of_int 1000000)
                   = S754_zero false
                   \/ b64_finite (-20) 7
                        (@div binary64 (of_int tempo) (of_int 1000000))).
  { destruct (Z.eq_dec tempo 0) as [-> | Hne].
    - left. destruct Hc6 as (m6 & e6 & E6 & _).
      change (@div binary64) with (SFdiv B64.prec B64.emax).
      rewrite E6. reflexivity.
    - right. destruct (digits_below tempo 24 ltac:(lia)) as [H1 H2].
      destruct (b64_of_int_pos tempo ltac:(lia) ltac:(lia))
        as (m & e & E & Hc & Hm).
      assert (Ha : b64_finite 1 25 (@of_int binary64 tempo)).
      { exists m, e. split; [exact E |]. split; [exact Hc | lia]. }
      exact (b64_div_finite _ _ 1 25 20 21 Ha Hc6 ltac:(lia) ltac:(lia)). }
  unfold tick2second, py_truediv.
  rewrite (b64_finite_nonzero _ _ _ Hc6). cbn [bind].
  rewrite (b64_finite_nonzero _ _ _ Hctpb).
  eexists. split; [reflexivity |].
  set (scale := @div binary64 (of_int tempo) (of_int 1000000)) in *.
  assert (Hp : @mul binary64 (of_int tick) scale = S754_zero false
               \/ b64_finite (-20) 37 (@mul binary64 (of_int tick) scale)).
  { change (@mul binary64) with (SFmul B64.prec B64.emax).
    destruct Ht as [-> | Ht].
    - left. destruct Hscale as [-> | (ms & es & -> & _)]; reflexivity.
    - destruct Hscale as [-> | Hscale].
      + left. destruct Ht as (m & e & -> & _). reflexivity.
      + right.
        exact (b64_mul_finite _ _ 1 29 (-20) 7 Ht Hscale
                 ltac:(lia) ltac:(lia) ltac:(lia) ltac:(lia)). }
  change (@div binary64) with (SFdiv B64.prec B64.emax).
  destruct Hp as [-> | Hp].
  - destruct Hctpb as (mt & et & -> & _). split; reflexivity.
  - apply (b64_finite_time_ok (-20 - 17) (37 - 1 + 2)).
    exact (b64_div_finite _ _ _ _ 1 17 Hp Hctpb ltac:(lia) ltac:(lia)).
Qed.

Lemma b64_conversions_ok (tpb : Z) (msgs : list Message) :
  0 < tpb < 2 ^ 16 ->
  (forall m, In m msgs -> 0 <= msg_time m < 2 ^ 28) ->
  (forall tempo, In tempo (tempos_of msgs) -> 0 <= tempo < 2 ^ 24) ->
  conversions_ok (A := binary64) b64_time_ok tick2second tpb msgs.
Proof.
  intros Htpb Hticks Htempos m tempo Hm Ht.
  apply b64_tick2second_ok; auto.
Qed.

(** ** Instances of the extractor's properties *)

Lemma extracted_spans_well_formed_witness :
  conversions_ok (A := binary64) b64_time_ok tick2second 480 tempo_stream
  /\ Forall wf_message tempo_stream
  /\ exists out,
       extract_spans (A := binary64) tick2second 480 tempo_stream = Ok out
       /\ Forall span_ok out.
Proof.
  assert (H1 : conversions_ok (A := binary64) b64_time_ok tick2second 480
                 tempo_stream).
  { apply b64_conversions_ok; [lia | |].
    - intros m Hm. simpl in Hm.
      repeat (destruct Hm as [<- | Hm]; [simpl; lia |]). contradiction.
    - intros tempo Ht. simpl in Ht.
      repeat (destruct Ht as [<- | Ht]; [lia |]). contradiction. }
  assert (H2 : Forall wf_message tempo_stream)
    by (repeat constructor; simpl; lia).
  split; [exact H1 |]. split; [exact H2 |].
  exact (@extracted_spans_well_formed binary64 tick2second 480 b64_time_ok
           b64_time_laws tempo_stream H1 H2).
Defined.

(** C5, as stated, for every stream: the extractor hands ticks_per_beat to
    the conversion unchecked, and at the negative ticks_per_beat of a file
    in SMPTE time the clock runs backwards.  The note of [smpte_stream]
    starts at 0.0 and ends at -0.5. *)
Lemma smpte_span_ends_before_it_starts :
  Forall wf_message smpte_stream
  /\ exists s,
       extract_spans (A := binary64) tick2second (-6360) smpte_stream = Ok [s]
       /\ start s = of_int 0
       /\ end_ s = SFopp b64_half
       /\ leb (start s) (end_ s) = false
       /\ ~ span_ok s.
Proof.
  split.
  - repeat constructor; simpl; lia.
  - eexists. split; [vm_compute; reflexivity |].
    split; [reflexivity |]. split; [reflexivity |].
    split; [reflexivity |].
    intros [H _]. discriminate H.
Qed.

Lemma retrigger_overwrites_witness :
  exists st',
    step (A := binary64) tick2second 480 sounding_state (note_on 480 0 60 90)
    = Ok st'
    /\ spans st' = spans sounding_state
    /\ dict_lookup (active st') (0, 60)
       = Some (add (current_time sounding_state)
                   (S754_finite false 4503599627370496 (-53)), 90)
    /\ dict_keys (active st') = dict_keys (active sounding_state)
    /\ forall k, k <> (0, 60) ->
         dict_lookup (active st') k = dict_lookup (active sounding_state) k.
Proof.
  apply (@retrigger_overwrites binary64 tick2second 480 sounding_state
           480 0 60 90 (of_int 0, 100)
           (S754_finite false 4503599627370496 (-53))).
  - lia.
  - reflexivity.
  - vm_compute. reflexivity.
Defined.

Lemma b64_tick2second_total (tick tempo : Z) :
  exists d, @tick2second binary64 tick 480 tempo = Ok d.
Proof.
  unfold tick2second, py_truediv.
  assert (E1 : @eqb binary64 (of_int 1000000) (of_int 0) = false)
    by (vm_compute; reflexivity).
  assert (E2 : @eqb binary64 (of_int 480) (of_int 0) = false)
    by (vm_compute; reflexivity).
  rewrite E1. cbn [bind]. rewrite E2. eauto.
Qed.

Lemma hanging_notes_closed_once_witness :
  (forall tick tempo, exists d, @tick2second binary64 tick 480 tempo = Ok d)
  /\ exists st,
       run (A := binary64) tick2second 480 initial_state hanging_stream = Ok st
       /\ extract_spans (A := binary64) tick2second 480 hanging_stream
          = Ok (spans st ++ hanging st)
       /\ length (hanging st) = length (active st).
Proof.
  split; [exact b64_tick2second_total |].
  destruct (@hanging_notes_closed_once binary64 tick2second 480
              hanging_stream b64_tick2second_total)
    as (st & H1 & H2 & H3 & _).
  exists st. repeat split; assumption.
Defined.

(** ** Conversion of deltas to seconds *)





(** ** Strip builder *)

Lemma py_range_length (n : Z) : length (py_range n) = Z.to_nat n.
Proof. unfold py_range. rewrite length_map, length_seq. reflexivity. Qed.

Lemma py_range_nth (n : Z) (j : nat) :
  (j < Z.to_nat n)%nat -> nth_error (py_range n) j = Some (Z.of_nat j).
Proof.
  intros Hj. unfold py_range.
  rewrite nth_error_map, nth_error_seq.
  destruct (Nat.ltb_spec j (Z.to_nat n)); [reflexivity | lia].
Qed.

Section StripFacts.
Context {A : Arith}.
Variable all_spans : list (NoteSpan num).
Variable step : num.
Variable background : option pixel.

Lemma fold_add_color (l : list (NoteSpan num)) (r g b : Z) :
  fold_left add_color l (r, g, b)
  = (r + channel_sum red l, g + channel_sum green l, b + channel_sum blue l).
Proof.
  revert r g b. induction l as [| s l IH]; intros r g b.
  - unfold channel_sum. simpl. rewrite !Z.add_0_r. reflexivity.
  - cbn [fold_left].
    assert (E : add_color (r, g, b) s
                = (r + red (color_for_note (note s) (velocity s)),
                   g + green (color_for_note (note s) (velocity s)),
                   b + blue (color_for_note (note s) (velocity s)))).
    { unfold add_color.
      destruct (color_for_note (note s) (velocity s)) as [[cr cg] cb].
      reflexivity. }
    rewrite E, IH. unfold channel_sum. cbn [map fold_right].
    f_equal; [f_equal |]; lia.
Qed.

Lemma blend_is_mean (l : list (NoteSpan num)) : blend l = mean_color l.
Proof.
  unfold blend, mean_color. rewrite fold_add_color. reflexivity.
Qed.

Lemma sample_pixel_active (i : Z) (g : rng) :
  filter (is_active (sample_time step i)) all_spans <> [] ->
  sample_pixel all_spans step background i g
  = (mean_color (filter (is_active (sample_time step i)) all_spans), g).
Proof.
  intros Hne. unfold sample_pixel.
  destruct (filter (is_active (sample_time step i)) all_spans) eqn:E;
    [contradiction |].
  rewrite blend_is_mean. reflexivity.
Qed.

Lemma sample_pixel_filler (i : Z) (g : rng) (bg : pixel) :
  background = Some bg ->
  filter (is_active (sample_time step i)) all_spans = [] ->
  sample_pixel all_spans step background i g = (bg, g).
Proof.
  intros -> E. unfold sample_pixel. rewrite E. reflexivity.
Qed.

(** The loop appends one pixel per index, in order. *)
Lemma strip_loop_appends (indices : list Z) (strip : list pixel) (g : rng) :
  exists added,
    fst (strip_loop all_spans step background indices strip g) = strip ++ added
    /\ length added = length indices
    /\ forall j i,
         nth_error indices j = Some i ->
         filter (is_active (sample_time step i)) all_spans <> [] ->
         nth_error added j
         = Some (mean_color (filter (is_active (sample_time step i)) all_spans)).
Proof.
  revert strip g. induction indices as [| i0 indices IH]; intros strip g.
  - exists []. simpl. rewrite app_nil_r. split; [reflexivity |].
    split; [reflexivity |]. intros [| j] i H; discriminate.
  - unfold strip_loop. simpl.
    destruct (sample_pixel all_spans step background i0 g) as [p g1] eqn:Ep.
    destruct (IH (strip ++ [p]) g1) as (added & Hfst & Hlen & Hnth).
    exists (p :: added). unfold strip_loop in Hfst. rewrite Hfst.
    split; [rewrite <- app_assoc; reflexivity |].
    split; [simpl; congruence |].
    intros [| j] i Hi Hact; simpl in *.
    + inversion Hi; subst i0.
      rewrite sample_pixel_active in Ep by assumption.
      inversion Ep; reflexivity.
    + apply Hnth; assumption.
Qed.
End StripFacts.

(** C1, as stated: a strip builder that raises on an empty span list.  The
    code returns the empty strip. *)
Lemma empty_span_list_does_not_raise :
  fst (spans_to_color_strip (A := binary64) [] 50 None gen_zero) = Ok []
  /\ forall e,
       fst (spans_to_color_strip (A := binary64) [] 50 None gen_zero)
       <> Raise e.
Proof. split; [reflexivity | intros e; discriminate]. Qed.

(** C1 (amended): on an empty span list the strip builder returns the empty
    strip, without raising and without touching the generator; the empty strip
    is refused by the rectangle packer, which raises [ValueError] and leaves
    the store as it was, so that the pipeline run on a file without notes
    raises and no 0x0 image is produced. *)
Theorem empty_strip_is_refused_by_packer {A : Arith}
    (conv : Z -> Z -> Z -> result num) (zlib : list Z -> Z -> list Z)
    (pillow noise : bool) (strip : loc) (ratio : Z * Z) (w : world)
    (fs : string -> option MidiFile) (path : string)
    (pps : Z) (background : option pixel) :
  heap_get (heap w) strip = [] ->
  parse_midi_to_spans conv fs path = Ok [] ->
  spans_to_color_strip [] pps background (gen w) = (Ok [], gen w)
  /\ color_strip_to_rect_image pillow strip ratio noise w
     = (Raise (ValueError "Color strip is empty"), w)
  /\ fst (midi_to_image conv zlib pillow fs path pps w)
     = Raise (ValueError "Color strip is empty").
Proof.
  intros Hempty Hparse. split; [reflexivity |]. split.
  - unfold color_strip_to_rect_image. rewrite Hempty. reflexivity.
  - unfold midi_to_image. rewrite Hparse. simpl.
    unfold color_strip_to_rect_image. simpl.
    unfold heap_get. rewrite nth_middle. reflexivity.
Qed.

Lemma empty_strip_is_refused_by_packer_witness :
  fst (midi_to_image (A := binary64) tick2second stored false silent_fs
         "silent.mid" 50 {| heap := [[]]; gen := gen_zero |})
  = Raise (ValueError "Color strip is empty").
Proof.
  apply (@empty_strip_is_refused_by_packer binary64 tick2second stored
           false true 0%nat (4, 3) {| heap := [[]]; gen := gen_zero |}
           silent_fs "silent.mid" 50 None).
  - reflexivity.
  - vm_compute. reflexivity.
Defined.

(** ** Colour mapper *)

(** The mapped colour depends on the pitch class and on the velocity clamped
    to 0..127 only. *)
Lemma color_for_note_classes {A : Arith} (note_number velocity : Z) :
  color_for_note note_number velocity
  = color_for_note (note_number mod 12) (Z.max 0 (Z.min 127 velocity)).
Proof.
  unfold color_for_note, base_color, brightness.
  rewrite Z.mod_mod by lia.
  replace (Z.max 0 (Z.min 127 (Z.max 0 (Z.min 127 velocity))))
    with (Z.max 0 (Z.min 127 velocity)) by lia.
  reflexivity.
Qed.

(** In double precision no product of the colour mapper is an infinity or a
    NaN, for any of the 12 pitch classes and the 128 velocities. *)
Lemma b64_color_products_finite :
  forallb (fun pc => forallb (b64_scaled_finite pc) (py_range 128))
          (py_range 12) = true.
Proof. vm_compute. reflexivity. Qed.

(** *** Sampling *)

(** In exact arithmetic the sample time is the quotient i / pixels_per_second. *)
Lemma exact_sample_time (pps i : Z) :
  pps <> 0 ->
  @sample_time exact (@div exact (of_int 1) (of_int pps)) i
  = (IZR i / IZR pps)%R.
Proof.
  intros Hp. unfold sample_time. simpl.
  assert (IZR pps <> 0%R) by (intros H; apply eq_IZR_R0 in H; contradiction).
  field. assumption.
Qed.

Lemma b64_ltb_irrefl (x : spec_float) : SFltb x x = false.
Proof.
  unfold SFltb, SFcompare.
  destruct x as [[|] | [|] | | [|] m e]; try reflexivity;
    rewrite Z.compare_refl, Pos.compare_cont_refl; reflexivity.
Qed.

(** C3, as stated: with the sample time i / pixels_per_second, the first span
    is excluded at index 49 of a strip at 49 pixels per second, its end
    instant (49 / 49 = 1.0), and the pixel is the colour of the second span
    alone.  The code samples at 49 * (1.0 / 49) < 1.0 and blends both. *)
Lemma sample_time_is_not_the_quotient :
  let t := @div binary64 (of_int 49) (of_int 49) in
  filter (is_active t) overlap_spans <> []
  /\ mean_color (filter (is_active t) overlap_spans) = (40, 177, 98)
  /\ strip_pixel
       (fst (spans_to_color_strip overlap_spans 49 None gen_zero)) 49
     = Some (131, 181, 53).
Proof.
  split; [vm_compute; discriminate |]. split; vm_compute; reflexivity.
Qed.

(** C3 (amended): for every non-empty span list whose longest end, times
    pixels_per_second, has a ceiling n, and every non-zero pixels_per_second,
    the strip returned has length max(1, n), and for each index i, with the
    sample time t = i * (1.0 / pixels_per_second) as the floating-point
    product the code computes: if the set of spans with start <= t < end is
    not empty, pixel i is the per-channel sum of their mapped colours
    integer-divided by their number.  A span is not active at its own end
    instant, in double precision and in exact arithmetic. *)
Theorem strip_samples_active_spans {A : Arith}
    (first : NoteSpan num) (rest : list (NoteSpan num))
    (pps : Z) (background : option pixel) (g : rng) (n : Z) :
  math_ceil (mul (total_duration first rest) (of_int pps)) = Ok n ->
  eqb (of_int pps) (of_int 0) = false ->
  (exists strip g',
      spans_to_color_strip (first :: rest) pps background g = (Ok strip, g')
      /\ Z.of_nat (length strip) = Z.max 1 n
      /\ forall i, 0 <= i < Z.max 1 n ->
           let t := mul (of_int i) (div (of_int 1) (of_int pps)) in
           let active_spans :=
             filter (fun s => leb (start s) t && ltb t (end_ s)) (first :: rest)
           in
           active_spans <> [] ->
           nth_error strip (Z.to_nat i) = Some (mean_color active_spans))
  /\ (forall s : NoteSpan (@num binary64), is_active (end_ s) s = false)
  /\ (forall s : NoteSpan (@num exact), is_active (end_ s) s = false).
Proof.
  intros Hceil Hpps. split; [| split].
  - unfold spans_to_color_strip, strip_layout. rewrite Hceil.
    unfold py_truediv. rewrite Hpps. cbn [bind].
    set (total := Z.max 1 n).
    set (step := div (of_int 1) (of_int pps)).
    destruct (strip_loop_appends (first :: rest) step background
                (py_range total) [] g) as (added & Hfst & Hlen & Hnth).
    destruct (strip_loop (first :: rest) step background (py_range total) [] g)
      as [strip g'] eqn:Eloop.
    simpl in Hfst. subst strip.
    exists added, g'. split; [reflexivity |].
    rewrite py_range_length in Hlen.
    split; [rewrite Hlen; lia |].
    intros i Hi Hact.
    apply Hnth; [| exact Hact].
    rewrite py_range_nth by lia. f_equal. lia.
  - intros s. unfold is_active. simpl. rewrite b64_ltb_irrefl.
    apply andb_false_r.
  - intros s. unfold is_active.
    assert (H : @ltb exact (end_ s) (end_ s) = false)
      by (apply exact_ltb_false; lra).
    rewrite H. apply andb_false_r.
Qed.

Lemma strip_samples_active_spans_witness :
  exists strip g',
    spans_to_color_strip overlap_spans 49 None gen_zero = (Ok strip, g')
    /\ Z.of_nat (length strip) = Z.max 1 98
    /\ forall i, 0 <= i < Z.max 1 98 ->
         let t := @mul binary64 (of_int i) (div (of_int 1) (of_int 49)) in
         let active_spans :=
           filter (fun s => leb (start s) t && ltb t (end_ s)) overlap_spans
         in
         active_spans <> [] ->
         nth_error strip (Z.to_nat i) = Some (mean_color active_spans).
Proof.
  apply (@strip_samples_active_spans binary64
           {| note := 60; channel := 0; start := of_int 0; end_ := of_int 1;
              velocity := 100 |}
           [ {| note := 62; channel := 0; start := of_int 0; end_ := of_int 2;
                velocity := 100 |} ]
           49 None gen_zero 98).
  - vm_compute. reflexivity.
  - vm_compute. reflexivity.
Defined.

(** ** Where the random pixels come from *)

Lemma same_draws_refl (g : rng) : same_draws g g.
Proof. intros k. reflexivity. Qed.

Lemma same_draws_randint (lo hi : Z) (g1 g2 : rng) :
  same_draws g1 g2 ->
  fst (randint lo hi g1) = fst (randint lo hi g2)
  /\ same_draws (snd (randint lo hi g1)) (snd (randint lo hi g2)).
Proof.
  intros H. unfold randint. simpl. split.
  - specialize (H 0%nat). rewrite !Nat.add_0_r in H. rewrite H. reflexivity.
  - intros k. simpl. specialize (H (S k)).
    rewrite !Nat.add_succ_r in H. exact H.
Qed.

Lemma same_draws_random_pixel (g1 g2 : rng) :
  same_draws g1 g2 ->
  fst (random_pixel g1) = fst (random_pixel g2)
  /\ same_draws (snd (random_pixel g1)) (snd (random_pixel g2)).
Proof.
  intros H. unfold random_pixel.
  destruct (same_draws_randint 0 255 g1 g2 H) as (E1 & H1).
  destruct (randint 0 255 g1) as [r1 a1], (randint 0 255 g2) as [r2 a2].
  simpl in E1, H1. subst r2.
  destruct (same_draws_randint 0 255 a1 a2 H1) as (E2 & H2).
  destruct (randint 0 255 a1) as [s1 b1], (randint 0 255 a2) as [s2 b2].
  simpl in E2, H2. subst s2.
  destruct (same_draws_randint 0 255 b1 b2 H2) as (E3 & H3).
  destruct (randint 0 255 b1) as [t1 c1], (randint 0 255 b2) as [t2 c2].
  simpl in E3, H3. subst t2. simpl. split; [reflexivity | assumption].
Qed.

Section GeneratorFacts.
Context {A : Arith}.

Lemma same_draws_sample (l : list (NoteSpan num)) (step : num)
    (background : option pixel) (i : Z) (g1 g2 : rng) :
  same_draws g1 g2 ->
  fst (sample_pixel l step background i g1)
  = fst (sample_pixel l step background i g2)
  /\ same_draws (snd (sample_pixel l step background i g1))
                (snd (sample_pixel l step background i g2)).
Proof.
  intros H. unfold sample_pixel.
  destruct (filter (is_active (sample_time step i)) l); simpl; auto.
  destruct background; simpl; auto.
  apply same_draws_random_pixel; assumption.
Qed.

Lemma same_draws_strip_loop (l : list (NoteSpan num)) (step : num)
    (background : option pixel) (indices : list Z) (strip : list pixel)
    (g1 g2 : rng) :
  same_draws g1 g2 ->
  fst (strip_loop l step background indices strip g1)
  = fst (strip_loop l step background indices strip g2)
  /\ same_draws (snd (strip_loop l step background indices strip g1))
                (snd (strip_loop l step background indices strip g2)).
Proof.
  revert strip g1 g2.
  induction indices as [| i indices IH]; intros strip g1 g2 H.
  - simpl. auto.
  - unfold strip_loop. cbn [fold_left].
    destruct (same_draws_sample l step background i g1 g2 H) as (E & H').
    destruct (sample_pixel l step background i g1) as [p1 a1].
    destruct (sample_pixel l step background i g2) as [p2 a2].
    simpl in E, H'. subst p2. apply IH. assumption.
Qed.

(** With a fixed background no value is drawn. *)
Lemma strip_loop_background (l : list (NoteSpan num)) (step : num)
    (bg : pixel) (indices : list Z) (strip : list pixel) (g g' : rng) :
  snd (strip_loop l step (Some bg) indices strip g) = g
  /\ fst (strip_loop l step (Some bg) indices strip g)
     = fst (strip_loop l step (Some bg) indices strip g').
Proof.
  revert strip. induction indices as [| i indices IH]; intros strip.
  - simpl. auto.
  - unfold strip_loop. cbn [fold_left]. unfold sample_pixel.
    destruct (filter (is_active (sample_time step i)) l); apply IH.
Qed.

Lemma same_draws_append_noise (k : nat) (strip : loc)
    (h : list (list pixel)) (g1 g2 : rng) :
  same_draws g1 g2 ->
  heap (append_noise k strip {| heap := h; gen := g1 |})
  = heap (append_noise k strip {| heap := h; gen := g2 |})
  /\ same_draws (gen (append_noise k strip {| heap := h; gen := g1 |}))
                (gen (append_noise k strip {| heap := h; gen := g2 |})).
Proof.
  revert h g1 g2. induction k as [| k IH]; intros h g1 g2 H.
  - simpl. auto.
  - cbn [append_noise gen heap].
    destruct (same_draws_random_pixel g1 g2 H) as (E & H').
    destruct (random_pixel g1) as [p1 a1], (random_pixel g2) as [p2 a2].
    simpl in E, H'. subst p2. apply IH. assumption.
Qed.

Lemma same_draws_pad (needed : Z) (noise : bool) (strip : loc)
    (h : list (list pixel)) (g1 g2 : rng) :
  same_draws g1 g2 ->
  heap (pad needed noise strip {| heap := h; gen := g1 |})
  = heap (pad needed noise strip {| heap := h; gen := g2 |})
  /\ same_draws (gen (pad needed noise strip {| heap := h; gen := g1 |}))
                (gen (pad needed noise strip {| heap := h; gen := g2 |})).
Proof.
  intros H. unfold pad.
  destruct (0 <? needed); [| simpl; auto].
  destruct noise; [apply same_draws_append_noise; assumption |].
  simpl. auto.
Qed.

Lemma pad_black_keeps_generator (needed : Z) (strip : loc) (w : world) :
  gen (pad needed false strip w) = gen w.
Proof. unfold pad. destruct (0 <? needed); reflexivity. Qed.

Lemma same_draws_packer (pillow : bool) (strip : loc) (ratio : Z * Z)
    (noise : bool) (h : list (list pixel)) (g1 g2 : rng) :
  same_draws g1 g2 ->
  let r1 := color_strip_to_rect_image pillow strip ratio noise
              {| heap := h; gen := g1 |} in
  let r2 := color_strip_to_rect_image pillow strip ratio noise
              {| heap := h; gen := g2 |} in
  fst r1 = fst r2
  /\ heap (snd r1) = heap (snd r2)
  /\ same_draws (gen (snd r1)) (gen (snd r2)).
Proof.
  intros H. unfold color_strip_to_rect_image. cbn [heap gen].
  destruct (heap_get h strip) as [| p0 rest] eqn:Eh; [simpl; auto |].
  destruct ratio as [ratio_w ratio_h].
  destruct ((ratio_w <=? 0) || (ratio_h <=? 0)); [simpl; auto |].
  destruct (rect_dims (Z.of_nat (length (p0 :: rest))) ratio_w ratio_h)
    as [[width height] | e]; [| simpl; auto].
  destruct (same_draws_pad
              (width * height - Z.of_nat (length (p0 :: rest)))
              noise strip h g1 g2 H) as (E & H').
  rewrite E. destruct pillow; simpl; auto.
Qed.
End GeneratorFacts.

(** C9, as stated: equal inputs give equal outputs.  No argument carries a
    random source, and two calls with equal arguments differ when the
    generator of the [random] module is in different states. *)
Lemma equal_arguments_different_outputs :
  fst (spans_to_color_strip late_span 1 None gen_zero)
  <> fst (spans_to_color_strip late_span 1 None gen_one)
  /\ fst (color_strip_to_rect_image (A := binary64) true 0%nat (4, 3) true
            {| heap := [[(1, 2, 3)]]; gen := gen_zero |})
     <> fst (color_strip_to_rect_image (A := binary64) true 0%nat (4, 3) true
               {| heap := [[(1, 2, 3)]]; gen := gen_one |}).
Proof. split; vm_compute; discriminate. Qed.

(** C9 (amended): the filler pixels of the strip builder and the padding
    pixels of the rectangle packer are drawn from the generator of the
    [random] module, which no caller supplies; the output is a function of the
    arguments and of the values that generator is about to deliver, so that
    two runs with equal arguments started from generator states that deliver
    the same values return equal outputs, and leave such states; with a fixed
    background (strip builder) or without noise (packer) nothing is drawn and
    the output is the same in every generator state. *)
Theorem outputs_follow_the_module_generator {A : Arith}
    (all_spans : list (NoteSpan num)) (pps : Z) (background : option pixel)
    (bg : pixel) (pillow noise : bool) (strip : loc) (ratio : Z * Z)
    (h : list (list pixel)) (g1 g2 : rng) :
  same_draws g1 g2 ->
  fst (spans_to_color_strip all_spans pps background g1)
  = fst (spans_to_color_strip all_spans pps background g2)
  /\ same_draws (snd (spans_to_color_strip all_spans pps background g1))
                (snd (spans_to_color_strip all_spans pps background g2))
  /\ (forall g g',
        snd (spans_to_color_strip all_spans pps (Some bg) g) = g
        /\ fst (spans_to_color_strip all_spans pps (Some bg) g)
           = fst (spans_to_color_strip all_spans pps (Some bg) g'))
  /\ (let r1 := color_strip_to_rect_image pillow strip ratio noise
                  {| heap := h; gen := g1 |} in
      let r2 := color_strip_to_rect_image pillow strip ratio noise
                  {| heap := h; gen := g2 |} in
      fst r1 = fst r2
      /\ heap (snd r1) = heap (snd r2)
      /\ same_draws (gen (snd r1)) (gen (snd r2)))
  /\ (forall g g',
        let r := color_strip_to_rect_image pillow strip ratio false
                   {| heap := h; gen := g |} in
        let r' := color_strip_to_rect_image pillow strip ratio false
                    {| heap := h; gen := g' |} in
        gen (snd r) = g /\ fst r = fst r' /\ heap (snd r) = heap (snd r')).
Proof.
  intros H.
  assert (Hstrip : forall bgo a1 a2, same_draws a1 a2 ->
            fst (spans_to_color_strip all_spans pps bgo a1)
            = fst (spans_to_color_strip all_spans pps bgo a2)
            /\ same_draws (snd (spans_to_color_strip all_spans pps bgo a1))
                          (snd (spans_to_color_strip all_spans pps bgo a2))).
  { intros bgo a1 a2 Ha. unfold spans_to_color_strip.
    destruct all_spans as [| first rest]; [simpl; auto |].
    destruct (strip_layout first rest pps) as [[total step] | e]; [| simpl; auto].
    destruct (same_draws_strip_loop (first :: rest) step bgo
                (py_range total) [] a1 a2 Ha) as (E & H').
    destruct (strip_loop (first :: rest) step bgo (py_range total) [] a1)
      as [s1 b1].
    destruct (strip_loop (first :: rest) step bgo (py_range total) [] a2)
      as [s2 b2].
    simpl in *. subst s2. auto. }
  split; [apply Hstrip; assumption |].
  split; [apply Hstrip; assumption |].
  split; [| split].
  - intros g g'. unfold spans_to_color_strip.
    destruct all_spans as [| first rest]; [simpl; auto |].
    destruct (strip_layout first rest pps) as [[total step] | e]; [| simpl; auto].
    destruct (strip_loop_background (first :: rest) step bg
                (py_range total) [] g g') as (E1 & E2).
    destruct (strip_loop (first :: rest) step (Some bg) (py_range total) [] g)
      as [s1 b1].
    destruct (strip_loop (first :: rest) step (Some bg) (py_range total) [] g')
      as [s2 b2].
    simpl in *. subst. auto.
  - apply same_draws_packer. assumption.
  - intros g g'. unfold color_strip_to_rect_image. cbn [heap gen].
    destruct (heap_get h strip) as [| p0 rest] eqn:Eh; [simpl; auto |].
    destruct ratio as [ratio_w ratio_h].
    destruct ((ratio_w <=? 0) || (ratio_h <=? 0)); [simpl; auto |].
    destruct (rect_dims (Z.of_nat (length (p0 :: rest))) ratio_w ratio_h)
      as [[width height] | e]; [| simpl; auto].
    set (needed := width * height - Z.of_nat (length (p0 :: rest))).
    assert (Eheap : forall a,
              heap (pad needed false strip {| heap := h; gen := a |})
              = heap (pad needed false strip {| heap := h; gen := g |})).
    { intros a. unfold pad. destruct (0 <? needed); reflexivity. }
    pose proof (pad_black_keeps_generator needed strip {| heap := h; gen := g |})
      as Eg.
    rewrite (Eheap g'). destruct pillow; simpl; auto.
Qed.

Lemma outputs_follow_the_module_generator_witness :
  same_draws gen_zero gen_zero_later
  /\ fst (spans_to_color_strip late_span 1 None gen_zero)
     = fst (spans_to_color_strip late_span 1 None gen_zero_later).
Proof.
  assert (H : same_draws gen_zero gen_zero_later) by (intros k; reflexivity).
  split; [exact H |].
  exact (proj1 (@outputs_follow_the_module_generator binary64 late_span 1 None
                  (0, 0, 0) false true 0%nat (4, 3) [[(1, 2, 3)]]
                  gen_zero gen_zero_later H)).
Defined.

(** ** The packer and the caller's list *)

Lemma heap_set_length (h : list (list pixel)) (l : loc) (v : list pixel) :
  length (heap_set h l v) = length h.
Proof.
  revert l. induction h as [| x h IH]; intros [| l]; simpl; auto.
Qed.

Lemma heap_get_set_same (h : list (list pixel)) (l : loc) (v : list pixel) :
  (l < length h)%nat -> heap_get (heap_set h l v) l = v.
Proof.
  unfold heap_get. revert l.
  induction h as [| x h IH]; intros [| l] Hl; simpl in *; try lia; auto.
  apply IH. lia.
Qed.

Lemma heap_get_set_other (h : list (list pixel)) (l l' : loc) (v : list pixel) :
  l' <> l -> heap_get (heap_set h l v) l' = heap_get h l'.
Proof.
  unfold heap_get. revert l l'.
  induction h as [| x h IH]; intros [| l] [| l'] Hne; simpl; auto; try lia.
Qed.

Lemma heap_get_allocated (h : list (list pixel)) (l : loc) :
  heap_get h l <> [] -> (l < length h)%nat.
Proof.
  unfold heap_get. intros H.
  destruct (Nat.lt_ge_cases l (length h)) as [Hlt | Hge]; [assumption |].
  rewrite nth_overflow in H by assumption. contradiction.
Qed.

Lemma heap_get_alloc_old (h : list (list pixel)) (v : list pixel) (l : loc) :
  (l < length h)%nat -> heap_get (snd (heap_alloc h v)) l = heap_get h l.
Proof. intros Hl. unfold heap_alloc, heap_get. simpl. apply app_nth1. exact Hl. Qed.

Lemma heap_get_alloc_new (h : list (list pixel)) (v : list pixel) :
  heap_get (snd (heap_alloc h v)) (fst (heap_alloc h v)) = v.
Proof. unfold heap_alloc, heap_get. simpl. apply nth_middle. Qed.

(** What padding does to the store: the list at [strip] grows at its end,
    every other list stays. *)
Lemma pad_extends (needed : Z) (noise : bool) (strip : loc) (w : world) :
  (strip < length (heap w))%nat ->
  exists padding,
    heap_get (heap (pad needed noise strip w)) strip
    = heap_get (heap w) strip ++ padding
    /\ length padding = Z.to_nat needed
    /\ (noise = false -> padding = repeat (0, 0, 0) (Z.to_nat needed))
    /\ length (heap (pad needed noise strip w)) = length (heap w)
    /\ forall l, l <> strip ->
         heap_get (heap (pad needed noise strip w)) l = heap_get (heap w) l.
Proof.
  intros Hl. unfold pad. destruct (0 <? needed) eqn:En.
  - destruct noise.
    + clear En. generalize (Z.to_nat needed) as k. intros k.
      revert w Hl. induction k as [| k IH]; intros w Hl.
      * exists []. simpl. rewrite app_nil_r. repeat split; auto.
      * cbn [append_noise]. destruct (random_pixel (gen w)) as [p g'].
        set (w1 := {| heap := heap_set (heap w) strip
                                (heap_get (heap w) strip ++ [p]);
                      gen := g' |}).
        destruct (IH w1) as (padding & H1 & H2 & _ & H4 & H5).
        { simpl. rewrite heap_set_length. exact Hl. }
        exists (p :: padding). simpl in H1, H4, H5.
        rewrite heap_get_set_same in H1 by exact Hl.
        rewrite heap_set_length in H4.
        split; [rewrite H1, <- app_assoc; reflexivity |].
        split; [simpl; congruence |].
        split; [discriminate |].
        split; [exact H4 |].
        intros l Hne. rewrite H5 by exact Hne.
        apply heap_get_set_other. exact Hne.
    + exists (repeat (0, 0, 0) (Z.to_nat needed)). simpl.
      rewrite heap_get_set_same by exact Hl.
      rewrite repeat_length, heap_set_length.
      repeat split; auto.
      intros l Hne. apply heap_get_set_other. exact Hne.
  - apply Z.ltb_ge in En. exists []. rewrite app_nil_r.
    replace (Z.to_nat needed) with 0%nat by lia.
    repeat split; auto.
Qed.

(** The whole effect of a call of the packer that gets its dimensions. *)
Lemma packer_effect {A : Arith}
    (pillow noise : bool) (strip : loc) (ratio_w ratio_h : Z) (w : world)
    (width height : Z) :
  heap_get (heap w) strip <> [] ->
  0 < ratio_w -> 0 < ratio_h ->
  rect_dims (Z.of_nat (length (heap_get (heap w) strip))) ratio_w ratio_h
  = Ok (width, height) ->
  exists p w' padding,
    color_strip_to_rect_image pillow strip (ratio_w, ratio_h) noise w
    = (Ok p, w')
    /\ packed_dims p = (width, height)
    /\ heap_get (heap w') strip = heap_get (heap w) strip ++ padding
    /\ length padding
       = Z.to_nat (width * height
                   - Z.of_nat (length (heap_get (heap w) strip)))
    /\ (noise = false -> padding = repeat (0, 0, 0) (length padding))
    /\ packed_data (heap w') p
       = py_prefix (heap_get (heap w) strip ++ padding) (width * height)
    /\ (pillow = false ->
        p = RawImage width height (length (heap w))
        /\ length (heap w) <> strip)
    /\ forall l, l <> strip -> (l < length (heap w))%nat ->
         heap_get (heap w') l = heap_get (heap w) l.
Proof.
  intros Hne Hw Hh Hdims.
  pose proof (heap_get_allocated _ _ Hne) as Hl.
  unfold color_strip_to_rect_image.
  destruct (heap_get (heap w) strip) as [| p0 rest] eqn:Eh; [contradiction |].
  assert (Eratio : (ratio_w <=? 0) || (ratio_h <=? 0) = false).
  { apply orb_false_iff. split; apply Z.leb_gt; assumption. }
  rewrite Eratio, Hdims.
  set (needed := width * height - Z.of_nat (length (p0 :: rest))).
  destruct (pad_extends needed noise strip w Hl)
    as (padding & H1 & H2 & H3 & H4 & H5).
  rewrite Eh in H1.
  set (w1 := pad needed noise strip w) in *.
  destruct pillow.
  - exists (PillowImage width height
              (py_prefix (heap_get (heap w1) strip) (width * height))),
      w1, padding.
    split; [reflexivity |]. split; [reflexivity |].
    split; [exact H1 |]. split; [exact H2 |].
    split; [intros Hn; rewrite H2; auto |].
    split; [simpl; rewrite H1; reflexivity |].
    split; [discriminate |].
    intros l Hnl _. apply H5. exact Hnl.
  - exists (RawImage width height (length (heap w1))),
      {| heap := heap w1
                 ++ [py_prefix (heap_get (heap w1) strip) (width * height)];
         gen := gen w1 |},
      padding.
    assert (Hold : forall l, (l < length (heap w1))%nat ->
              heap_get (heap w1 ++
                        [py_prefix (heap_get (heap w1) strip) (width * height)])
                       l
              = heap_get (heap w1) l).
    { intros l Hlt. unfold heap_get. apply app_nth1. exact Hlt. }
    split; [reflexivity |]. split; [reflexivity |].
    split; [simpl; rewrite Hold by lia; exact H1 |].
    split; [exact H2 |].
    split; [intros Hn; rewrite H2; auto |].
    split; [simpl; unfold heap_get at 1; rewrite nth_middle, H1; reflexivity |].
    split; [intros _; rewrite H4; split; [reflexivity | lia] |].
    intros l Hnl Hlt. simpl. rewrite Hold by lia. apply H5. exact Hnl.
Qed.

(** C10, as stated: the caller's strip is unchanged by the packer.  A strip of
    one pixel has two pixels after the call. *)
Lemma packer_changes_callers_strip :
  heap_get
    (heap (snd (color_strip_to_rect_image (A := binary64) false 0%nat (4, 3)
                  false {| heap := [[(1, 2, 3)]]; gen := gen_zero |})))
    0%nat
  = [(1, 2, 3); (0, 0, 0)]
  /\ heap_get
       (heap (snd (color_strip_to_rect_image (A := binary64) false 0%nat (4, 3)
                     false {| heap := [[(1, 2, 3)]]; gen := gen_zero |})))
       0%nat
     <> [(1, 2, 3)].
Proof. split; vm_compute; [reflexivity | discriminate]. Qed.

(** C10 (amended): the packer pads in place: when width * height exceeds the
    length of the strip it appends the padding pixels to the list the caller
    passed, which afterwards holds its former pixels followed by
    width * height - len(strip) padding pixels; when nothing is missing that
    list is unchanged.  The pixels it returns are a copy, in a list of its
    own, of the first width * height pixels of the padded list, and every
    other list of the store is unchanged. *)
Theorem packer_pads_the_callers_list {A : Arith}
    (pillow noise : bool) (strip : loc) (ratio_w ratio_h : Z) (w : world)
    (width height : Z) :
  heap_get (heap w) strip <> [] ->
  0 < ratio_w -> 0 < ratio_h ->
  rect_dims (Z.of_nat (length (heap_get (heap w) strip))) ratio_w ratio_h
  = Ok (width, height) ->
  exists p w' padding,
    color_strip_to_rect_image pillow strip (ratio_w, ratio_h) noise w
    = (Ok p, w')
    /\ packed_dims p = (width, height)
    /\ heap_get (heap w') strip = heap_get (heap w) strip ++ padding
    /\ length padding
       = Z.to_nat (width * height
                   - Z.of_nat (length (heap_get (heap w) strip)))
    /\ (noise = false -> padding = repeat (0, 0, 0) (length padding))
    /\ packed_data (heap w') p
       = py_prefix (heap_get (heap w) strip ++ padding) (width * height)
    /\ (pillow = false ->
        p = RawImage width height (length (heap w))
        /\ length (heap w) <> strip)
    /\ forall l, l <> strip -> (l < length (heap w))%nat ->
         heap_get (heap w') l = heap_get (heap w) l.
Proof.
  intros Hne Hw Hh Hdims.
  exact (packer_effect pillow noise strip ratio_w ratio_h w width height
           Hne Hw Hh Hdims).
Qed.

Lemma packer_pads_the_callers_list_witness :
  exists p w' padding,
    color_strip_to_rect_image (A := binary64) false 0%nat (4, 3) true
      {| heap := [[(1, 2, 3)]]; gen := gen_zero |} = (Ok p, w')
    /\ packed_dims p = (2, 1)
    /\ heap_get (heap w') 0%nat = [(1, 2, 3)] ++ padding
    /\ length padding = 1%nat.
Proof.
  destruct (@packer_pads_the_callers_list binary64 false true 0%nat 4 3
              {| heap := [[(1, 2, 3)]]; gen := gen_zero |} 2 1)
    as (p & w' & padding & H1 & H2 & H3 & H4 & _).
  - discriminate.
  - lia.
  - lia.
  - vm_compute. reflexivity.
  - exists p, w', padding. repeat split; assumption.
Defined.

(** ** The dimensions of the rectangle *)

Lemma exact_ceil_spec (x : R) :
  (IZR (Exact.ceil x) - 1 < x <= IZR (Exact.ceil x))%R.
Proof.
  unfold Exact.ceil. rewrite minus_IZR.
  destruct (archimed (- x)) as [H1 H2]. lra.
Qed.

Lemma exact_ceil_unique (x : R) (n : Z) :
  (IZR n - 1 < x <= IZR n)%R -> Exact.ceil x = n.
Proof.
  intros [H1 H2]. destruct (exact_ceil_spec x) as [H3 H4].
  assert (Ha : (IZR (Exact.ceil x) < IZR (n + 1))%R)
    by (rewrite plus_IZR; lra).
  assert (Hb : (IZR n < IZR (Exact.ceil x + 1))%R)
    by (rewrite plus_IZR; lra).
  apply lt_IZR in Ha, Hb. lia.
Qed.

(** The arithmetic of section 4.5, on real numbers: [s] the square root,
    [h] and [w] the two ceilings. *)
Lemma dims_bounds_R (a r s h w : R) :
  (0 < r -> 0 < s -> s * s * r = a -> h - 1 < s <= h -> 1 <= h ->
   w - 1 < h * r <= w ->
   a <= w * h /\ w * h - a < 2 * w + h)%R.
Proof.
  intros Hr Hs Ha [Hh1 Hh2] Hh [Hw1 Hw2].
  assert (H1 : (0 <= (w - h * r) * h)%R) by (apply Rmult_le_pos; lra).
  assert (H2 : (0 <= (h - s) * (h + s) * r)%R).
  { apply Rmult_le_pos; [apply Rmult_le_pos |]; lra. }
  assert (H3 : (0 < (s - (h - 1)) * (s + (h - 1)) * r)%R).
  { apply Rmult_lt_0_compat; [apply Rmult_lt_0_compat |]; lra. }
  assert (H4 : (0 < (h * r + 1 - w) * h)%R)
    by (apply Rmult_lt_0_compat; lra).
  split; nra.
Qed.

Section ExactDims.
Variables area ratio_w ratio_h : Z.
Hypothesis area_pos : 0 < area.
Hypothesis ratio_w_pos : 0 < ratio_w.
Hypothesis ratio_h_pos : 0 < ratio_h.

Local Notation "'target_ratio'" := (exact_ratio ratio_w ratio_h).
Local Notation "'root'" := (R_sqrt.sqrt (IZR area / target_ratio)).
Local Notation "'height'" := (exact_height area ratio_w ratio_h).
Local Notation "'width'" := (exact_width area ratio_w ratio_h).

Lemma target_ratio_pos : (0 < target_ratio)%R.
Proof.
  unfold exact_ratio. apply IZR_lt in ratio_w_pos, ratio_h_pos.
  apply Rdiv_lt_0_compat; assumption.
Qed.

Lemma quotient_pos : (0 < IZR area / target_ratio)%R.
Proof.
  apply IZR_lt in area_pos.
  apply Rdiv_lt_0_compat; [assumption | apply target_ratio_pos].
Qed.

Lemma exact_rect_dims :
  @rect_dims exact area ratio_w ratio_h = Ok (width, height).
Proof.
  pose proof target_ratio_pos as Hr. pose proof quotient_pos as Hq.
  unfold rect_dims.
  rewrite exact_int_truediv by lia.
  cbn [bind].
  change (IZR ratio_w / IZR ratio_h)%R with target_ratio.
  rewrite exact_truediv by (apply Rgt_not_eq; exact Hr).
  cbn [bind]. rewrite exact_math_sqrt by (apply Rlt_le; exact Hq).
  reflexivity.
Qed.

Lemma height_ge_1 : 1 <= height.
Proof.
  destruct (exact_ceil_spec root) as [_ H].
  assert (Hs : (0 < root)%R) by (apply sqrt_lt_R0, quotient_pos).
  change (Exact.ceil root) with height in H.
  assert (Hh : (IZR 0 < IZR height)%R) by (simpl; lra).
  apply lt_IZR in Hh. lia.
Qed.

Lemma exact_dims_bounds :
  area <= width * height /\ width * height - area < 2 * width + height.
Proof.
  pose proof target_ratio_pos as Hr. pose proof quotient_pos as Hq.
  assert (Hs : (0 < root)%R) by (apply sqrt_lt_R0, quotient_pos).
  assert (Hsq : (root * root * target_ratio = IZR area)%R).
  { rewrite sqrt_sqrt by lra. field. lra. }
  pose proof (exact_ceil_spec root) as Hh.
  change (Exact.ceil root) with height in Hh.
  pose proof (exact_ceil_spec (IZR height * target_ratio)) as Hw.
  change (Exact.ceil (IZR height * target_ratio)) with width in Hw.
  assert (Hh1 : (1 <= IZR height)%R) by (apply IZR_le, height_ge_1).
  destruct (dims_bounds_R (IZR area) target_ratio root (IZR height)
              (IZR width) Hr Hs Hsq Hh Hh1 Hw) as [B1 B2].
  split.
  - apply le_IZR. rewrite mult_IZR. exact B1.
  - apply lt_IZR.
    rewrite minus_IZR, plus_IZR, !mult_IZR. exact B2.
Qed.

(** The two ceilings, recognised by integer comparisons. *)
Lemma exact_dims_checked (w h : Z) :
  exact_dims_check area ratio_w ratio_h w h = true ->
  @rect_dims exact area ratio_w ratio_h = Ok (w, h).
Proof.
  unfold exact_dims_check. rewrite !andb_true_iff.
  rewrite Z.leb_le, !Z.ltb_lt, !Z.leb_le.
  intros ((((Hh1 & Hh2) & Hh3) & Hw1) & Hw2).
  pose proof target_ratio_pos as Hr. pose proof quotient_pos as Hq.
  assert (Rw : (0 < IZR ratio_w)%R) by (apply IZR_lt in ratio_w_pos; exact ratio_w_pos).
  assert (Rh : (0 < IZR ratio_h)%R) by (apply IZR_lt in ratio_h_pos; exact ratio_h_pos).
  rewrite exact_rect_dims.
  assert (Eh : height = h).
  { apply exact_ceil_unique.
    assert (Eq : (IZR area / target_ratio * IZR ratio_w
                  = IZR area * IZR ratio_h)%R).
    { unfold exact_ratio. field. lra. }
    apply IZR_le in Hh1. apply IZR_lt in Hh2. apply IZR_le in Hh3.
    rewrite !mult_IZR, minus_IZR in Hh2. rewrite !mult_IZR in Hh3.
    split.
    - rewrite <- (sqrt_square (IZR h - 1)) by lra.
      apply sqrt_lt_1_alt. split; [nra |].
      apply Rmult_lt_reg_r with (r := IZR ratio_w); [lra |].
      rewrite Eq. lra.
    - rewrite <- (sqrt_square (IZR h)) by lra.
      apply sqrt_le_1_alt.
      apply Rmult_le_reg_r with (r := IZR ratio_w); [lra |].
      rewrite Eq. lra. }
  assert (Ew : width = w).
  { unfold exact_width. rewrite Eh. apply exact_ceil_unique.
    apply IZR_lt in Hw1. apply IZR_le in Hw2.
    rewrite !mult_IZR, minus_IZR in Hw1. rewrite !mult_IZR in Hw2.
    assert (Eq : (IZR h * target_ratio * IZR ratio_h
                  = IZR h * IZR ratio_w)%R).
    { unfold exact_ratio. field. lra. }
    split.
    - apply Rmult_lt_reg_r with (r := IZR ratio_h); [lra |].
      rewrite Eq. lra.
    - apply Rmult_le_reg_r with (r := IZR ratio_h); [lra |].
      rewrite Eq. lra. }
  rewrite Eh, Ew. reflexivity.
Qed.
End ExactDims.

(** *** The dimensions in double precision *)

Local Notation "'bpow'" := (powerRZ 2).

Lemma bpow_pos (e : Z) : (0 < bpow e)%R.
Proof. apply powerRZ_lt. lra. Qed.

Lemma bpow_add (a b : Z) : bpow (a + b) = (bpow a * bpow b)%R.
Proof. apply powerRZ_add. lra. Qed.

Lemma bpow_IZR (k : Z) : 0 <= k -> IZR (2 ^ k) = bpow k.
Proof.
  intros Hk. destruct k as [| p | p]; [reflexivity | | lia].
  change (2 ^ Z.pos p) with (Z.pow_pos 2 p). apply Zpower_pos_powerRZ.
Qed.

Lemma bpow_le (a b : Z) : a <= b -> (bpow a <= bpow b)%R.
Proof.
  intros H. replace b with (a + (b - a)) by lia. rewrite bpow_add.
  pose proof (bpow_IZR (b - a) ltac:(lia)) as E.
  assert (H1 : 1 <= 2 ^ (b - a))
    by (apply Z.lt_pred_le, Z.pow_pos_nonneg; lia).
  apply IZR_le in H1. rewrite E in H1. pose proof (bpow_pos a). nra.
Qed.

(** Where a mantissa of at least 53 digits is cut to 53: the real numbers
    between [m * 2^e] and [(m + 1) * 2^e] and the results of rounding lie
    within one unit of the last place of each other. *)
Lemma cut_bounds (m e F : Z) (x y : R) (m2 : Z) :
  0 < m -> e <= F ->
  2 ^ 52 <= m / 2 ^ (F - e) ->
  (IZR m * bpow e <= x <= IZR (m + 1) * bpow e)%R ->
  m / 2 ^ (F - e) <= m2 <= m / 2 ^ (F - e) + 1 ->
  y = (IZR m2 * bpow F)%R ->
  (x * (1 - bpow (-52)) <= y <= x * (1 + bpow (-52)))%R.
Proof.
  intros Hm HeF Hbig [Hx1 Hx2] [Hm21 Hm22] ->.
  set (k := F - e) in *. set (m1 := m / 2 ^ k) in *.
  assert (Hk : 0 < 2 ^ k) by (apply Z.pow_pos_nonneg; lia).
  assert (Hdiv : m1 * 2 ^ k <= m < (m1 + 1) * 2 ^ k).
  { pose proof (Z.div_mod m (2 ^ k) ltac:(lia)) as E.
    pose proof (Z.mod_pos_bound m (2 ^ k) Hk) as B. fold m1 in E. nia. }
  assert (HF : bpow F = (IZR (2 ^ k) * bpow e)%R).
  { rewrite bpow_IZR by (unfold k; lia). rewrite <- bpow_add.
    f_equal. unfold k. lia. }
  pose proof (bpow_pos e) as He. pose proof (bpow_pos F) as HFp.
  assert (L1 : (IZR m1 * bpow F <= x)%R).
  { rewrite HF, <- Rmult_assoc, <- mult_IZR.
    apply Rle_trans with (IZR m * bpow e)%R; [| exact Hx1].
    apply Rmult_le_compat_r; [lra | apply IZR_le; lia]. }
  assert (L2 : (x <= IZR (m1 + 1) * bpow F)%R).
  { rewrite HF, <- Rmult_assoc, <- mult_IZR.
    apply Rle_trans with (IZR (m + 1) * bpow e)%R; [exact Hx2 |].
    apply Rmult_le_compat_r; [lra | apply IZR_le; lia]. }
  assert (L3 : (IZR m1 * bpow F <= IZR m2 * bpow F <= IZR (m1 + 1) * bpow F)%R).
  { split; apply Rmult_le_compat_r; try lra; apply IZR_le; lia. }
  rewrite plus_IZR in L2, L3.
  assert (Hulp : (bpow F <= x * bpow (-52))%R).
  { apply Rle_trans with (IZR m1 * bpow F * bpow (-52))%R;
      [| apply Rmult_le_compat_r; [pose proof (bpow_pos (-52)); lra | exact L1]].
    apply IZR_le in Hbig. rewrite bpow_IZR in Hbig by lia.
    assert (E : (bpow 52 * bpow (-52) = 1)%R)
      by (rewrite <- bpow_add; reflexivity).
    pose proof (bpow_pos (-52)) as H52.
    replace (IZR m1 * bpow F * bpow (-52))%R
      with (bpow F * (IZR m1 * bpow (-52)))%R by ring.
    assert (1 <= IZR m1 * bpow (-52))%R; [| nra].
    rewrite <- E. apply Rmult_le_compat_r; lra. }
  lra.
Qed.

(** Rounding a positive mantissa of at least 53 digits, in the range of the
    normal numbers: the result is a canonical double within 2^-52 of every
    real number between [m * 2^e] and [(m + 1) * 2^e]. *)
Lemma round_aux_near (m e : Z) (l : location) (x : R) :
  0 < m -> 53 <= B64.digits m ->
  -1021 <= B64.digits m + e <= 1023 ->
  (IZR m * bpow e <= x <= IZR (m + 1) * bpow e)%R ->
  b64_near (B64.digits m + e) (B64.digits m + e + 1) x
    (binary_round_aux B64.prec B64.emax false m e l).
Proof.
  intros Hm Hd HD Hx.
  set (D := B64.digits m + e) in *. set (F := D - 53).
  destruct (binary_round_aux_cases false m e l Hm) as (m2 & Hm2 & Hcases).
  assert (HF : Z.max e (B64.fexp (B64.digits m + e)) = F).
  { fold D. rewrite fexp_eq. unfold F, D in *. lia. }
  rewrite HF in Hm2, Hcases.
  set (m1 := m / 2 ^ (F - e)) in *.
  assert (Hsh : 0 <= F - e < B64.digits m) by (unfold F, D in *; lia).
  assert (Hd1 : B64.digits m1 = 53).
  { unfold m1. rewrite digits_div_pow2 by lia. unfold F, D. lia. }
  assert (Hm1 : 0 < m1) by (apply div_pow2_pos; lia).
  destruct (digits_spec m1 Hm1) as [Hlo Hhi]. rewrite Hd1 in Hlo, Hhi.
  change (53 - 1) with 52 in Hlo.
  destruct Hcases as [[E0 _] | [Hm2pos Hcases]]; [lia |].
  cbv zeta in Hcases.
  assert (Hval : exists m3 e2,
            0 < m3 /\ B64.digits m3 = 53 /\ F <= e2 <= F + 1
            /\ (IZR m3 * bpow e2 = IZR m2 * bpow F)%R
            /\ Z.max F (B64.fexp (B64.digits m2 + F)) = e2
            /\ m2 / 2 ^ (e2 - F) = m3).
  { destruct (Z.eq_dec m2 (2 ^ 53)) as [E | N].
    - exists (2 ^ 52), (F + 1). subst m2.
      assert (E54 : B64.digits (2 ^ 53) = 54) by (vm_compute; reflexivity).
      rewrite E54, fexp_eq.
      split; [lia |]. split; [reflexivity |]. split; [lia |].
      split; [| split; [unfold F, D in *; lia |]].
      + rewrite bpow_add. replace (bpow 1) with 2%R by (simpl; lra).
        change (2 ^ 53) with (2 ^ 52 * 2). rewrite mult_IZR. ring.
      + replace (F + 1 - F) with 1 by lia. reflexivity.
    - exists m2, F.
      assert (Hd2 : B64.digits m2 = 53).
      { apply Z.le_antisymm.
        - apply digits_le_pow2; lia.
        - rewrite <- Hd1. apply digits_le; lia. }
      rewrite Hd2, fexp_eq.
      split; [lia |]. split; [reflexivity |]. split; [lia |].
      split; [reflexivity |]. split; [unfold F, D in *; lia |].
      rewrite Z.sub_diag. apply Z.div_1_r. }
  destruct Hval as (m3 & e2 & Hm3 & Hd3 & He2 & Hv & Ee2 & Em3).
  rewrite Ee2, Em3 in Hcases.
  destruct Hcases as [[E0 _] | [_ Hres]]; [lia |].
  assert (Hle : (e2 <=? 971) = true)
    by (apply Z.leb_le; unfold F, D in *; lia).
  rewrite Hle in Hres. rewrite Hres.
  split.
  - exists (Z.to_pos m3), e2. rewrite Z2Pos.id by lia.
    split; [reflexivity |]. rewrite Hd3, fexp_eq.
    split; unfold F, D in *; lia.
  - cbn [b64_val]. rewrite Z2Pos.id by lia. rewrite Rmult_1_l, Hv.
    apply (cut_bounds m e F x _ m2 Hm ltac:(lia) Hlo Hx Hm2 eq_refl).
Qed.

Lemma b64_near_weaken (lo hi lo' hi' : Z) (x : R) (y : spec_float) :
  lo' <= lo -> hi <= hi' -> b64_near lo hi x y -> b64_near lo' hi' x y.
Proof.
  intros H1 H2 [(m & e & E & Hc & Hm) Hv]. split; [| exact Hv].
  exists m, e. split; [exact E |]. split; [exact Hc | lia].
Qed.

Lemma div_eucl_eq (a b : Z) : Z.div_eucl a b = (a / b, a mod b).
Proof. unfold Z.div, Z.modulo. destruct (Z.div_eucl a b). reflexivity. Qed.

(** The quotient of two positive numbers [mx * 2^ex] and [my * 2^ey],
    canonical or not, the magnitudes of which differ by at most a thousand. *)
Lemma sfdiv_near (mx my : positive) (ex ey : Z) :
  let Dq := B64.digits (Zpos mx) + ex - (B64.digits (Zpos my) + ey) in
  -1000 <= Dq <= 1000 ->
  b64_near Dq (Dq + 2)
    (IZR (Zpos mx) * bpow ex / (IZR (Zpos my) * bpow ey))
    (SFdiv B64.prec B64.emax (S754_finite false mx ex)
       (S754_finite false my ey)).
Proof.
  intros Dq HDq. cbn [SFdiv xorb]. unfold SFdiv_core_binary.
  rewrite !Zdigits2_digits.
  set (dx := B64.digits (Zpos mx)) in *. set (dy := B64.digits (Zpos my)) in *.
  change (SpecFloat.fexp B64.prec B64.emax (dx + ex - (dy + ey)))
    with (B64.fexp Dq).
  set (e' := Z.min (B64.fexp Dq) (ex - ey)).
  set (s := ex - ey - e').
  assert (Hs : 0 <= s) by (unfold s, e'; lia).
  set (m' := match s with
             | 0 => Z.pos mx
             | Z.pos _ => Z.shiftl (Z.pos mx) s
             | Z.neg _ => 0
             end).
  assert (Hm' : m' = Zpos mx * 2 ^ s).
  { unfold m'. destruct s as [| p | p] eqn:Es; try lia.
    apply Z.shiftl_mul_pow2. lia. }
  assert (Hdm : B64.digits m' = dx + s).
  { rewrite Hm'. apply digits_mul_pow2; lia. }
  assert (Hm'pos : 0 < m').
  { rewrite Hm'. apply Z.mul_pos_pos; [lia | apply Z.pow_pos_nonneg; lia]. }
  assert (Hfe : B64.fexp Dq = Dq - 53) by (rewrite fexp_eq; lia).
  pose proof (digits_pos (Zpos my) ltac:(lia)) as Hdy. fold dy in Hdy.
  assert (Hdd : dy < B64.digits m').
  { rewrite Hdm. unfold s, e'. rewrite Hfe. unfold Dq. lia. }
  destruct (digits_div m' (Zpos my) Hm'pos ltac:(lia) Hdd) as (Hq & Hdq).
  fold dy in Hdq. rewrite Hdm in Hdq.
  rewrite div_eucl_eq.
  set (q := m' / Z.pos my) in *.
  assert (He' : e' <= Dq - 53) by (unfold e'; lia).
  assert (Hmagq : Dq <= B64.digits q + e' <= Dq + 1) by (unfold s, Dq in *; lia).
  apply (b64_near_weaken (B64.digits q + e') (B64.digits q + e' + 1));
    [lia | lia |].
  apply round_aux_near; [exact Hq | unfold s, Dq in *; lia | lia |].
  (* the real quotient lies between q and q + 1 units *)
  pose proof (Z.div_mod m' (Zpos my) ltac:(lia)) as Ediv. fold q in Ediv.
  pose proof (Z.mod_pos_bound m' (Zpos my) ltac:(lia)) as Hr.
  assert (Hqr : (IZR q * IZR (Zpos my) <= IZR m'
                 <= IZR (q + 1) * IZR (Zpos my))%R).
  { rewrite <- !mult_IZR. split; apply IZR_le; nia. }
  assert (Hmy : (0 < IZR (Zpos my))%R) by (apply IZR_lt; lia).
  pose proof (bpow_pos ex) as Pex. pose proof (bpow_pos ey) as Pey.
  pose proof (bpow_pos e') as Pe'.
  assert (EX : (IZR (Zpos mx) * bpow ex / (IZR (Zpos my) * bpow ey)
                = IZR m' * bpow e' / IZR (Zpos my))%R).
  { rewrite Hm', mult_IZR, bpow_IZR by exact Hs.
    replace ex with (s + e' + ey) at 1 by (unfold s; lia).
    rewrite !bpow_add. field. lra. }
  rewrite EX. split.
  - apply Rmult_le_reg_r with (IZR (Zpos my)); [exact Hmy |].
    replace (IZR m' * bpow e' / IZR (Z.pos my) * IZR (Z.pos my))%R
      with (IZR m' * bpow e')%R by (field; lra).
    nra.
  - apply Rmult_le_reg_r with (IZR (Zpos my)); [exact Hmy |].
    replace (IZR m' * bpow e' / IZR (Z.pos my) * IZR (Z.pos my))%R
      with (IZR m' * bpow e')%R by (field; lra).
    nra.
Qed.

(** The square root of a positive number [mx * 2^ex], canonical or not. *)
Lemma sfsqrt_near (mx : positive) (ex : Z) :
  let D := B64.digits (Zpos mx) + ex in
  -1000 <= D <= 1000 ->
  b64_near (Z.div2 (D + 1)) (Z.div2 (D + 1) + 1)
    (R_sqrt.sqrt (IZR (Zpos mx) * bpow ex))
    (SFsqrt B64.prec B64.emax (S754_finite false mx ex)).
Proof.
  intros D HD. cbn [SFsqrt]. unfold SFsqrt_core_binary.
  rewrite Zdigits2_digits. fold D.
  set (E := Z.div2 (D + 1)).
  change (SpecFloat.fexp B64.prec B64.emax E) with (B64.fexp E).
  assert (HE : D <= 2 * E <= D + 1).
  { unfold E. rewrite Z.div2_div.
    pose proof (Z.div_mod (D + 1) 2 ltac:(lia)).
    pose proof (Z.mod_pos_bound (D + 1) 2 ltac:(lia)). lia. }
  assert (Hex2 : 2 * Z.div2 ex <= ex).
  { rewrite Z.div2_div. pose proof (Z.div_mod ex 2 ltac:(lia)).
    pose proof (Z.mod_pos_bound ex 2 ltac:(lia)). lia. }
  assert (Hfe : B64.fexp E = E - 53) by (rewrite fexp_eq; lia).
  set (e' := Z.min (B64.fexp E) (Z.div2 ex)).
  set (s := ex - 2 * e').
  assert (He' : e' <= E - 53 /\ 2 * e' <= ex) by (unfold e'; lia).
  assert (Hs : 0 <= s) by (unfold s; lia).
  set (m' := match s with
             | 0 => Z.pos mx
             | Z.pos _ => Z.shiftl (Z.pos mx) s
             | Z.neg _ => 0
             end).
  assert (Hm' : m' = Zpos mx * 2 ^ s).
  { unfold m'. destruct s as [| p | p] eqn:Es; try lia.
    apply Z.shiftl_mul_pow2. lia. }
  assert (Hm'pos : 0 < m').
  { rewrite Hm'. apply Z.mul_pos_pos; [lia | apply Z.pow_pos_nonneg; lia]. }
  assert (Hdm : B64.digits m' = D - 2 * e').
  { rewrite Hm', digits_mul_pow2 by lia. unfold D, s. lia. }
  destruct (digits_spec m' Hm'pos) as [Hlo Hhi]. rewrite Hdm in Hlo, Hhi.
  pose proof (Z.sqrtrem_spec m' ltac:(lia)) as Hsq.
  pose proof (Z.sqrtrem_sqrt m') as Hfst.
  destruct (Z.sqrtrem m') as [q r]. cbn [fst] in Hfst. subst q.
  set (q := Z.sqrt m') in *. destruct Hsq as [Hqr Hr].
  set (c := E - e').
  assert (Hc : 53 <= c) by (unfold c; lia).
  assert (Hq1 : 2 ^ (c - 1) <= q).
  { apply Z.sqrt_le_square; [lia | apply Z.pow_nonneg; lia |].
    rewrite <- Z.pow_add_r by lia.
    apply Z.le_trans with (2 ^ (D - 2 * e' - 1)); [| exact Hlo].
    apply Z.pow_le_mono_r; unfold c; lia. }
  assert (Hq2 : q < 2 ^ c).
  { apply Z.sqrt_lt_square; [lia | apply Z.pow_nonneg; lia |].
    rewrite <- Z.pow_add_r by lia.
    apply Z.lt_le_trans with (2 ^ (D - 2 * e')); [exact Hhi |].
    apply Z.pow_le_mono_r; unfold c; lia. }
  assert (Hqpos : 0 < q).
  { assert (0 < 2 ^ (c - 1)) by (apply Z.pow_pos_nonneg; lia). lia. }
  assert (Hdq : B64.digits q = c).
  { apply Z.le_antisymm.
    - apply digits_le_pow2; assumption.
    - pose proof (digits_ge q (c - 1) Hqpos Hq1). lia. }
  match goal with
  | |- b64_near _ _ _ (binary_round_aux _ _ _ _ _ ?l) => set (loc := l)
  end.
  replace E with (B64.digits q + e') by (rewrite Hdq; unfold c; lia).
  apply round_aux_near;
    [exact Hqpos | lia | rewrite Hdq; unfold c; lia |].
  pose proof (bpow_pos e') as Pe'.
  assert (EX : (IZR (Zpos mx) * bpow ex = IZR m' * (bpow e' * bpow e'))%R).
  { rewrite Hm', mult_IZR, bpow_IZR by exact Hs.
    replace ex with (s + (e' + e')) at 1 by (unfold s; lia).
    rewrite !bpow_add. ring. }
  assert (Hm'R : (0 <= IZR m')%R) by (apply IZR_le; lia).
  rewrite EX, sqrt_mult by nra. rewrite sqrt_square by lra.
  assert (Hqr1 : (IZR q <= R_sqrt.sqrt (IZR m'))%R).
  { rewrite <- (sqrt_square (IZR q)) by (apply IZR_le; lia).
    apply sqrt_le_1_alt. rewrite <- mult_IZR. apply IZR_le. lia. }
  assert (Hqr2 : (R_sqrt.sqrt (IZR m') <= IZR (q + 1))%R).
  { rewrite <- (sqrt_square (IZR (q + 1))) by (apply IZR_le; lia).
    apply sqrt_le_1_alt. rewrite <- mult_IZR. apply IZR_le. nia. }
  split; apply Rmult_le_compat_r; lra.
Qed.

Lemma b64_finite_digits (lo hi : Z) (m : positive) (e : Z) :
  -1000 <= lo ->
  B64.fexp (B64.digits (Zpos m) + e) = e ->
  lo <= B64.digits (Zpos m) + e <= hi ->
  B64.digits (Zpos m) = 53.
Proof. intros Hlo Hc Hm. rewrite fexp_eq in Hc. lia. Qed.

(** The product of two positive finite canonical doubles. *)
Lemma sfmul_near (x y : spec_float) (lx hx ly hy : Z) :
  b64_finite lx hx x -> b64_finite ly hy y ->
  -500 <= lx -> hx <= 500 -> -500 <= ly -> hy <= 500 ->
  b64_near (lx + ly - 1) (hx + hy + 1) (b64_val x * b64_val y)
    (SFmul B64.prec B64.emax x y).
Proof.
  intros (mx & ex & -> & Hcx & Hmx) (my & ey & -> & Hcy & Hmy) H1 H2 H3 H4.
  cbn [SFmul xorb b64_val].
  pose proof (b64_finite_digits lx hx mx ex ltac:(lia) Hcx Hmx) as Hdx.
  pose proof (b64_finite_digits ly hy my ey ltac:(lia) Hcy Hmy) as Hdy.
  change (Z.pos (mx * my)) with (Z.pos mx * Z.pos my).
  pose proof (digits_mul (Zpos mx) (Zpos my) ltac:(lia) ltac:(lia)) as Hd.
  set (m := Z.pos mx * Z.pos my) in *.
  apply (b64_near_weaken (B64.digits m + (ex + ey))
           (B64.digits m + (ex + ey) + 1)); [lia | lia |].
  apply round_aux_near; [unfold m; lia | lia | lia |].
  unfold m. rewrite plus_IZR, mult_IZR, bpow_add.
  pose proof (bpow_pos ex). pose proof (bpow_pos ey).
  assert (0 < IZR (Z.pos mx))%R by (apply IZR_lt; lia).
  assert (0 < IZR (Z.pos my))%R by (apply IZR_lt; lia).
  split; nra.
Qed.

(** A canonical mantissa is not rounded. *)
Lemma binary_round_aux_canonical (s : bool) (m : positive) (e : Z) :
  B64.fexp (B64.digits (Zpos m) + e) = e -> e <= 971 ->
  binary_round_aux B64.prec B64.emax s (Zpos m) e loc_Exact
  = S754_finite s m e.
Proof.
  intros Hc He. unfold binary_round_aux, shr_fexp.
  rewrite Zdigits2_digits.
  change (SpecFloat.fexp B64.prec B64.emax (B64.digits (Z.pos m) + e))
    with (B64.fexp (B64.digits (Z.pos m) + e)).
  rewrite Hc, Z.sub_diag. cbn [shr shr_record_of_loc shr_m loc_of_shr_record
    round_nearest_even].
  rewrite Zdigits2_digits.
  change (SpecFloat.fexp B64.prec B64.emax (B64.digits (Z.pos m) + e))
    with (B64.fexp (B64.digits (Z.pos m) + e)).
  rewrite Hc, Z.sub_diag. cbn [shr shr_m].
  apply Z.leb_le in He. change (B64.emax - B64.prec) with 971.
  rewrite He. reflexivity.
Qed.

(** The double of a positive int below 2^53 is that int. *)
Lemma b64_of_int_exact (n : Z) :
  0 < n < 2 ^ 53 ->
  b64_finite (B64.digits n) (B64.digits n) (B64.of_int n)
  /\ b64_val (B64.of_int n) = IZR n.
Proof.
  intros Hn. destruct n as [| p | p]; try lia.
  destruct (digits_below (Zpos p) 53 Hn) as [Hd1 Hd2].
  unfold B64.of_int. cbn [binary_normalize]. unfold binary_round.
  change (Z.pos (digits2_pos p)) with (Zdigits2 (Z.pos p)).
  rewrite Zdigits2_digits, Z.add_0_r.
  set (d := B64.digits (Zpos p)) in *.
  change (SpecFloat.fexp B64.prec B64.emax d) with (B64.fexp d).
  assert (HF : B64.fexp d = d - 53) by (rewrite fexp_eq; lia).
  rewrite HF.
  destruct (shl_align_spec p 0 (d - 53)) as [Hs Hz].
  destruct (shl_align p 0 (d - 53)) as [mz ez]. cbn [fst snd] in Hs, Hz.
  replace (Z.min 0 (d - 53)) with (d - 53) in Hs, Hz by lia. subst ez.
  assert (Hdz : B64.digits (Zpos mz) = 53).
  { rewrite Hz, digits_mul_pow2 by lia. fold d. lia. }
  assert (Hc : B64.fexp (B64.digits (Zpos mz) + (d - 53)) = d - 53)
    by (rewrite Hdz, fexp_eq; lia).
  rewrite (binary_round_aux_canonical false mz (d - 53) Hc ltac:(lia)).
  split.
  - exists mz, (d - 53). split; [reflexivity |]. split; [exact Hc | lia].
  - cbn [b64_val]. rewrite Hz, mult_IZR, bpow_IZR by lia.
    rewrite Rmult_1_l, Rmult_assoc, <- bpow_add.
    replace (0 - (d - 53) + (d - 53)) with 0 by lia. simpl. ring.
Qed.

(** [math.ceil] of a positive finite double: the least int not below it. *)
Lemma b64_ceil_spec (m : positive) (e : Z) :
  exists n,
    B64.ceil (S754_finite false m e) = Some n
    /\ (IZR n - 1 < b64_val (S754_finite false m e) <= IZR n)%R.
Proof.
  cbn [B64.ceil b64_val]. rewrite Rmult_1_l.
  destruct (Z.leb_spec 0 e) as [He | He]; eexists; (split; [reflexivity |]).
  - rewrite mult_IZR, bpow_IZR by exact He. lra.
  - set (k := - e). set (P := 2 ^ k).
    assert (HP : 0 < P) by (apply Z.pow_pos_nonneg; unfold k; lia).
    pose proof (Z.div_mod (- Z.pos m) P ltac:(lia)) as Ediv.
    pose proof (Z.mod_pos_bound (- Z.pos m) P HP) as Hr.
    set (f := - Z.pos m / P) in *.
    assert (Hz : (- f - 1) * P < Z.pos m <= - f * P) by nia.
    assert (EP : (IZR P * bpow e = 1)%R).
    { unfold P. rewrite bpow_IZR by (unfold k; lia). rewrite <- bpow_add.
      replace (k + e) with 0 by (unfold k; lia). reflexivity. }
    pose proof (bpow_pos e) as Pe.
    destruct Hz as [Hz1 Hz2]. apply IZR_lt in Hz1. apply IZR_le in Hz2.
    rewrite mult_IZR in Hz1, Hz2. rewrite minus_IZR in Hz1.
    assert (HPR : (0 < IZR P)%R) by (apply IZR_lt; exact HP).
    split.
    + apply Rmult_lt_reg_l with (IZR P); [exact HPR |].
      replace (IZR P * (IZR (Z.pos m) * bpow e))%R
        with (IZR (Z.pos m) * (IZR P * bpow e))%R by ring.
      rewrite EP. lra.
    + apply Rmult_le_reg_l with (IZR P); [exact HPR |].
      replace (IZR P * (IZR (Z.pos m) * bpow e))%R
        with (IZR (Z.pos m) * (IZR P * bpow e))%R by ring.
      rewrite EP. lra.
Qed.

(** The arithmetic of the two ceilings when every operation is within a
    relative error [eps] of the exact one: [q] the quotient, [s] the square
    root, [p] the product, [h] and [w] the ceilings. *)
Lemma dims_bounds_near (eps a r q s h p w : R) :
  (0 < eps <= 1 / 16 -> 1 <= a -> a * eps <= 1 / 16 -> 0 < r ->
   a / r * (1 - eps) <= q <= a / r * (1 + eps) ->
   R_sqrt.sqrt q * (1 - eps) <= s <= R_sqrt.sqrt q * (1 + eps) ->
   h - 1 < s <= h ->
   h = 1 \/ h = 2 \/ 3 <= h ->
   h * r * (1 - eps) <= p <= h * r * (1 + eps) ->
   w - 1 < p <= w ->
   a - 1 < w * h /\ w * h - a - 2 * w - h < 1)%R.
Proof.
  intros [He1 He2] Ha Hae Hr [Hq1 Hq2] [Hs1 Hs2] [Hh1 Hh2] Hint [Hp1 Hp2]
    [Hw1 Hw2].
  assert (Hqr : (a * (1 - eps) <= q * r <= a * (1 + eps))%R).
  { assert (E : (a / r * r = a)%R) by (field; lra).
    split.
    - replace (a * (1 - eps))%R with (a / r * (1 - eps) * r)%R
        by (rewrite <- E at 2; ring).
      apply Rmult_le_compat_r; lra.
    - replace (a * (1 + eps))%R with (a / r * (1 + eps) * r)%R
        by (rewrite <- E at 2; ring).
      apply Rmult_le_compat_r; lra. }
  assert (Hqpos : (0 < q)%R).
  { assert (0 < q * r)%R by nra. nra. }
  pose proof (sqrt_lt_R0 q Hqpos) as Hrt.
  pose proof (sqrt_sqrt q (Rlt_le _ _ Hqpos)) as Esq.
  set (c := R_sqrt.sqrt q) in *.
  assert (Hspos : (0 < s)%R) by nra.
  assert (Hhpos : (0 < h)%R) by lra.
  assert (Hppos : (0 < p)%R).
  { assert (0 < h * r)%R by (apply Rmult_lt_0_compat; lra). nra. }
  (* t = s * s * r is within three errors of a *)
  assert (Hss1 : (q * ((1 - eps) * (1 - eps)) <= s * s)%R).
  { rewrite <- Esq.
    replace (c * c * ((1 - eps) * (1 - eps)))%R
      with ((c * (1 - eps)) * (c * (1 - eps)))%R by ring.
    apply Rmult_le_compat; nra. }
  assert (Hss2 : (s * s <= q * ((1 + eps) * (1 + eps)))%R).
  { rewrite <- Esq.
    replace (c * c * ((1 + eps) * (1 + eps)))%R
      with ((c * (1 + eps)) * (c * (1 + eps)))%R by ring.
    apply Rmult_le_compat; nra. }
  set (t := (s * s * r)%R).
  assert (Ht1 : (a * (1 - 3 * eps) <= t)%R).
  { assert (B : (q * r * ((1 - eps) * (1 - eps)) <= t)%R).
    { unfold t.
      replace (q * r * ((1 - eps) * (1 - eps)))%R
        with (q * ((1 - eps) * (1 - eps)) * r)%R by ring.
      apply Rmult_le_compat_r; lra. }
    assert (C : (a * (1 - eps) * ((1 - eps) * (1 - eps))
                 <= q * r * ((1 - eps) * (1 - eps)))%R).
    { apply Rmult_le_compat_r; [nra | lra]. }
    assert (D : (a * (1 - 3 * eps)
                 <= a * (1 - eps) * ((1 - eps) * (1 - eps)))%R).
    { assert (0 <= a * (eps * eps) * (3 - eps))%R
        by (apply Rmult_le_pos; [nra | lra]).
      nra. }
    lra. }
  assert (Ht2 : (t <= a * (1 + 4 * eps))%R).
  { assert (B : (t <= q * r * ((1 + eps) * (1 + eps)))%R).
    { unfold t.
      replace (q * r * ((1 + eps) * (1 + eps)))%R
        with (q * ((1 + eps) * (1 + eps)) * r)%R by ring.
      apply Rmult_le_compat_r; lra. }
    assert (C : (q * r * ((1 + eps) * (1 + eps))
                 <= a * (1 + eps) * ((1 + eps) * (1 + eps)))%R).
    { apply Rmult_le_compat_r; [nra | lra]. }
    assert (D : (a * (1 + eps) * ((1 + eps) * (1 + eps))
                 <= a * (1 + 4 * eps))%R).
    { assert (0 <= a * eps * (1 - 3 * eps - eps * eps))%R
        by (apply Rmult_le_pos; nra).
      nra. }
    lra. }
  split.
  - (* the rectangle covers *)
    assert (B1 : (t <= h * h * r)%R).
    { unfold t. apply Rmult_le_compat_r; [lra |]. apply Rmult_le_compat; lra. }
    assert (B2 : (h * h * r * (1 - eps) <= p * h)%R).
    { replace (h * h * r * (1 - eps))%R with (h * r * (1 - eps) * h)%R by ring.
      apply Rmult_le_compat_r; lra. }
    assert (B3 : (p * h <= w * h)%R) by (apply Rmult_le_compat_r; lra).
    assert (B4 : (a * (1 - 3 * eps) * (1 - eps) <= h * h * r * (1 - eps))%R).
    { apply Rmult_le_compat_r; lra. }
    nra.
  - (* and not by much *)
    assert (Hwpos : (0 < w)%R) by lra.
    destruct Hint as [-> | [-> | Hh3]]; [nra | nra |].
    assert (B1 : ((h - 1) * (h - 1) * r <= t)%R).
    { unfold t. apply Rmult_le_compat_r; [lra |].
      apply Rmult_le_compat; lra. }
    assert (B2 : (h * r <= (h - 1) * (h - 1) * r)%R).
    { apply Rmult_le_compat_r; [lra | nra]. }
    assert (B3 : (h * r <= 2 * a)%R) by nra.
    assert (B4 : (w * h < (h * r * (1 + eps) + 1) * h)%R).
    { apply Rmult_lt_compat_r; lra. }
    assert (B5 : (h * h * r <= t + 2 * (h * r) - r)%R) by nra.
    assert (B6 : (h * h * r * (1 + eps)
                  <= (t + 2 * (h * r) - r) * (1 + eps))%R).
    { apply Rmult_le_compat_r; lra. }
    assert (B7 : (t * (1 + eps) <= a + 3 / 8)%R).
    { assert (t * (1 + eps) <= a * (1 + 4 * eps) * (1 + eps))%R
        by (apply Rmult_le_compat_r; lra).
      assert (a * (eps * eps) <= a * eps * (1 / 16))%R.
      { replace (a * (eps * eps))%R with (a * eps * eps)%R by ring.
        apply Rmult_le_compat_l; nra. }
      nra. }
    assert (B8 : (h * r * eps <= 1 / 8)%R).
    { assert (h * r * eps <= 2 * a * eps)%R
        by (apply Rmult_le_compat_r; lra).
      lra. }
    assert (B9 : (0 < r * (1 + eps))%R) by (apply Rmult_lt_0_compat; lra).
    nra.
Qed.

Lemma b64_finite_val_pos (lo hi : Z) (x : spec_float) :
  b64_finite lo hi x -> (0 < b64_val x)%R.
Proof.
  intros (m & e & -> & _). cbn [b64_val]. rewrite Rmult_1_l.
  apply Rmult_lt_0_compat; [apply IZR_lt; lia | apply bpow_pos].
Qed.

Lemma b64_finite_val_lt (lo hi : Z) (x : spec_float) :
  b64_finite lo hi x -> (b64_val x < bpow hi)%R.
Proof.
  intros (m & e & -> & _ & Hm). cbn [b64_val]. rewrite Rmult_1_l.
  set (d := B64.digits (Zpos m)) in *.
  destruct (digits_spec (Zpos m) ltac:(lia)) as [_ H]. fold d in H.
  pose proof (digits_pos (Zpos m) ltac:(lia)) as Hd. fold d in Hd.
  apply IZR_lt in H. rewrite bpow_IZR in H by lia.
  apply Rlt_le_trans with (bpow d * bpow e)%R.
  - apply Rmult_lt_compat_r; [apply bpow_pos | exact H].
  - rewrite <- bpow_add. apply bpow_le. lia.
Qed.

Lemma b64_finite_not_negative (lo hi : Z) (x : spec_float) :
  b64_finite lo hi x -> @ltb binary64 x (of_int 0) = false.
Proof. intros (m & e & -> & _). reflexivity. Qed.

(** [math.ceil] of a positive finite double below 2^hi. *)
Lemma b64_math_ceil (lo hi : Z) (x : spec_float) :
  b64_finite lo hi x -> 0 <= hi ->
  exists n,
    @math_ceil binary64 x = Ok n
    /\ 1 <= n <= 2 ^ hi
    /\ (IZR n - 1 < b64_val x <= IZR n)%R.
Proof.
  intros Hx Hhi.
  pose proof (b64_finite_val_pos _ _ _ Hx) as Hpos.
  pose proof (b64_finite_val_lt _ _ _ Hx) as Hlt.
  destruct Hx as (m & e & -> & _).
  destruct (b64_ceil_spec m e) as (n & En & Hn1 & Hn2).
  exists n. unfold math_ceil. cbn [ceil binary64]. rewrite En.
  split; [reflexivity |]. split; [| split; assumption].
  rewrite <- bpow_IZR in Hlt by exact Hhi.
  split.
  - assert (H : (IZR 0 < IZR n)%R) by (simpl; lra).
    apply lt_IZR in H. lia.
  - assert (H : (IZR (n - 1) < IZR (2 ^ hi))%R)
      by (rewrite minus_IZR; lra).
    apply lt_IZR in H. lia.
Qed.

(** The quotient of two positive ints below 2^53. *)
Lemma b64_int_div_finite (a b : Z) :
  0 < a < 2 ^ 53 -> 0 < b < 2 ^ 53 ->
  exists r, B64.int_div a b = Some r /\ b64_finite (-52) 54 r.
Proof.
  intros Ha Hb. destruct a as [| pa | pa]; try lia.
  destruct b as [| pb | pb]; try lia.
  destruct (digits_below (Zpos pa) 53 Ha) as [Ha1 Ha2].
  destruct (digits_below (Zpos pb) 53 Hb) as [Hb1 Hb2].
  destruct (sfdiv_near pa pb 0 0 ltac:(lia))
    as [(m & e & E & Hc & Hm) _].
  unfold B64.int_div. cbn [B64.unrounded]. rewrite E.
  eexists. split; [reflexivity |].
  exists m, e. split; [reflexivity |]. split; [exact Hc | lia].
Qed.

(** In double precision, for a strip of fewer than 2^48 pixels and a ratio
    of two positive ints below 2^53, every step of the computation returns,
    and the rectangle covers the strip, with at most 2 * width + height
    pixels to spare. *)
Lemma b64_rect_dims_bounds (area ratio_w ratio_h : Z) :
  1 <= area < 2 ^ 48 -> 0 < ratio_w < 2 ^ 53 -> 0 < ratio_h < 2 ^ 53 ->
  exists target_ratio width height,
    @py_int_truediv binary64 ratio_w ratio_h = Ok target_ratio
    /\ @math_ceil binary64 (sqrt (div (of_int area) target_ratio)) = Ok height
    /\ @math_ceil binary64 (mul (of_int height) target_ratio) = Ok width
    /\ @rect_dims binary64 area ratio_w ratio_h = Ok (width, height)
    /\ 1 <= width /\ 1 <= height
    /\ area <= width * height
    /\ width * height - area <= 2 * width + height.
Proof.
  intros Ha Hw Hh.
  destruct (b64_int_div_finite ratio_w ratio_h Hw Hh) as (r & Er & Hr).
  destruct (b64_of_int_exact area ltac:(lia)) as [Hfa Hva].
  destruct (digits_below area 48 ltac:(lia)) as [Hda1 Hda2].
  (* the quotient *)
  assert (Hq : b64_near (-53) 102 (IZR area / b64_val r)
                 (SFdiv B64.prec B64.emax (B64.of_int area) r)).
  { destruct Hfa as (ma & ea & Ea & Hca & Hma).
    rewrite Ea in Hva |- *.
    destruct Hr as (mr & er & -> & Hcr & Hmr).
    rewrite <- Hva. cbn [b64_val]. rewrite !Rmult_1_l.
    eapply b64_near_weaken; [| | apply sfdiv_near]; lia. }
  destruct Hq as [Hfq Hvq].
  set (q := SFdiv B64.prec B64.emax (B64.of_int area) r) in *.
  (* the square root *)
  assert (Hs : b64_near (-26) 52 (R_sqrt.sqrt (b64_val q))
                 (SFsqrt B64.prec B64.emax q)).
  { destruct Hfq as (mq & eq & Eq & Hcq & Hmq). rewrite Eq.
    cbn [b64_val]. rewrite Rmult_1_l.
    assert (Hdiv : -26 <= Z.div2 (B64.digits (Z.pos mq) + eq + 1) <= 51).
    { rewrite Z.div2_div.
      pose proof (Z.div_mod (B64.digits (Z.pos mq) + eq + 1) 2 ltac:(lia)).
      pose proof (Z.mod_pos_bound (B64.digits (Z.pos mq) + eq + 1) 2
                    ltac:(lia)).
      lia. }
    eapply b64_near_weaken; [| | apply sfsqrt_near]; lia. }
  destruct Hs as [Hfs Hvs].
  set (s := SFsqrt B64.prec B64.emax q) in *.
  destruct (b64_math_ceil _ _ s Hfs ltac:(lia)) as (h & Eh & Hh1 & Hvh).
  (* the product *)
  destruct (b64_of_int_exact h ltac:(lia)) as [Hfh Hvh'].
  destruct (digits_below h 53 ltac:(lia)) as [Hdh1 Hdh2].
  assert (Hp : b64_near (-52) 108 (IZR h * b64_val r)
                 (SFmul B64.prec B64.emax (B64.of_int h) r)).
  { rewrite <- Hvh'.
    eapply b64_near_weaken;
      [| | apply (sfmul_near _ _ 1 53 (-52) 54); try lia; try exact Hr];
      try lia.
    destruct Hfh as (mh & eh & Eh' & Hch & Hmh).
    exists mh, eh. split; [exact Eh' |]. split; [exact Hch | lia]. }
  destruct Hp as [Hfp Hvp].
  set (p := SFmul B64.prec B64.emax (B64.of_int h) r) in *.
  destruct (b64_math_ceil _ _ p Hfp ltac:(lia)) as (w & Ew & Hw1 & Hvw).
  assert (Etr : @py_int_truediv binary64 ratio_w ratio_h = Ok r).
  { unfold py_int_truediv. cbn [int_div binary64].
    destruct (Z.eqb_spec ratio_h 0) as [E0 | _]; [lia |].
    rewrite Er. reflexivity. }
  exists r, w, h.
  split; [exact Etr |]. split; [exact Eh |]. split; [exact Ew |].
  split.
  { unfold rect_dims. rewrite Etr. unfold py_truediv, math_sqrt.
    cbn [bind].
    rewrite (b64_finite_nonzero _ _ _ Hr). cbn [bind].
    change (@div binary64 (@of_int binary64 area) r) with q.
    rewrite (b64_finite_not_negative _ _ _ Hfq). cbn [bind].
    change (@sqrt binary64 q) with s. rewrite Eh. cbn [bind].
    change (@mul binary64 (@of_int binary64 h) r) with p.
    rewrite Ew. reflexivity. }
  split; [lia |]. split; [lia |].
  (* the bounds, on real numbers *)
  pose proof (b64_finite_val_pos _ _ _ Hr) as Hrpos.
  assert (He : (0 < bpow (-52) <= 1 / 16)%R).
  { split; [apply bpow_pos |].
    apply Rle_trans with (bpow (-4)); [apply bpow_le; lia |].
    simpl. lra. }
  assert (Ha1 : (1 <= IZR area)%R) by (apply IZR_le; lia).
  assert (Hae : (IZR area * bpow (-52) <= 1 / 16)%R).
  { assert (H48 : (IZR area <= bpow 48)%R).
    { rewrite <- bpow_IZR by lia. apply IZR_le. lia. }
    apply Rle_trans with (bpow 48 * bpow (-52))%R.
    - apply Rmult_le_compat_r; lra.
    - rewrite <- bpow_add. simpl. lra. }
  assert (Hint : (IZR h = 1 \/ IZR h = 2 \/ 3 <= IZR h)%R).
  { destruct (Z.eq_dec h 1) as [-> | N1]; [left; reflexivity |].
    destruct (Z.eq_dec h 2) as [-> | N2]; [right; left; reflexivity |].
    right; right. apply IZR_le. lia. }
  destruct (dims_bounds_near (bpow (-52)) (IZR area) (b64_val r) (b64_val q)
              (b64_val s) (IZR h) (b64_val p) (IZR w)
              He Ha1 Hae Hrpos Hvq Hvs Hvh Hint Hvp Hvw) as [B1 B2].
  split.
  - assert (H : (IZR (area - 1) < IZR (w * h))%R)
      by (rewrite minus_IZR, mult_IZR; lra).
    apply lt_IZR in H. lia.
  - assert (H : (IZR (w * h - area - 2 * w - h) < IZR 1)%R)
      by (rewrite !minus_IZR, !mult_IZR; simpl; lra).
    apply lt_IZR in H. lia.
Qed.

(** C2, as stated.  Thirteen pixels at 4:3 are packed into 6 x 4, in
    double precision and in exact arithmetic, and 24 - 13 is not below
    6 + 4.  In double precision 315 pixels at 7:5 are packed into 23 x 16,
    where the formulas in exact arithmetic give 21 x 15; 2^52 + 1 pixels at
    1:1 would be packed into 2^26 x 2^26, which is one pixel short; and a
    ratio whose quotient is too small or too large for a double makes the
    packer raise. *)
Lemma thirteen_pixels_at_4_3 :
  (@rect_dims binary64 13 4 3 = Ok (6, 4)
   /\ @rect_dims exact 13 4 3 = Ok (6, 4)
   /\ ~ (6 * 4 - 13 < 6 + 4))
  /\ (@rect_dims binary64 315 7 5 = Ok (23, 16)
      /\ @rect_dims exact 315 7 5 = Ok (21, 15))
  /\ (@rect_dims binary64 (2 ^ 52 + 1) 1 1 = Ok (2 ^ 26, 2 ^ 26)
      /\ ~ (2 ^ 52 + 1 <= 2 ^ 26 * 2 ^ 26))
  /\ @rect_dims binary64 1 1 (2 ^ 1080) = Raise ZeroDivisionError
  /\ @rect_dims binary64 1 (2 ^ 1030) 1 = Raise OverflowError.
Proof.
  split; [| split; [| split; [| split]]].
  - split; [vm_compute; reflexivity |].
    split; [apply exact_dims_checked; try lia; vm_compute; reflexivity | lia].
  - split; [vm_compute; reflexivity |].
    apply exact_dims_checked; try lia; vm_compute; reflexivity.
  - split; [vm_compute; reflexivity | lia].
  - vm_compute. reflexivity.
  - vm_compute. reflexivity.
Qed.

(** C2 (amended): for every non-empty strip of fewer than 2^48 pixels and
    every ratio w:h of positive ints below 2^53, the packer returns: it
    computes, in double precision, height = ceil(sqrt(area / (w/h))) and
    width = ceil(height * (w/h)), and returns width * height pixels; these
    dimensions satisfy width * height >= area and
    width * height - area <= 2 * width + height.  The same formulas in exact
    arithmetic, for every non-empty strip and every positive ratio, give
    width * height >= area and width * height - area < 2 * width + height. *)
Theorem rect_dims_cover_the_strip
    (pillow noise : bool) (strip : loc) (ratio_w ratio_h : Z) (w : world) :
  heap_get (heap w) strip <> [] ->
  0 < ratio_w -> 0 < ratio_h ->
  let area := Z.of_nat (length (heap_get (heap w) strip)) in
  (area < 2 ^ 48 -> ratio_w < 2 ^ 53 -> ratio_h < 2 ^ 53 ->
   exists target_ratio width height p w',
     @py_int_truediv binary64 ratio_w ratio_h = Ok target_ratio
     /\ @math_ceil binary64 (sqrt (div (of_int area) target_ratio))
        = Ok height
     /\ @math_ceil binary64 (mul (of_int height) target_ratio) = Ok width
     /\ color_strip_to_rect_image (A := binary64) pillow strip
          (ratio_w, ratio_h) noise w = (Ok p, w')
     /\ packed_dims p = (width, height)
     /\ Z.of_nat (length (packed_data (heap w') p)) = width * height
     /\ area <= width * height
     /\ width * height - area <= 2 * width + height)
  /\ (let target_ratio := (IZR ratio_w / IZR ratio_h)%R in
      let height := Exact.ceil (R_sqrt.sqrt (IZR area / target_ratio)) in
      let width := Exact.ceil (IZR height * target_ratio) in
      @rect_dims exact area ratio_w ratio_h = Ok (width, height)
      /\ area <= width * height
      /\ width * height - area < 2 * width + height).
Proof.
  intros Hne Hw Hh area.
  assert (Harea : 0 < area).
  { unfold area. destruct (heap_get (heap w) strip); [contradiction |].
    simpl length. lia. }
  split.
  - intros Ha Hw53 Hh53.
    destruct (b64_rect_dims_bounds area ratio_w ratio_h
                ltac:(lia) ltac:(lia) ltac:(lia))
      as (r & width & height & Er & Eh & Ew & Hdims & Hw1 & Hh1 & B1 & B2).
    destruct (packer_effect (A := binary64) pillow noise strip ratio_w ratio_h
                w width height Hne Hw Hh Hdims)
      as (p & w' & padding & H1 & H2 & H3 & H4 & _ & H6 & _).
    exists r, width, height, p, w'.
    split; [exact Er |]. split; [exact Eh |]. split; [exact Ew |].
    split; [exact H1 |]. split; [exact H2 |].
    split; [| split; [exact B1 | exact B2]].
    rewrite H6. unfold py_prefix.
    assert (E : (0 <=? width * height) = true) by (apply Z.leb_le; lia).
    rewrite E, length_firstn, length_app, H4. fold area. lia.
  - cbv zeta.
    pose proof (exact_rect_dims area ratio_w ratio_h Harea Hw Hh) as Hdims.
    pose proof (exact_dims_bounds area ratio_w ratio_h Harea Hw Hh)
      as [B1 B2].
    split; [exact Hdims |]. split; [exact B1 | exact B2].
Qed.

Lemma rect_dims_cover_the_strip_witness :
  heap_get (heap thirteen_pixels) 0%nat <> []
  /\ exists p w',
       color_strip_to_rect_image (A := binary64) false 0%nat (4, 3) false
         thirteen_pixels = (Ok p, w')
       /\ Z.of_nat (length (packed_data (heap w') p))
          = fst (packed_dims p) * snd (packed_dims p)
       /\ 13 <= fst (packed_dims p) * snd (packed_dims p).
Proof.
  assert (H : heap_get (heap thirteen_pixels) 0%nat <> []) by discriminate.
  split; [exact H |].
  destruct (rect_dims_cover_the_strip false false 0%nat 4 3 thirteen_pixels
              H ltac:(lia) ltac:(lia)) as [Hb64 _].
  destruct (Hb64 ltac:(vm_compute; reflexivity) ltac:(lia) ltac:(lia))
    as (r & width & height & p & w' & _ & _ & _ & H1 & H2 & H3 & H4 & _).
  exists p, w'. split; [exact H1 |]. rewrite H2. cbn [fst snd].
  split; [exact H3 | exact H4].
Defined.

(** ** The PNG writer *)

Lemma pack_I_be32 (n : Z) : 0 <= n < 2 ^ 32 -> pack_I n = Ok (be32 n).
Proof.
  intros Hn. unfold pack_I, be32.
  assert (E : (0 <=? n) && (n <? 4294967296) = true).
  { apply andb_true_iff. split; [apply Z.leb_le | apply Z.ltb_lt]; lia. }
  rewrite E. change 255 with (Z.ones 8).
  rewrite !Z.land_ones, !Z.shiftr_div_pow2 by lia. reflexivity.
Qed.

Lemma digit_mod (n q c : Z) :
  0 < c -> (n - c * 256 * q) / c mod 256 = n / c mod 256.
Proof.
  intros Hc.
  replace (n - c * 256 * q) with (n + (- (256 * q)) * c) by ring.
  rewrite Z.div_add by lia.
  replace (n / c + - (256 * q)) with (n / c + (- q) * 256) by ring.
  apply Z_mod_plus_full.
Qed.

Lemma be32_mod (n : Z) : be32 (n mod 4294967296) = be32 n.
Proof.
  unfold be32. rewrite (Z.mod_eq n 4294967296) by lia.
  set (q := n / 4294967296).
  f_equal; [| f_equal; [| f_equal; [| f_equal]]].
  - replace (4294967296 * q) with (16777216 * 256 * q) by ring.
    apply digit_mod. lia.
  - replace (4294967296 * q) with (65536 * 256 * (256 * q)) by ring.
    apply digit_mod. lia.
  - replace (4294967296 * q) with (256 * 256 * (65536 * q)) by ring.
    apply digit_mod. lia.
  - replace (n - 4294967296 * q) with (n + (- (16777216 * q)) * 256) by ring.
    apply Z_mod_plus_full.
Qed.

Lemma bytearray_append_ok (raw : list Z) (b : Z) :
  byte_ok b = true -> bytearray_append raw b = Ok (raw ++ [b]).
Proof. intros H. unfold bytearray_append. rewrite H. reflexivity. Qed.

Lemma list_index_nth {T : Type} (l : list T) (i : nat) (v : T) :
  nth_error l i = Some v -> list_index l (Z.of_nat i) = Ok v.
Proof.
  intros H. unfold list_index.
  assert (Hi : (i < length l)%nat) by (apply nth_error_Some; congruence).
  assert (E1 : (Z.of_nat i <? 0) = false) by (apply Z.ltb_ge; lia).
  rewrite E1.
  assert (E2 : (0 <=? Z.of_nat i) && (Z.of_nat i <? Z.of_nat (length l)) = true).
  { apply andb_true_iff. split; [apply Z.leb_le | apply Z.ltb_lt]; lia. }
  rewrite E2, Nat2Z.id, H. reflexivity.
Qed.

Lemma skipn_cons_nth {T : Type} (l : list T) (i : nat) (v : T) :
  nth_error l i = Some v -> skipn i l = v :: skipn (S i) l.
Proof.
  revert l. induction i as [| i IH]; intros [| x l] H; simpl in *;
    try discriminate.
  - inversion H; reflexivity.
  - apply IH. exact H.
Qed.

Section PngFacts.
Variable zlib_compress : list Z -> Z -> list Z.
Variable data : list pixel.
Hypothesis data_ok : Forall pixel_ok data.

(** One row: the pixels from [rs + a] on, [k] of them. *)
Lemma row_loop_spec (rs k a : nat) (raw : list Z) :
  (rs + a + k <= length data)%nat ->
  row_loop data (Z.of_nat rs) (map Z.of_nat (seq a k)) raw
  = Ok (raw ++ flat_map pixel_bytes (firstn k (skipn (rs + a) data))).
Proof.
  revert a raw. induction k as [| k IH]; intros a raw Hlen.
  - simpl. rewrite app_nil_r. reflexivity.
  - cbn [seq map row_loop].
    destruct (nth_error data (rs + a)) as [[[r g] b] |] eqn:En.
    2: { apply nth_error_None in En. lia. }
    replace (Z.of_nat rs + Z.of_nat a) with (Z.of_nat (rs + a)) by lia.
    rewrite (list_index_nth _ _ _ En). cbn [bind].
    assert (Hp : pixel_ok (r, g, b)).
    { rewrite Forall_forall in data_ok. apply data_ok.
      eapply nth_error_In; eassumption. }
    destruct Hp as (Hr & Hg & Hb).
    cbn [bytearray_extend].
    rewrite (bytearray_append_ok raw r Hr). cbn [bind].
    rewrite (bytearray_append_ok _ g Hg). cbn [bind].
    rewrite (bytearray_append_ok _ b Hb). cbn [bind].
    rewrite IH by lia.
    rewrite (skipn_cons_nth _ _ _ En). cbn [firstn flat_map pixel_bytes].
    replace (rs + S a)%nat with (S (rs + a)) by lia.
    rewrite <- !app_assoc. reflexivity.
Qed.

(** The rows from [b] on, [rows] of them. *)
Lemma scanline_loop_spec (wn rows b : nat) (raw : list Z) :
  ((b + rows) * wn <= length data)%nat ->
  scanline_loop data (Z.of_nat wn) (map Z.of_nat (seq b rows)) raw
  = Ok (raw ++ scanlines wn rows (skipn (b * wn) data)).
Proof.
  revert b raw. induction rows as [| rows IH]; intros b raw Hlen.
  - simpl. rewrite app_nil_r. reflexivity.
  - cbn [seq map scanline_loop].
    rewrite bytearray_append_ok by reflexivity. cbn [bind].
    unfold py_range. rewrite Nat2Z.id.
    replace (Z.of_nat b * Z.of_nat wn) with (Z.of_nat (b * wn)) by lia.
    rewrite row_loop_spec by lia. cbn [bind].
    rewrite IH by lia.
    rewrite Nat.add_0_r. cbn [scanlines].
    rewrite skipn_skipn.
    replace (wn + b * wn)%nat with (S b * wn)%nat by lia.
    rewrite <- !app_assoc. reflexivity.
Qed.

Lemma chunk_framed (tag : string) (payload : list Z) :
  Z.of_nat (length payload) < 2 ^ 32 ->
  chunk (bytes_of_string tag) payload = Ok (framed tag payload).
Proof.
  intros Hlen. unfold chunk, framed.
  rewrite pack_I_be32 by lia. cbn [bind].
  change 4294967295 with (Z.ones 32). rewrite Z.land_ones by lia.
  rewrite pack_I_be32 by (apply Z.mod_pos_bound; lia).
  cbn [bind]. change (2 ^ 32) with 4294967296. rewrite be32_mod.
  reflexivity.
Qed.

(** C8: given width, height and a buffer of exactly width * height RGB
    triples of bytes, the built-in encoder emits exactly the 8-byte
    signature, a header chunk (width, height, bit depth 8, colour type 2,
    three zero fields), one data chunk whose payload is the level-9
    compression of the scanlines, each a filter byte 0 followed by 3 bytes
    per pixel, and an empty end chunk, every chunk framed as big-endian
    length, tag, payload and CRC-32 over tag and payload. *)
Theorem write_png_emits_the_layout (width height : Z) :
  0 <= width < 2 ^ 32 ->
  0 <= height < 2 ^ 32 ->
  Z.of_nat (length data) = width * height ->
  Z.of_nat (length (zlib_compress
                      (scanlines (Z.to_nat width) (Z.to_nat height) data) 9))
  < 2 ^ 32 ->
  _write_png zlib_compress width height data
  = Ok (png_layout zlib_compress width height data).
Proof.
  intros Hw Hh Hlen Hz. unfold _write_png, png_layout.
  unfold py_range at 1.
  rewrite <- (Z2Nat.id width) at 1 by lia.
  rewrite (scanline_loop_spec (Z.to_nat width) (Z.to_nat height) 0 [])
    by nia.
  cbn [bind app]. rewrite Nat.mul_0_l. cbn [skipn].
  unfold pack_header.
  rewrite !pack_I_be32 by lia. cbn [bind].
  change (pack_B 8) with (@Ok (list Z) [8]).
  change (pack_B 2) with (@Ok (list Z) [2]).
  change (pack_B 0) with (@Ok (list Z) [0]). cbn [bind].
  rewrite (chunk_framed "IHDR") by (simpl; lia). cbn [bind].
  rewrite (chunk_framed "IDAT") by exact Hz. cbn [bind].
  rewrite (chunk_framed "IEND") by (simpl; lia). cbn [bind].
  reflexivity.
Qed.
End PngFacts.

Lemma write_png_emits_the_layout_witness :
  _write_png stored 2 1 [(1, 2, 3); (4, 5, 6)]
  = Ok (png_layout stored 2 1 [(1, 2, 3); (4, 5, 6)]).
Proof.
  apply (write_png_emits_the_layout stored [(1, 2, 3); (4, 5, 6)]).
  - repeat constructor.
  - lia.
  - lia.
  - reflexivity.
  - vm_compute. reflexivity.
Defined.

(** * Further properties of the program *)

(** ** Ranges *)

Lemma py_range_In (n i : Z) : 0 <= i < n -> In i (py_range n).
Proof.
  intros Hi. unfold py_range. apply in_map_iff.
  exists (Z.to_nat i). split; [lia | apply in_seq; lia].
Qed.

Lemma py_range_In_inv (n i : Z) : In i (py_range n) -> 0 <= i < n.
Proof.
  unfold py_range. intros H. apply in_map_iff in H as (k & <- & Hk).
  apply in_seq in Hk. lia.
Qed.

Lemma forallb_py_range (f : Z -> bool) (n i : Z) :
  forallb f (py_range n) = true -> 0 <= i < n -> f i = true.
Proof.
  intros H Hi. rewrite forallb_forall in H. apply H, py_range_In, Hi.
Qed.

Lemma py_range_nonpositive (n : Z) : n <= 0 -> py_range n = [].
Proof.
  intros Hn. unfold py_range. replace (Z.to_nat n) with 0%nat by lia.
  reflexivity.
Qed.

Lemma firstn_seq_le (a n j : nat) :
  (j <= n)%nat -> firstn j (seq a n) = seq a j.
Proof.
  revert a n. induction j as [| j IH]; intros a n Hj; [reflexivity |].
  destruct n as [| n]; [lia |]. simpl. rewrite IH by lia. reflexivity.
Qed.

Lemma py_range_firstn (n : Z) (j : nat) :
  (j <= Z.to_nat n)%nat -> firstn j (py_range n) = py_range (Z.of_nat j).
Proof.
  intros Hj. unfold py_range. rewrite firstn_map, Nat2Z.id. f_equal.
  apply firstn_seq_le. exact Hj.
Qed.

(** ** Note names *)

Lemma py_str_inj (a b : Z) : py_str a = py_str b -> a = b.
Proof.
  unfold py_str. intros H.
  assert (Hn : forall z, Z.to_int z <> Decimal.Pos Decimal.Nil
                         /\ Z.to_int z <> Decimal.Neg Decimal.Nil).
  { intros [| p | p]; simpl; split; try discriminate; intros E;
      inversion E as [E1]; exact (DecimalPos.Unsigned.to_uint_nonnil p E1). }
  assert (E : Some (Z.to_int a) = Some (Z.to_int b)).
  { rewrite <- (DecimalString.NilZero.isi (Z.to_int a)) by (apply (Hn a)).
    rewrite <- (DecimalString.NilZero.isi (Z.to_int b)) by (apply (Hn b)).
    rewrite H. reflexivity. }
  inversion E as [E1].
  rewrite <- (DecimalZ.of_to a), <- (DecimalZ.of_to b), E1. reflexivity.
Qed.

(** A printed int begins with a digit or with the minus sign. *)
Lemma py_str_head (z : Z) :
  exists c s, py_str z = String c s /\ c <> "#"%char.
Proof.
  unfold py_str. destruct (Z.to_int z) as [u | u]; simpl.
  - destruct u; simpl; eexists _, _; (split; [reflexivity | discriminate]).
  - eexists _, _. split; [reflexivity | discriminate].
Qed.

(** No pitch name followed by a printed int begins like another one. *)
Lemma note_name_prefix (i j : nat) (c1 c2 : ascii) (s1 s2 : string) :
  (i < 12)%nat -> (j < 12)%nat ->
  c1 <> "#"%char -> c2 <> "#"%char ->
  (nth i NOTE_NAMES EmptyString ++ String c1 s1
   = nth j NOTE_NAMES EmptyString ++ String c2 s2)%string ->
  i = j /\ String c1 s1 = String c2 s2.
Proof.
  intros Hi Hj H1 H2.
  do 12 (destruct i as [| i]; [
    do 12 (destruct j as [| j]; [
      simpl; intros H; inversion H; subst;
      try (split; reflexivity); exfalso; congruence |]); lia |]).
  lia.
Qed.

(** X1: two note numbers with the same name are the same number: the name
    tells the pitch class and the octave, for every int, negative ones
    included. *)
Theorem note_number_to_name_injective (n1 n2 : Z) :
  note_number_to_name n1 = note_number_to_name n2 -> n1 = n2.
Proof.
  unfold note_number_to_name. intros H.
  destruct (py_str_head (n1 / 12 - 1)) as (c1 & s1 & E1 & Hc1).
  destruct (py_str_head (n2 / 12 - 1)) as (c2 & s2 & E2 & Hc2).
  rewrite E1, E2 in H.
  pose proof (Z.mod_pos_bound n1 12 ltac:(lia)) as B1.
  pose proof (Z.mod_pos_bound n2 12 ltac:(lia)) as B2.
  apply note_name_prefix in H as [Hpc Hoct]; try lia; try assumption.
  rewrite <- E1, <- E2 in Hoct. apply py_str_inj in Hoct.
  rewrite (Z.div_mod n1 12), (Z.div_mod n2 12) by lia.
  assert (n1 mod 12 = n2 mod 12) by lia. lia.
Qed.

Lemma note_number_to_name_injective_witness :
  note_number_to_name 60 = "C4"%string
  /\ note_number_to_name (-1) = "B-2"%string
  /\ 60 = 60.
Proof.
  split; [reflexivity |]. split; [reflexivity |].
  apply (note_number_to_name_injective 60 60). reflexivity.
Defined.

(** ** The colours in double precision *)

Lemma pixel_okb_spec (p : pixel) : pixel_okb p = true <-> pixel_ok p.
Proof.
  destruct p as [[r g] b]. unfold pixel_okb, pixel_ok.
  rewrite !andb_true_iff. tauto.
Qed.

Lemma pixel_eqb_eq (p q : pixel) : pixel_eqb p q = true <-> p = q.
Proof.
  destruct p as [[r1 g1] b1], q as [[r2 g2] b2]. simpl.
  rewrite !andb_true_iff, !Z.eqb_eq. split.
  - intros [[-> ->] ->]. reflexivity.
  - intros E. inversion E. auto.
Qed.

Lemma channels_le_trans (p q r : pixel) :
  channels_le p q = true -> channels_le q r = true -> channels_le p r = true.
Proof.
  destruct p as [[r1 g1] b1], q as [[r2 g2] b2], r as [[r3 g3] b3]. simpl.
  rewrite !andb_true_iff, !Z.leb_le. lia.
Qed.

Lemma channels_le_refl (p : pixel) : channels_le p p = true.
Proof.
  destruct p as [[r1 g1] b1]. simpl. rewrite !andb_true_iff, !Z.leb_le. lia.
Qed.

Lemma all_different_nth (l : list pixel) (i j : nat) (d : pixel) :
  all_different l = true -> (i < j)%nat -> (j < length l)%nat ->
  nth i l d <> nth j l d.
Proof.
  revert i j. induction l as [| p l IH]; intros i j H Hij Hj; simpl in *;
    [lia |].
  apply andb_true_iff in H as [Hp Hl].
  destruct j as [| j]; [lia |]. destruct i as [| i].
  - intros E. apply negb_true_iff in Hp.
    assert (Hex : existsb (pixel_eqb p) l = true).
    { apply existsb_exists. exists (nth j l d). split.
      - apply nth_In. lia.
      - apply pixel_eqb_eq. exact E. }
    congruence.
  - apply IH; [exact Hl | lia | lia].
Qed.

(** The table of the colour mapper: for the 12 pitch classes and the 128
    velocities, every colour is made of bytes and is at most the palette's. *)
Lemma b64_colors_table :
  forallb (fun pc =>
    forallb (fun v =>
      pixel_okb (@color_for_note binary64 pc v)
      && channels_le (@color_for_note binary64 pc v) (base_color pc))
      (py_range 128)) (py_range 12) = true.
Proof. vm_compute. reflexivity. Qed.

(** One step of velocity darkens no channel. *)
Lemma b64_colors_steps :
  forallb (fun pc =>
    forallb (fun v =>
      channels_le (@color_for_note binary64 pc v)
                  (@color_for_note binary64 pc (v + 1)))
      (py_range 127)) (py_range 12) = true.
Proof. vm_compute. reflexivity. Qed.

Lemma b64_colors_full :
  forallb (fun pc => pixel_eqb (@color_for_note binary64 pc 127) (base_color pc))
    (py_range 12) = true.
Proof. vm_compute. reflexivity. Qed.

Lemma b64_palettes_differ :
  forallb (fun v => all_different (b64_palette v)) (py_range 128) = true.
Proof. vm_compute. reflexivity. Qed.

Lemma base_color_class (n : Z) : base_color n = base_color (n mod 12).
Proof. unfold base_color. rewrite Z.mod_mod by lia. reflexivity. Qed.

Lemma clamp_velocity_range (v : Z) : 0 <= clamp_velocity v < 128.
Proof. unfold clamp_velocity. lia. Qed.

Lemma b64_color_classes (n v : Z) :
  @color_for_note binary64 n v
  = @color_for_note binary64 (n mod 12) (clamp_velocity v).
Proof. apply (color_for_note_classes (A := binary64)). Qed.

Lemma b64_color_ok (note_number velocity : Z) :
  pixel_ok (@color_for_note binary64 note_number velocity).
Proof.
  rewrite b64_color_classes.
  pose proof (Z.mod_pos_bound note_number 12 ltac:(lia)) as Hpc.
  pose proof (forallb_py_range _ _ _ b64_colors_table Hpc) as H.
  cbv beta in H.
  pose proof (forallb_py_range _ _ _ H (clamp_velocity_range velocity)) as H1.
  cbv beta in H1. apply andb_true_iff in H1 as [Hok _].
  apply pixel_okb_spec. exact Hok.
Qed.

(** X2: in double precision, for every note number and every velocity, the
    mapped colour is an RGB triple of bytes (0..255), and no channel exceeds
    the palette colour of the pitch class. *)
Theorem color_for_note_is_rgb (note_number velocity : Z) :
  pixel_ok (@color_for_note binary64 note_number velocity)
  /\ channels_le (@color_for_note binary64 note_number velocity)
                 (base_color note_number) = true.
Proof.
  rewrite b64_color_classes, (base_color_class note_number).
  pose proof (Z.mod_pos_bound note_number 12 ltac:(lia)) as Hpc.
  pose proof (clamp_velocity_range velocity) as Hv.
  pose proof (forallb_py_range _ _ _ b64_colors_table Hpc) as H.
  cbv beta in H.
  pose proof (forallb_py_range _ _ _ H Hv) as H1. cbv beta in H1.
  apply andb_true_iff in H1 as [Hok Hle].
  split; [apply pixel_okb_spec; exact Hok | exact Hle].
Qed.

Lemma b64_colors_monotone (pc : Z) (a k : nat) :
  0 <= pc < 12 -> (a + k <= 127)%nat ->
  channels_le (@color_for_note binary64 pc (Z.of_nat a))
              (@color_for_note binary64 pc (Z.of_nat (a + k))) = true.
Proof.
  intros Hpc. induction k as [| k IH]; intros Hk.
  - rewrite Nat.add_0_r. apply channels_le_refl.
  - eapply channels_le_trans; [apply IH; lia |].
    pose proof (forallb_py_range _ _ _ b64_colors_steps Hpc) as H.
    cbv beta in H.
    assert (Hv : 0 <= Z.of_nat (a + k) < 127) by lia.
    pose proof (forallb_py_range _ _ _ H Hv) as H1. cbv beta in H1.
    replace (Z.of_nat (a + S k)) with (Z.of_nat (a + k) + 1) by lia.
    exact H1.
Qed.

(** X3: in double precision a higher velocity darkens no channel, and from
    velocity 127 on the colour is the palette colour itself. *)
Theorem color_for_note_brightens (note_number v1 v2 : Z) :
  v1 <= v2 ->
  channels_le (@color_for_note binary64 note_number v1)
              (@color_for_note binary64 note_number v2) = true
  /\ (127 <= v2 ->
      @color_for_note binary64 note_number v2 = base_color note_number).
Proof.
  intros Hle.
  pose proof (Z.mod_pos_bound note_number 12 ltac:(lia)) as Hpc.
  split.
  - rewrite (b64_color_classes note_number v1),
      (b64_color_classes note_number v2).
    pose proof (clamp_velocity_range v1) as H1.
    pose proof (clamp_velocity_range v2) as H2.
    assert (H12 : clamp_velocity v1 <= clamp_velocity v2)
      by (unfold clamp_velocity; lia).
    pose proof (b64_colors_monotone (note_number mod 12)
                  (Z.to_nat (clamp_velocity v1))
                  (Z.to_nat (clamp_velocity v2 - clamp_velocity v1))
                  Hpc ltac:(lia)) as H.
    rewrite Z2Nat.id in H by lia.
    replace (Z.of_nat (Z.to_nat (clamp_velocity v1)
                       + Z.to_nat (clamp_velocity v2 - clamp_velocity v1)))
      with (clamp_velocity v2) in H by lia.
    exact H.
  - intros Hfull. rewrite b64_color_classes, (base_color_class note_number).
    replace (clamp_velocity v2) with 127 by (unfold clamp_velocity; lia).
    pose proof (forallb_py_range _ _ _ b64_colors_full Hpc) as H.
    cbv beta in H. apply pixel_eqb_eq in H. exact H.
Qed.

Lemma color_for_note_brightens_witness :
  40 <= 100
  /\ channels_le (@color_for_note binary64 60 40)
                 (@color_for_note binary64 60 100) = true.
Proof.
  split; [lia |].
  exact (proj1 (color_for_note_brightens 60 40 100 ltac:(lia))).
Defined.

Lemma b64_palette_nth (v : Z) (pc : Z) :
  0 <= pc < 12 ->
  nth (Z.to_nat pc) (b64_palette v) (0, 0, 0) = @color_for_note binary64 pc v.
Proof.
  intros Hpc. unfold b64_palette.
  assert (E : nth_error (map (fun pc0 => @color_for_note binary64 pc0 v)
                           (py_range 12)) (Z.to_nat pc)
              = Some (@color_for_note binary64 pc v)).
  { rewrite nth_error_map. unfold py_range.
    rewrite nth_error_map, nth_error_seq.
    destruct (Nat.ltb_spec (Z.to_nat pc) (Z.to_nat 12)); [| lia].
    simpl. rewrite Z2Nat.id by lia. reflexivity. }
  apply nth_error_nth. exact E.
Qed.

(** X4: in double precision, at one velocity, two notes are given the same
    colour exactly when they have the same pitch class: the octave never
    shows, and the twelve pitch classes never collide. *)
Theorem color_for_note_tells_pitch_classes (n1 n2 velocity : Z) :
  @color_for_note binary64 n1 velocity = @color_for_note binary64 n2 velocity
  <-> n1 mod 12 = n2 mod 12.
Proof.
  split.
  - intros E.
    rewrite (b64_color_classes n1), (b64_color_classes n2) in E.
    pose proof (Z.mod_pos_bound n1 12 ltac:(lia)) as H1.
    pose proof (Z.mod_pos_bound n2 12 ltac:(lia)) as H2.
    pose proof (clamp_velocity_range velocity) as Hv.
    pose proof (forallb_py_range _ _ _ b64_palettes_differ Hv) as Hd.
    cbv beta in Hd.
    rewrite <- (b64_palette_nth _ _ H1), <- (b64_palette_nth _ _ H2) in E.
    assert (Hlen : length (b64_palette (clamp_velocity velocity)) = 12%nat)
      by (unfold b64_palette; rewrite length_map, py_range_length; reflexivity).
    destruct (Z.lt_trichotomy (n1 mod 12) (n2 mod 12)) as [Hlt | [Heq | Hgt]];
      [| exact Heq |]; exfalso.
    + apply (all_different_nth _ (Z.to_nat (n1 mod 12)) (Z.to_nat (n2 mod 12))
               (0, 0, 0) Hd); [lia | rewrite Hlen; lia | exact E].
    + apply (all_different_nth _ (Z.to_nat (n2 mod 12)) (Z.to_nat (n1 mod 12))
               (0, 0, 0) Hd); [lia | rewrite Hlen; lia | symmetry; exact E].
  - intros E. rewrite (b64_color_classes n1), (b64_color_classes n2), E.
    reflexivity.
Qed.

(** ** The duration of a span *)

Lemma b64_ltb_leb (x y : spec_float) : SFltb x y = true -> SFleb x y = true.
Proof.
  unfold SFltb, SFleb. destruct (SFcompare x y) as [[| |] |];
    try discriminate; reflexivity.
Qed.

(** X5: the duration of a span is never negative, whatever its start and
    end: in double precision it is not below 0.0 (and no NaN), and in exact
    arithmetic it is end - start when the span does not end before it starts,
    and 0 otherwise. *)
Theorem duration_is_never_negative :
  (forall s : NoteSpan (@num binary64),
      SFleb (B64.of_int 0) (duration s) = true)
  /\ (forall s : NoteSpan (@num exact),
         (0 <= duration s)%R
         /\ ((start s <= end_ s)%R -> duration s = (end_ s - start s)%R)
         /\ ((end_ s <= start s)%R -> duration s = 0%R)).
Proof.
  split.
  - intros s. unfold duration. cbn [ltb sub of_int binary64].
    destruct (SFltb (B64.of_int 0) _) eqn:E.
    + apply b64_ltb_leb. exact E.
    + reflexivity.
  - intros s. unfold duration.
    change (@sub exact (end_ s) (start s)) with (end_ s - start s)%R.
    change (@of_int exact 0) with 0%R.
    destruct (@ltb exact 0%R (end_ s - start s)%R) eqn:E.
    + apply exact_ltb_true in E. repeat split; intros; lra.
    + apply exact_ltb_false in E. repeat split; intros; lra.
Qed.

(** ** More on the note-span extractor *)

Lemma dict_set_length {V : Type} (d : list (key * V)) (k : key) (v : V) :
  (length (dict_set d k v) <= S (length d))%nat.
Proof.
  induction d as [| [k' v'] d IH]; simpl; [lia |].
  destruct (key_eqb k' k); simpl; lia.
Qed.

Lemma dict_remove_length {V : Type} (d : list (key * V)) (k : key) (v : V) :
  dict_lookup d k = Some v -> S (length (dict_remove d k)) = length d.
Proof.
  induction d as [| [k' v'] d IH]; simpl; [discriminate |].
  destruct (key_eqb k' k); simpl; [reflexivity |].
  intros H. rewrite IH by exact H. reflexivity.
Qed.

Lemma sounded_more (l1 l2 : list Message) (ch n vel : Z) :
  sounded l1 ch n vel -> sounded (l1 ++ l2) ch n vel.
Proof.
  intros (Hv & t & Hin). split; [exact Hv |].
  exists t. apply in_or_app. left. exact Hin.
Qed.

Section ExtractorMore.
Context {A : Arith}.
Variable conv : Z -> Z -> Z -> result num.
Variable tpb : Z.

Lemma close_note_from_note_ons (msgs : list Message) (st : ExtractState num)
    (now : num) (ch n : Z) :
  from_note_ons msgs st -> from_note_ons msgs (close_note st now ch n).
Proof.
  intros [Hsp Hact]. unfold close_note.
  destruct (dict_lookup (active st) (ch, n)) as [[s0 v0] |] eqn:E.
  - apply dict_lookup_in in E. split; simpl.
    + apply Forall_app. split; [exact Hsp |].
      constructor; [| constructor]. simpl. eapply Hact. exact E.
    + intros c1 n1 s1 v1 Hin. apply dict_in_remove in Hin. eauto.
  - split; simpl; assumption.
Qed.

Lemma dispatch_from_note_ons (seen : list Message) (st : ExtractState num)
    (now : num) (msg : Message) :
  from_note_ons seen st ->
  from_note_ons (seen ++ [msg]) (dispatch st now msg).
Proof.
  intros Hinv.
  assert (Hmore : from_note_ons (seen ++ [msg]) st).
  { destruct Hinv as [Hsp Hact]. split.
    - eapply Forall_impl; [| exact Hsp]. intros s. apply sounded_more.
    - intros ch n s v Hin. apply sounded_more. eauto. }
  assert (Hidle : forall tm,
            from_note_ons (seen ++ [msg])
              {| tempo := tm; current_time := now;
                 active := active st; spans := spans st |}).
  { intros tm. destruct Hmore as [Hsp Hact]. split; simpl; assumption. }
  destruct msg as [t ch n vel | t ch n vel | t nt | t]; unfold dispatch;
    try apply Hidle; try (apply close_note_from_note_ons; exact Hmore).
  destruct (0 <? vel) eqn:Ev.
  - apply Z.ltb_lt in Ev. destruct Hmore as [Hsp Hact]. split; simpl.
    + exact Hsp.
    + intros c1 n1 s1 v1 Hin. apply dict_in_set in Hin as [Heq | Hin]; eauto.
      inversion Heq; subst. split; [exact Ev |].
      exists t. apply in_or_app. right. left. reflexivity.
  - destruct (vel =? 0); [apply close_note_from_note_ons; exact Hmore |].
    apply Hidle.
Qed.

Lemma run_from_note_ons (rest seen : list Message) (st st' : ExtractState num) :
  run conv tpb st rest = Ok st' ->
  from_note_ons seen st -> from_note_ons (seen ++ rest) st'.
Proof.
  revert seen st. induction rest as [| m rest IH]; intros seen st Hrun Hinv.
  - simpl in Hrun. inversion Hrun; subst. rewrite app_nil_r. exact Hinv.
  - simpl in Hrun. apply bind_ok in Hrun as (st1 & Hstep & Hrun).
    apply step_ok in Hstep as (d & _ & ->).
    replace (seen ++ m :: rest) with ((seen ++ [m]) ++ rest)
      by (rewrite <- app_assoc; reflexivity).
    eapply IH; [exact Hrun |]. apply dispatch_from_note_ons. exact Hinv.
Qed.

(** X6: for every stream whose deltas convert, the extractor returns, and
    every span of its output carries the channel, the pitch and the velocity
    of a note-on message of positive velocity of the stream: no span is made
    up, and the velocity of a note-off is never stored. *)
Theorem spans_come_from_note_ons (msgs : list Message) :
  (forall tick tempo, exists d, conv tick tpb tempo = Ok d) ->
  exists out,
    extract_spans conv tpb msgs = Ok out
    /\ Forall (fun s => sounded msgs (channel s) (note s) (velocity s)) out.
Proof.
  intros Hconv.
  destruct (run_total conv tpb msgs initial_state Hconv) as (st & Hrun).
  exists (spans st ++ hanging st). unfold extract_spans. rewrite Hrun.
  split; [reflexivity |].
  assert (Hinit : from_note_ons [] (@initial_state A)).
  { split; [constructor | intros ch n s v []]. }
  destruct (run_from_note_ons msgs [] _ _ Hrun Hinit) as [Hsp Hact].
  simpl in Hsp, Hact.
  apply Forall_app. split; [exact Hsp |].
  unfold hanging. apply Forall_forall. intros s Hs.
  apply in_map_iff in Hs as ([[ch n] [s0 v0]] & <- & Hin). simpl.
  eapply Hact. exact Hin.
Qed.

Lemma dispatch_accounted (k : nat) (st : ExtractState num) (now : num)
    (msg : Message) :
  accounted k st ->
  accounted (k + (if starts_note msg then 1 else 0)) (dispatch st now msg).
Proof.
  unfold accounted. intros Hk.
  assert (Hclose : forall ch n,
            (length (spans (close_note st now ch n))
             + length (active (close_note st now ch n)) <= k)%nat).
  { intros ch n. unfold close_note.
    destruct (dict_lookup (active st) (ch, n)) as [[s0 v0] |] eqn:E; simpl;
      [| exact Hk].
    apply dict_remove_length in E. rewrite length_app. simpl. lia. }
  destruct msg as [t ch n vel | t ch n vel | t nt | t]; unfold dispatch; simpl;
    try (specialize (Hclose ch n)); try lia.
  destruct (0 <? vel); simpl.
  - pose proof (dict_set_length (active st) (ch, n) (now, vel)). lia.
  - destruct (vel =? 0); simpl; lia.
Qed.

Lemma run_accounted (msgs : list Message) (k : nat)
    (st st' : ExtractState num) :
  run conv tpb st msgs = Ok st' ->
  accounted k st ->
  accounted (k + length (filter starts_note msgs)) st'.
Proof.
  revert k st. induction msgs as [| m msgs IH]; intros k st Hrun Hk.
  - simpl in Hrun. inversion Hrun; subst. simpl. rewrite Nat.add_0_r. exact Hk.
  - simpl in Hrun. apply bind_ok in Hrun as (st1 & Hstep & Hrun).
    apply step_ok in Hstep as (d & _ & ->).
    pose proof (dispatch_accounted k st (add (current_time st) d) m Hk) as H1.
    pose proof (IH _ _ Hrun H1) as H2.
    unfold accounted in *. simpl. destruct (starts_note m); simpl in *; lia.
Qed.

(** X7: for every stream whose deltas convert, the extractor returns no
    more spans than the stream has note-on messages of positive velocity; in
    particular a stream without such a message yields the empty list. *)
Theorem spans_are_counted_by_note_ons (msgs : list Message) :
  (forall tick tempo, exists d, conv tick tpb tempo = Ok d) ->
  exists out,
    extract_spans conv tpb msgs = Ok out
    /\ (length out <= length (filter starts_note msgs))%nat
    /\ (Forall (fun m => starts_note m = false) msgs -> out = []).
Proof.
  intros Hconv.
  destruct (run_total conv tpb msgs initial_state Hconv) as (st & Hrun).
  exists (spans st ++ hanging st). unfold extract_spans. rewrite Hrun.
  split; [reflexivity |].
  assert (Hinit : accounted 0 (@initial_state A))
    by (unfold accounted; simpl; lia).
  pose proof (run_accounted msgs 0 _ _ Hrun Hinit) as Hacc.
  unfold accounted in Hacc. simpl in Hacc.
  assert (Hlen : (length (spans st ++ hanging st)
                  <= length (filter starts_note msgs))%nat).
  { rewrite length_app. unfold hanging. rewrite length_map. exact Hacc. }
  split; [exact Hlen |].
  intros Hnone.
  assert (E : filter starts_note msgs = []).
  { clear -Hnone. induction Hnone as [| m l Hm _ IH]; simpl; [reflexivity |].
    rewrite Hm. exact IH. }
  rewrite E in Hlen. simpl in Hlen.
  destruct (spans st ++ hanging st); [reflexivity | simpl in Hlen; lia].
Qed.

(** *** The order of the spans *)

Variable time_ok : num -> Prop.
Context {L : TimeLaws A time_ok}.

Lemma sorted_snoc (l : list (NoteSpan num)) (x : NoteSpan num) :
  StronglySorted ends_before l ->
  Forall (fun s => ends_before s x) l ->
  StronglySorted ends_before (l ++ [x]).
Proof.
  induction 1 as [| a l Hs IH Ha]; intros Hall; simpl.
  - constructor; constructor.
  - inversion Hall as [| ? ? Hax Hlx]; subst.
    constructor; [apply IH; exact Hlx |].
    apply Forall_app. split; [exact Ha | constructor; [exact Hax | constructor]].
Qed.

Lemma sorted_app (l1 l2 : list (NoteSpan num)) :
  StronglySorted ends_before l1 ->
  StronglySorted ends_before l2 ->
  (forall a b, In a l1 -> In b l2 -> ends_before a b) ->
  StronglySorted ends_before (l1 ++ l2).
Proof.
  induction 1 as [| a l Hs IH Ha]; intros H2 Hc; simpl; [exact H2 |].
  constructor.
  - apply IH; [exact H2 |]. intros x y Hx Hy. apply Hc; [right |]; assumption.
  - apply Forall_app. split; [exact Ha |].
    apply Forall_forall. intros y Hy. apply Hc; [left; reflexivity | exact Hy].
Qed.

Lemma sorted_same_end (l : list (NoteSpan num)) (c : num) :
  time_ok c -> Forall (fun b => end_ b = c) l ->
  StronglySorted ends_before l.
Proof.
  intros Hc. induction 1 as [| b l Hb Hl IH]; constructor; [exact IH |].
  eapply Forall_impl; [| exact Hl]. intros x Hx. unfold ends_before.
  rewrite Hb, Hx. apply leb_refl. exact Hc.
Qed.

Lemma dispatch_ends_inv (tempos : list Z) (st : ExtractState num) (d : num)
    (msg : Message) :
  (forall t new_tempo, msg = set_tempo t new_tempo -> In new_tempo tempos) ->
  time_ok d -> ends_inv time_ok tempos st ->
  ends_inv time_ok tempos (dispatch st (add (current_time st) d) msg).
Proof.
  intros Hset Hd (Hcur & Htempo & Hsorted & Hends).
  set (now := add (current_time st) d).
  destruct (add_increasing (current_time st) d Hcur Hd) as [Hnow Hstep].
  fold now in Hnow, Hstep.
  assert (Hends' : Forall (fun s => time_ok (end_ s)
                                    /\ leb (end_ s) now = true) (spans st)).
  { eapply Forall_impl; [| exact Hends]. intros s [H1 H2].
    split; [exact H1 |].
    apply (leb_trans (end_ s) (current_time st) now); assumption. }
  assert (Hidle : forall ac,
            ends_inv time_ok tempos
              {| tempo := tempo st; current_time := now;
                 active := ac; spans := spans st |}).
  { intros ac. split; [exact Hnow |]. split; [exact Htempo |].
    split; [exact Hsorted | exact Hends']. }
  assert (Hclose : forall ch n,
            ends_inv time_ok tempos (close_note st now ch n)).
  { intros ch n. unfold close_note.
    destruct (dict_lookup (active st) (ch, n)) as [[s0 v0] |]; [| apply Hidle].
    split; [exact Hnow |]. split; [exact Htempo |]. split; simpl.
    - apply sorted_snoc; [exact Hsorted |].
      eapply Forall_impl; [| exact Hends']. intros s [_ H2]. exact H2.
    - apply Forall_app. split; [exact Hends' |].
      constructor; [| constructor]. simpl.
      split; [exact Hnow | apply leb_refl; exact Hnow]. }
  destruct msg as [t ch n vel | t ch n vel | t nt | t]; unfold dispatch;
    try apply Hidle; try apply Hclose.
  - destruct (0 <? vel); [apply Hidle |].
    destruct (vel =? 0); [apply Hclose | apply Hidle].
  - split; [exact Hnow |]. split; [eapply Hset; reflexivity |].
    split; [exact Hsorted | exact Hends'].
Qed.

Lemma run_ends_inv (tempos : list Z) (msgs : list Message)
    (st : ExtractState num) :
  (forall m tempo, In m msgs -> In tempo tempos ->
     exists d, conv (msg_time m) tpb tempo = Ok d /\ time_ok d) ->
  (forall t new_tempo, In (set_tempo t new_tempo) msgs -> In new_tempo tempos) ->
  ends_inv time_ok tempos st ->
  exists st', run conv tpb st msgs = Ok st' /\ ends_inv time_ok tempos st'.
Proof.
  revert st. induction msgs as [| m msgs IH]; intros st Hconv Hset Hinv;
    [exists st; split; [reflexivity | exact Hinv] |].
  destruct (Hconv m (tempo st) (or_introl eq_refl) (proj1 (proj2 Hinv)))
    as (d & Hd & Hok).
  cbn [run]. unfold step. rewrite Hd. cbn [bind].
  apply IH.
  - intros m0 tempo H0 Ht. apply Hconv; [right; exact H0 | exact Ht].
  - intros t new_tempo H0. apply (Hset t new_tempo). right. exact H0.
  - apply dispatch_ends_inv; [| exact Hok | exact Hinv].
    intros t new_tempo ->. apply (Hset t new_tempo). left. reflexivity.
Qed.

(** X8: for every stream whose deltas convert to times, the extractor
    returns its spans in the order of their ends: each span ends no later
    than every span after it in the list, the spans of hanging notes coming
    last. *)
Theorem spans_are_ordered_by_end (msgs : list Message) :
  conversions_ok time_ok conv tpb msgs ->
  exists out,
    extract_spans conv tpb msgs = Ok out
    /\ StronglySorted ends_before out.
Proof.
  intros Hconv.
  assert (Hinit : ends_inv time_ok (tempos_of msgs) (@initial_state A)).
  { split; [apply time_ok_zero |]. split; [left; reflexivity |].
    split; constructor. }
  destruct (run_ends_inv (tempos_of msgs) msgs _ Hconv (tempos_of_set msgs)
              Hinit)
    as (st & Hrun & Hcur & _ & Hsorted & Hends).
  exists (spans st ++ hanging st). unfold extract_spans. rewrite Hrun.
  split; [reflexivity |].
  assert (Hhang : forall b, In b (hanging st) -> end_ b = current_time st).
  { intros b Hb. unfold hanging in Hb.
    apply in_map_iff in Hb as ([[ch n] [s0 v0]] & <- & _). reflexivity. }
  apply sorted_app; [exact Hsorted | |].
  - apply (sorted_same_end _ (current_time st) Hcur).
    apply Forall_forall. exact Hhang.
  - intros a b Ha Hb. unfold ends_before. rewrite (Hhang b Hb).
    rewrite Forall_forall in Hends. apply Hends. exact Ha.
Qed.
End ExtractorMore.

(** *** On a stream of two keys *)

Lemma spans_come_from_note_ons_witness :
  (forall tick tempo, exists d, @tick2second binary64 tick 480 tempo = Ok d)
  /\ exists out,
       extract_spans (A := binary64) tick2second 480 two_keys_stream = Ok out
       /\ Forall (fun s => sounded two_keys_stream (channel s) (note s)
                             (velocity s)) out.
Proof.
  split; [exact b64_tick2second_total |].
  exact (@spans_come_from_note_ons binary64 tick2second 480 two_keys_stream
           b64_tick2second_total).
Defined.

Lemma spans_are_counted_by_note_ons_witness :
  (forall tick tempo, exists d, @tick2second binary64 tick 480 tempo = Ok d)
  /\ exists out,
       extract_spans (A := binary64) tick2second 480 two_keys_stream = Ok out
       /\ (length out <= length (filter starts_note two_keys_stream))%nat.
Proof.
  split; [exact b64_tick2second_total |].
  destruct (@spans_are_counted_by_note_ons binary64 tick2second 480
              two_keys_stream b64_tick2second_total) as (out & H1 & H2 & _).
  exists out. split; [exact H1 | exact H2].
Defined.

Lemma spans_are_ordered_by_end_witness :
  conversions_ok (A := binary64) b64_time_ok tick2second 480 tempo_stream
  /\ exists out,
       extract_spans (A := binary64) tick2second 480 tempo_stream = Ok out
       /\ StronglySorted ends_before out.
Proof.
  assert (H1 : conversions_ok (A := binary64) b64_time_ok tick2second 480
                 tempo_stream).
  { apply b64_conversions_ok; [lia | |].
    - intros m Hm. simpl in Hm.
      repeat (destruct Hm as [<- | Hm]; [simpl; lia |]). contradiction.
    - intros tempo Ht. simpl in Ht.
      repeat (destruct Ht as [<- | Ht]; [lia |]). contradiction. }
  split; [exact H1 |].
  exact (@spans_are_ordered_by_end binary64 tick2second 480 b64_time_ok
           b64_time_laws tempo_stream H1).
Defined.

(** ** The keys of the extractor *)

Section DictMore.
Context {V : Type}.
Implicit Types (d : list (key * V)) (k : key) (v : V).

Lemma only_key_set_same d k v :
  only_key k (dict_set d k v) = dict_set (only_key k d) k v.
Proof.
  unfold only_key.
  induction d as [| [k' v'] d IH]; simpl.
  - rewrite key_eqb_refl. reflexivity.
  - destruct (key_eqb k' k) eqn:E; simpl; rewrite ?E; simpl; rewrite ?E;
      [reflexivity | exact IH].
Qed.

Lemma only_key_set_other d k k' v :
  k' <> k -> only_key k (dict_set d k' v) = only_key k d.
Proof.
  intros Hne. unfold only_key.
  assert (E0 : key_eqb k' k = false) by (apply key_eqb_neq; exact Hne).
  induction d as [| [k0 v0] d IH]; simpl.
  - rewrite E0. reflexivity.
  - destruct (key_eqb k0 k') eqn:E; simpl.
    + apply key_eqb_eq in E; subst k0. rewrite E0. reflexivity.
    + rewrite IH. reflexivity.
Qed.

Lemma only_key_remove_same d k :
  only_key k (dict_remove d k) = dict_remove (only_key k d) k.
Proof.
  unfold only_key.
  induction d as [| [k' v'] d IH]; simpl; [reflexivity |].
  destruct (key_eqb k' k) eqn:E; simpl; rewrite ?E; simpl; rewrite ?E;
    [reflexivity | exact IH].
Qed.

Lemma only_key_remove_other d k k' :
  k' <> k -> only_key k (dict_remove d k') = only_key k d.
Proof.
  intros Hne. unfold only_key.
  assert (E0 : key_eqb k' k = false) by (apply key_eqb_neq; exact Hne).
  induction d as [| [k0 v0] d IH]; simpl; [reflexivity |].
  destruct (key_eqb k0 k') eqn:E; simpl.
  - apply key_eqb_eq in E; subst k0. rewrite E0. reflexivity.
  - rewrite IH. reflexivity.
Qed.

Lemma only_key_lookup d k : dict_lookup (only_key k d) k = dict_lookup d k.
Proof.
  unfold only_key.
  induction d as [| [k' v'] d IH]; simpl; [reflexivity |].
  destruct (key_eqb k' k) eqn:E; simpl; rewrite ?E; auto.
Qed.
End DictMore.

Section Keys.
Context {A : Arith}.
Variable conv : Z -> Z -> Z -> result num.
Variable tpb : Z.

Lemma close_note_other_key (st : ExtractState num) (now : num) (ch n : Z)
    (k : key) :
  (ch, n) <> k ->
  dict_lookup (active (close_note st now ch n)) k = dict_lookup (active st) k
  /\ only_key k (active (close_note st now ch n)) = only_key k (active st)
  /\ filter (has_key k) (spans (close_note st now ch n))
     = filter (has_key k) (spans st)
  /\ tempo (close_note st now ch n) = tempo st
  /\ current_time (close_note st now ch n) = now.
Proof.
  intros Hne. unfold close_note.
  destruct (dict_lookup (active st) (ch, n)) as [[s0 v0] |]; simpl.
  - rewrite dict_lookup_remove_other by congruence.
    rewrite only_key_remove_other by exact Hne.
    rewrite filter_app. simpl. unfold has_key at 2, span_key. simpl.
    assert (E : key_eqb (ch, n) k = false) by (apply key_eqb_neq; exact Hne).
    rewrite E, app_nil_r. auto.
  - auto.
Qed.

(** A message that is no note of key [k] leaves the entry of [k] alone and
    emits no span of [k]. *)
Lemma dispatch_untouched (st : ExtractState num) (now : num) (msg : Message)
    (k : key) :
  touches k msg = false ->
  dict_lookup (active (dispatch st now msg)) k = dict_lookup (active st) k
  /\ only_key k (active (dispatch st now msg)) = only_key k (active st)
  /\ filter (has_key k) (spans (dispatch st now msg))
     = filter (has_key k) (spans st).
Proof.
  intros Ht.
  destruct msg as [t ch n vel | t ch n vel | t nt | t]; unfold dispatch;
    simpl in Ht; try (repeat split; reflexivity).
  - apply key_eqb_neq in Ht.
    destruct (0 <? vel); simpl.
    + rewrite dict_lookup_set_other by congruence.
      rewrite only_key_set_other by exact Ht. auto.
    + destruct (vel =? 0); [| auto].
      destruct (close_note_other_key st now ch n k Ht) as (H1 & H2 & H3 & _).
      auto.
  - apply key_eqb_neq in Ht.
    destruct (close_note_other_key st now ch n k Ht) as (H1 & H2 & H3 & _).
    auto.
Qed.

Lemma run_untouched (msgs : list Message) (st st' : ExtractState num)
    (k : key) :
  Forall (fun m => touches k m = false) msgs ->
  run conv tpb st msgs = Ok st' ->
  dict_lookup (active st') k = dict_lookup (active st) k.
Proof.
  revert st. induction msgs as [| m msgs IH]; intros st Hall Hrun.
  - simpl in Hrun. inversion Hrun; reflexivity.
  - inversion Hall as [| ? ? Hm Hrest]; subst.
    simpl in Hrun. apply bind_ok in Hrun as (st1 & Hstep & Hrun).
    apply step_ok in Hstep as (d & _ & ->).
    rewrite (IH _ Hrest Hrun).
    apply (dispatch_untouched st _ m k Hm).
Qed.

(** The spans closed are never taken back. *)
Lemma run_spans_grow (msgs : list Message) (st st' : ExtractState num) :
  run conv tpb st msgs = Ok st' ->
  exists later, spans st' = spans st ++ later.
Proof.
  revert st. induction msgs as [| m msgs IH]; intros st Hrun.
  - simpl in Hrun. inversion Hrun; subst. exists []. rewrite app_nil_r.
    reflexivity.
  - simpl in Hrun. apply bind_ok in Hrun as (st1 & Hstep & Hrun).
    apply step_ok in Hstep as (d & _ & ->).
    destruct (IH _ Hrun) as (later & Hl).
    destruct (dispatch_spans st (add (current_time st) d) m)
      as (emitted & He & _).
    exists (emitted ++ later). rewrite Hl, He, app_assoc. reflexivity.
Qed.

(** X10: for every stream whose deltas convert, a note-on of positive
    velocity and the first later message that closes its key (a note-off, or
    a note-on of velocity 0), with no note message of that key in between,
    give a span of the output: it starts at the clock of the note-on, ends at
    the clock of the closing message and has the velocity of the note-on,
    whatever the messages of other keys, the tempo changes and the other
    messages around and in between. *)
Theorem note_on_pairs_with_its_note_off
    (pre mid post : list Message) (t ch n vel : Z) (closing : Message) :
  (forall tick tempo, exists d, conv tick tpb tempo = Ok d) ->
  0 < vel ->
  Forall (fun m => touches (ch, n) m = false) mid ->
  closes (ch, n) closing = true ->
  exists out st_on st_off,
    extract_spans conv tpb
      (pre ++ note_on t ch n vel :: mid ++ closing :: post) = Ok out
    /\ run conv tpb initial_state (pre ++ [note_on t ch n vel]) = Ok st_on
    /\ run conv tpb st_on (mid ++ [closing]) = Ok st_off
    /\ In {| note := n; channel := ch; start := current_time st_on;
             end_ := current_time st_off; velocity := vel |} out.
Proof.
  intros Hconv Hvel Hmid Hclosing.
  destruct (run_total conv tpb
              (pre ++ note_on t ch n vel :: mid ++ closing :: post)
              initial_state Hconv) as (st & Hrun).
  exists (spans st ++ hanging st).
  destruct (run_split conv tpb _ _ _ _ _ Hrun)
    as (st0 & st_on & H0 & Hon & Hpre & Hrest).
  destruct (run_split conv tpb _ _ _ _ _ Hrest)
    as (st_mid & st_off & Hm & Hoff & Hmidrun & Hpost).
  exists st_on, st_off.
  split; [unfold extract_spans; rewrite Hrun; reflexivity |].
  split; [exact Hpre |]. split; [exact Hmidrun |].
  apply step_ok in Hon as (d & _ & Eon).
  assert (Hopen : dict_lookup (active st_on) (ch, n)
                  = Some (current_time st_on, vel)).
  { subst st_on. rewrite dispatch_time. unfold dispatch.
    apply Z.ltb_lt in Hvel. rewrite Hvel. simpl.
    apply dict_lookup_set_same. }
  rewrite <- (run_untouched mid st_on st_mid (ch, n) Hmid Hm) in Hopen.
  apply step_ok in Hoff as (d' & _ & Eoff).
  assert (Hspan : exists before,
            spans st_off
            = before ++ [ {| note := n; channel := ch;
                             start := current_time st_on;
                             end_ := current_time st_off;
                             velocity := vel |} ]).
  { assert (Hc : dispatch st_mid (add (current_time st_mid) d') closing
                 = close_note st_mid (add (current_time st_mid) d') ch n).
    { destruct closing as [t' c' n' v' | t' c' n' v' | t' nt | t'];
        simpl in Hclosing; try discriminate.
      - apply andb_true_iff in Hclosing as [Hk Hv].
        apply key_eqb_eq in Hk. inversion Hk; subst.
        apply Z.eqb_eq in Hv. subst v'. reflexivity.
      - apply key_eqb_eq in Hclosing. inversion Hclosing; subst.
        reflexivity. }
    subst st_off. rewrite Hc. unfold close_note. rewrite Hopen. simpl.
    eexists. reflexivity. }
  destruct Hspan as (before & Hspan).
  destruct (run_spans_grow post st_off st Hpost) as (later & Hl).
  rewrite Hl, Hspan. apply in_or_app. left. apply in_or_app. left.
  apply in_or_app. right. left. reflexivity.
Qed.

(** One step of the extractor on the muted stream. *)
Lemma dispatch_restricted (k : key) (st st' : ExtractState num) (now : num)
    (msg : Message) :
  restricted k st st' ->
  restricted k (dispatch st now msg) (dispatch st' now (mute k msg)).
Proof.
  intros (Htempo & Htime & Hact & Hsp).
  destruct (touches k msg) eqn:Et.
  - (* a note of k: the same message on both sides *)
    assert (Em : mute k msg = msg).
    { destruct msg as [t ch n vel | t ch n vel | t nt | t]; simpl in *;
        try rewrite Et; reflexivity. }
    rewrite Em.
    assert (Hclose : forall ch n, (ch, n) = k ->
              restricted k (close_note st now ch n)
                           (close_note st' now ch n)).
    { intros ch n Ek. unfold close_note. rewrite Hact, Ek, only_key_lookup.
      destruct (dict_lookup (active st) k) as [[s0 v0] |]; simpl.
      - split; [exact Htempo |]. split; [reflexivity |]. split; simpl.
        + rewrite only_key_remove_same. reflexivity.
        + rewrite Hsp, filter_app. simpl.
          unfold has_key at 3, span_key. simpl. rewrite Ek, key_eqb_refl.
          reflexivity.
      - unfold restricted. simpl. auto. }
    destruct msg as [t ch n vel | t ch n vel | t nt | t]; simpl in Et;
      try discriminate; apply key_eqb_eq in Et; unfold dispatch.
    + destruct (0 <? vel).
      * split; [exact Htempo |]. split; [reflexivity |]. split; simpl.
        -- rewrite Hact, Et, only_key_set_same. reflexivity.
        -- exact Hsp.
      * destruct (vel =? 0); [apply Hclose; exact Et |].
        split; [exact Htempo |]. split; [reflexivity |].
        split; [exact Hact | exact Hsp].
    + apply Hclose. exact Et.
  - (* no note of k *)
    destruct (dispatch_untouched st now msg k Et) as (_ & H2 & H3).
    assert (Esame : forall tm,
              restricted k (dispatch st now msg)
                {| tempo := tm; current_time := now;
                   active := active st'; spans := spans st' |}
              <-> tm = tempo (dispatch st now msg)).
    { intros tm. unfold restricted. simpl. rewrite dispatch_time, H2, H3.
      rewrite Hact, Hsp. intuition congruence. }
    destruct msg as [t ch n vel | t ch n vel | t nt | t]; simpl in Et;
      unfold mute, touches; try rewrite Et.
    + unfold dispatch at 2. apply Esame. rewrite Htempo.
      unfold dispatch, close_note.
      repeat match goal with
             | |- context [if ?b then _ else _] => destruct b
             | |- context [match ?o with Some _ => _ | None => _ end] =>
                 destruct o as [[? ?] |]
             end; reflexivity.
    + unfold dispatch at 2. apply Esame. rewrite Htempo.
      unfold dispatch, close_note.
      repeat match goal with
             | |- context [match ?o with Some _ => _ | None => _ end] =>
                 destruct o as [[? ?] |]
             end; reflexivity.
    + unfold dispatch at 2. apply Esame. reflexivity.
    + unfold dispatch at 2. apply Esame. rewrite Htempo. reflexivity.
Qed.

Lemma mute_time (k : key) (msg : Message) :
  msg_time (mute k msg) = msg_time msg.
Proof.
  destruct msg as [t ch n vel | t ch n vel | t nt | t]; simpl;
    try destruct (key_eqb (ch, n) k); reflexivity.
Qed.

Lemma run_restricted (k : key) (msgs : list Message)
    (st st' : ExtractState num) :
  restricted k st st' ->
  match run conv tpb st msgs with
  | Ok st1 =>
      exists st1',
        run conv tpb st' (map (mute k) msgs) = Ok st1'
        /\ restricted k st1 st1'
  | Raise e => run conv tpb st' (map (mute k) msgs) = Raise e
  end.
Proof.
  revert st st'. induction msgs as [| m msgs IH]; intros st st' Hres.
  - simpl. exists st'. split; [reflexivity | exact Hres].
  - cbn [map run]. unfold step. rewrite mute_time.
    pose proof Hres as (Htempo & Htime & _).
    rewrite Htempo.
    destruct (conv (msg_time m) tpb (tempo st)) as [d | e]; cbn [bind];
      [| reflexivity].
    rewrite Htime.
    apply (IH _ _ (dispatch_restricted k st st' _ m Hres)).
Qed.

Lemma hanging_restricted (k : key) (st st' : ExtractState num) :
  restricted k st st' ->
  hanging st' = filter (has_key k) (hanging st).
Proof.
  intros (_ & Htime & Hact & _). unfold hanging. rewrite Hact, Htime.
  clear Hact Htime.
  unfold only_key. generalize (current_time st) as now. intros now.
  induction (active st) as [| [[c0 n0] [s0 v0]] d IH]; simpl; [reflexivity |].
  unfold has_key at 1, span_key at 1. simpl.
  destruct (key_eqb (c0, n0) k); simpl; rewrite IH; reflexivity.
Qed.

(** X11: the keys are independent: what the extractor returns for the
    stream in which the note messages of all keys but one are replaced by
    messages that are no notes (with the same deltas) is exactly the spans of
    that (channel, pitch) key in the output for the whole stream, in their
    order, or the same exception: no note of another key changes, delays,
    splits or reorders them. *)
Theorem keys_are_independent (k : key) (msgs : list Message) :
  extract_spans conv tpb (map (mute k) msgs)
  = (out <- extract_spans conv tpb msgs ;; Ok (filter (has_key k) out)).
Proof.
  unfold extract_spans.
  assert (Hinit : restricted k (@initial_state A) (@initial_state A)).
  { repeat split; reflexivity. }
  pose proof (run_restricted k msgs _ _ Hinit) as Hrun.
  destruct (run conv tpb initial_state msgs) as [st | e]; cbn [bind].
  - destruct Hrun as (st' & Hrun' & Hres). rewrite Hrun'. cbn [bind].
    rewrite filter_app, (hanging_restricted k st st' Hres).
    destruct Hres as (_ & _ & _ & Hsp). rewrite Hsp. reflexivity.
  - rewrite Hrun. reflexivity.
Qed.
End Keys.


Lemma note_on_pairs_with_its_note_off_witness :
  exists out st_on st_off,
    extract_spans (A := binary64) tick2second 480
      ([] ++ note_on 0 0 60 100
          :: [other 240; note_on 0 1 64 80] ++ note_off 240 0 60 0 :: [])
    = Ok out
    /\ run tick2second 480 initial_state ([] ++ [note_on 0 0 60 100])
       = Ok st_on
    /\ run tick2second 480 st_on
         ([other 240; note_on 0 1 64 80] ++ [note_off 240 0 60 0]) = Ok st_off
    /\ In {| note := 60; channel := 0; start := current_time st_on;
             end_ := current_time st_off; velocity := 100 |} out.
Proof.
  apply (@note_on_pairs_with_its_note_off binary64 tick2second 480
           [] [other 240; note_on 0 1 64 80] [] 0 0 60 100
           (note_off 240 0 60 0)).
  - exact b64_tick2second_total.
  - lia.
  - repeat constructor.
  - reflexivity.
Defined.

(** ** More on the strip builder *)

Lemma byte_ok_spec (b : Z) : byte_ok b = true <-> 0 <= b < 256.
Proof. unfold byte_ok. rewrite andb_true_iff, Z.leb_le, Z.ltb_lt. tauto. Qed.

Lemma random_pixel_drawn (g : rng) :
  random_pixel g
  = (drawn_pixel g 0, {| tape := tape g; taken := (taken g + 3)%nat |}).
Proof.
  unfold random_pixel, randint, drawn_pixel. simpl.
  rewrite !Nat.add_0_r.
  replace (S (S (S (taken g)))) with (taken g + 3)%nat by lia.
  replace (S (taken g)) with (taken g + 1)%nat by lia.
  replace (S (taken g + 1)) with (taken g + 2)%nat by lia.
  reflexivity.
Qed.

Lemma drawn_pixel_ok (g : rng) (k : nat) : pixel_ok (drawn_pixel g k).
Proof.
  unfold drawn_pixel, pixel_ok.
  repeat split; apply byte_ok_spec; apply Z.mod_pos_bound; lia.
Qed.

Section StripMore.
Context {A : Arith}.
Variable all_spans : list (NoteSpan num).
Variable step : num.

Lemma sample_pixel_cases (background : option pixel) (i : Z) (g : rng) :
  sample_pixel all_spans step background i g
  = if is_filler all_spans step i then
      match background with
      | None => random_pixel g
      | Some bg => (bg, g)
      end
    else (mean_color (filter (is_active (sample_time step i)) all_spans), g).
Proof.
  unfold sample_pixel, is_filler.
  destruct (filter (is_active (sample_time step i)) all_spans) eqn:E;
    [reflexivity |].
  rewrite blend_is_mean. reflexivity.
Qed.

(** With a background the loop draws nothing and fills with it. *)
Lemma strip_loop_fills (bg : pixel) (indices : list Z) (strip : list pixel)
    (g : rng) :
  strip_loop all_spans step (Some bg) indices strip g
  = (strip ++ map (fun i =>
                     if is_filler all_spans step i then bg
                     else mean_color
                            (filter (is_active (sample_time step i)) all_spans))
                  indices, g).
Proof.
  revert strip. induction indices as [| i indices IH]; intros strip.
  - simpl. rewrite app_nil_r. reflexivity.
  - unfold strip_loop in *. cbn [fold_left map].
    rewrite sample_pixel_cases.
    destruct (is_filler all_spans step i); rewrite IH, <- app_assoc;
      reflexivity.
Qed.

(** Without one, every filler pixel takes the next three draws. *)
Lemma strip_loop_draws (indices : list Z) (strip : list pixel) (g : rng) :
  exists added,
    strip_loop all_spans step None indices strip g
    = (strip ++ added,
       {| tape := tape g;
          taken := (taken g
                    + 3 * length (filter (is_filler all_spans step) indices))%nat |})
    /\ length added = length indices
    /\ forall j i,
         nth_error indices j = Some i ->
         is_filler all_spans step i = true ->
         nth_error added j
         = Some (drawn_pixel g
                   (3 * length (filter (is_filler all_spans step)
                                  (firstn j indices)))).
Proof.
  revert strip g. induction indices as [| i0 indices IH]; intros strip g.
  - exists []. simpl. rewrite app_nil_r, Nat.add_0_r.
    split; [destruct g; reflexivity |]. split; [reflexivity |].
    intros [| j] i H; discriminate.
  - unfold strip_loop in *. cbn [fold_left filter].
    rewrite sample_pixel_cases.
    destruct (is_filler all_spans step i0) eqn:Ef.
    + rewrite random_pixel_drawn.
      destruct (IH (strip ++ [drawn_pixel g 0])
                  {| tape := tape g; taken := (taken g + 3)%nat |})
        as (added & Hl & Hlen & Hnth).
      exists (drawn_pixel g 0 :: added). rewrite Hl. cbn [tape taken length].
      split.
      { rewrite <- app_assoc. cbn [app]. f_equal. f_equal. lia. }
      split; [simpl; congruence |].
      intros [| j] i Hi Hfi; cbn [nth_error firstn filter] in *.
      * reflexivity.
      * rewrite Ef. rewrite (Hnth j i Hi Hfi). cbn [length].
        unfold drawn_pixel. cbn [tape taken]. set (n := length _).
        replace (3 * S n)%nat with (3 + 3 * n)%nat by lia.
        rewrite !Nat.add_assoc. reflexivity.
    + destruct (IH (strip ++
                    [mean_color (filter (is_active (sample_time step i0))
                                   all_spans)]) g)
        as (added & Hl & Hlen & Hnth).
      eexists (_ :: added). rewrite Hl.
      split; [rewrite <- app_assoc; reflexivity |].
      split; [simpl; congruence |].
      intros [| j] i Hi Hfi; cbn [nth_error firstn filter] in *.
      * inversion Hi; subst. congruence.
      * rewrite Ef. apply (Hnth j i); assumption.
Qed.
End StripMore.

(** *** Every pixel is an RGB triple of bytes *)

Lemma channel_sum_bounds (channel_of : pixel -> Z)
    (l : list (NoteSpan (@num binary64))) :
  (forall p, pixel_ok p -> 0 <= channel_of p <= 255) ->
  0 <= channel_sum (A := binary64) channel_of l
    <= 255 * Z.of_nat (length l).
Proof.
  intros Hc. induction l as [| s l IH]; [unfold channel_sum; simpl; lia |].
  change (channel_sum (A := binary64) channel_of (s :: l))
    with (channel_of (@color_for_note binary64 (note s) (velocity s))
          + channel_sum (A := binary64) channel_of l).
  pose proof (Hc _ (b64_color_ok (note s) (velocity s))).
  rewrite length_cons, Nat2Z.inj_succ. lia.
Qed.

Lemma pixel_ok_channels (p : pixel) :
  pixel_ok p ->
  0 <= red p <= 255 /\ 0 <= green p <= 255 /\ 0 <= blue p <= 255.
Proof.
  destruct p as [[r g] b]. unfold pixel_ok, red, green, blue. simpl.
  rewrite !byte_ok_spec. lia.
Qed.

Lemma b64_mean_color_ok (l : list (NoteSpan (@num binary64))) :
  l <> [] -> pixel_ok (mean_color (A := binary64) l).
Proof.
  intros Hne. unfold mean_color, pixel_ok.
  assert (Hk : 0 < Z.of_nat (length l)) by (destruct l; [contradiction | simpl; lia]).
  pose proof (channel_sum_bounds red l
                (fun p H => proj1 (pixel_ok_channels p H))) as Hr.
  pose proof (channel_sum_bounds green l
                (fun p H => proj1 (proj2 (pixel_ok_channels p H)))) as Hg.
  pose proof (channel_sum_bounds blue l
                (fun p H => proj2 (proj2 (pixel_ok_channels p H)))) as Hb.
  rewrite !byte_ok_spec.
  assert (Hdiv : forall s, 0 <= s <= 255 * Z.of_nat (length l) ->
            0 <= s / Z.of_nat (length l) < 256).
  { intros s Hs. split; [apply Z.div_pos; lia |].
    apply Z.div_lt_upper_bound; lia. }
  auto.
Qed.

Lemma b64_sample_pixel_ok (all_spans : list (NoteSpan (@num binary64)))
    (step : @num binary64) (background : option pixel) (i : Z) (g : rng) :
  (forall bg, background = Some bg -> pixel_ok bg) ->
  pixel_ok (fst (sample_pixel all_spans step background i g)).
Proof.
  intros Hbg. rewrite sample_pixel_cases.
  destruct (is_filler all_spans step i) eqn:Ef.
  - destruct background as [bg |]; [apply Hbg; reflexivity |].
    rewrite random_pixel_drawn. apply drawn_pixel_ok.
  - apply b64_mean_color_ok. unfold is_filler in Ef.
    destruct (filter (is_active (sample_time step i)) all_spans);
      discriminate.
Qed.

Lemma b64_strip_loop_ok (all_spans : list (NoteSpan (@num binary64)))
    (step : @num binary64) (background : option pixel) (indices : list Z)
    (strip : list pixel) (g : rng) :
  (forall bg, background = Some bg -> pixel_ok bg) ->
  Forall pixel_ok strip ->
  Forall pixel_ok (fst (strip_loop all_spans step background indices strip g)).
Proof.
  intros Hbg. revert strip g.
  induction indices as [| i indices IH]; intros strip g Hs; [exact Hs |].
  unfold strip_loop in *. cbn [fold_left].
  pose proof (b64_sample_pixel_ok all_spans step background i g Hbg) as Hp.
  destruct (sample_pixel all_spans step background i g) as [p g1].
  apply IH. apply Forall_app. split; [exact Hs |].
  constructor; [exact Hp | constructor].
Qed.

(** The strips of double precision are made of RGB triples of bytes. *)
Lemma b64_strip_ok (all_spans : list (NoteSpan (@num binary64)))
    (pps : Z) (background : option pixel) (g g' : rng) (strip : list pixel) :
  (forall bg, background = Some bg -> pixel_ok bg) ->
  spans_to_color_strip all_spans pps background g = (Ok strip, g') ->
  Forall pixel_ok strip.
Proof.
  intros Hbg. unfold spans_to_color_strip.
  destruct all_spans as [| first rest].
  - intros H. inversion H. constructor.
  - destruct (strip_layout first rest pps) as [[total step] | e];
      [| discriminate].
    pose proof (b64_strip_loop_ok (first :: rest) step background
                  (py_range total) [] g Hbg (Forall_nil _)) as Hok.
    destruct (strip_loop (first :: rest) step background (py_range total) [] g)
      as [s1 g1].
    intros H. inversion H; subst. exact Hok.
Qed.

(** X12: in double precision, every pixel of a strip that the strip builder
    returns is an RGB triple of bytes (each channel in 0..255), provided
    that the background, when one is given, is such a triple: the blended
    colours and the drawn filler pixels always are. *)
Theorem strip_pixels_are_rgb (all_spans : list (NoteSpan (@num binary64)))
    (pps : Z) (background : option pixel) (g : rng) (i : nat) (p : pixel) :
  (forall bg, background = Some bg -> pixel_ok bg) ->
  strip_pixel (fst (spans_to_color_strip all_spans pps background g)) i
  = Some p ->
  pixel_ok p.
Proof.
  intros Hbg.
  destruct (spans_to_color_strip all_spans pps background g)
    as [[strip | e] g'] eqn:Ecall; cbn [fst strip_pixel]; [| discriminate].
  intros Hp.
  pose proof (b64_strip_ok all_spans pps background g g' strip Hbg Ecall)
    as Hall.
  rewrite Forall_forall in Hall. apply Hall.
  eapply nth_error_In. exact Hp.
Qed.


Lemma strip_pixels_are_rgb_witness :
  strip_pixel (fst (spans_to_color_strip late_span 1 None gen_one)) 1
  = Some (222, 186, 8)
  /\ pixel_ok (222, 186, 8).
Proof.
  assert (H : strip_pixel (fst (spans_to_color_strip late_span 1 None gen_one))
                1 = Some (222, 186, 8)) by (vm_compute; reflexivity).
  split; [exact H |].
  apply (strip_pixels_are_rgb late_span 1 None gen_one 1%nat (222, 186, 8)).
  - intros bg E. discriminate.
  - exact H.
Defined.

(** *** Filler pixels *)

(** X13: with a background colour the strip is determined pixel by pixel:
    pixel i is the background when no span is active at the sample time
    i * (1.0 / pixels_per_second), and the blend of the active spans
    otherwise; the generator is left as it was. *)
Theorem strip_fills_with_background {A : Arith}
    (first : NoteSpan num) (rest : list (NoteSpan num))
    (pps : Z) (bg : pixel) (g : rng) (n : Z) :
  math_ceil (mul (total_duration first rest) (of_int pps)) = Ok n ->
  eqb (of_int pps) (of_int 0) = false ->
  spans_to_color_strip (first :: rest) pps (Some bg) g
  = (Ok (map (filled_pixel (first :: rest) (div (of_int 1) (of_int pps)) bg)
           (py_range (Z.max 1 n))), g).
Proof.
  intros Hceil Hpps. unfold spans_to_color_strip, strip_layout.
  rewrite Hceil. unfold py_truediv. rewrite Hpps. cbn [bind].
  rewrite strip_loop_fills. reflexivity.
Qed.

Lemma strip_fills_with_background_witness :
  spans_to_color_strip late_span 1 (Some (9, 9, 9)) gen_one
  = (Ok (map (filled_pixel late_span (@div binary64 (of_int 1) (of_int 1))
                (9, 9, 9)) (py_range (Z.max 1 2))), gen_one).
Proof.
  apply (@strip_fills_with_background binary64
           {| note := 60; channel := 0; start := of_int 1; end_ := of_int 2;
              velocity := 100 |} [] 1 (9, 9, 9) gen_one 2).
  - vm_compute. reflexivity.
  - vm_compute. reflexivity.
Defined.

(** X14: without a background every filler pixel takes exactly three draws
    of randint(0, 255), for red, green and blue in this order, and the pixels
    of active spans take none: pixel i, when it is a filler, is made of the
    three draws that follow the 3 * k draws of the k filler pixels before it,
    and the generator ends 3 draws further for each filler pixel. *)
Theorem filler_pixels_take_three_draws {A : Arith}
    (first : NoteSpan num) (rest : list (NoteSpan num))
    (pps : Z) (g : rng) (n : Z) :
  math_ceil (mul (total_duration first rest) (of_int pps)) = Ok n ->
  eqb (of_int pps) (of_int 0) = false ->
  let step := div (of_int 1) (of_int pps) in
  let fillers := fun i =>
    length (filter (is_filler (first :: rest) step) (py_range i)) in
  exists strip,
    spans_to_color_strip (first :: rest) pps None g
    = (Ok strip,
       {| tape := tape g;
          taken := (taken g + 3 * fillers (Z.max 1 n))%nat |})
    /\ forall i, 0 <= i < Z.max 1 n ->
         is_filler (first :: rest) step i = true ->
         nth_error strip (Z.to_nat i)
         = Some (drawn_pixel g (3 * fillers i)).
Proof.
  intros Hceil Hpps step fillers. unfold spans_to_color_strip, strip_layout.
  rewrite Hceil. unfold py_truediv. rewrite Hpps. cbn [bind]. fold step.
  destruct (strip_loop_draws (first :: rest) step (py_range (Z.max 1 n)) [] g)
    as (added & Hloop & _ & Hnth).
  rewrite Hloop. exists added. split; [reflexivity |].
  intros i Hi Hfill.
  assert (Hidx : nth_error (py_range (Z.max 1 n)) (Z.to_nat i) = Some i).
  { rewrite py_range_nth by lia. f_equal. lia. }
  rewrite (Hnth _ _ Hidx Hfill).
  rewrite py_range_firstn by lia. rewrite Z2Nat.id by lia. reflexivity.
Qed.

Lemma filler_pixels_take_three_draws_witness :
  exists strip,
    spans_to_color_strip late_span 1 None gen_one
    = (Ok strip,
       {| tape := tape gen_one;
          taken := (taken gen_one
                    + 3 * length (filter (is_filler late_span
                                            (@div binary64 (of_int 1) (of_int 1)))
                                    (py_range (Z.max 1 2))))%nat |}).
Proof.
  destruct (@filler_pixels_take_three_draws binary64
              {| note := 60; channel := 0; start := of_int 1; end_ := of_int 2;
                 velocity := 100 |} [] 1 gen_one 2)
    as (strip & Hstrip & _).
  - vm_compute. reflexivity.
  - vm_compute. reflexivity.
  - exists strip. exact Hstrip.
Defined.

(** *** A pixel rate that is not positive *)

Lemma py_max_In {A : Arith} (x : num) (xs : list num) :
  In (py_max x xs) (x :: xs).
Proof.
  unfold py_max. revert x. induction xs as [| y xs IH]; intros x.
  - left. reflexivity.
  - cbn [fold_left]. destruct (ltb x y).
    + right. apply IH.
    + destruct (IH x) as [E | Hin]; [left; exact E | right; right; exact Hin].
Qed.

Lemma total_duration_In {A : Arith} (first : NoteSpan num)
    (rest : list (NoteSpan num)) :
  exists s, In s (first :: rest) /\ total_duration first rest = end_ s.
Proof.
  unfold total_duration.
  destruct (py_max_In (end_ first) (map end_ rest)) as [E | Hin].
  - exists first. split; [left; reflexivity | symmetry; exact E].
  - apply in_map_iff in Hin as (s & E & Hs).
    exists s. split; [right; exact Hs | symmetry; exact E].
Qed.

Lemma binary_round_aux_opp (m e : Z) (l : location) :
  binary_round_aux B64.prec B64.emax true m e l
  = SFopp (binary_round_aux B64.prec B64.emax false m e l).
Proof.
  unfold binary_round_aux.
  destruct (shr_fexp B64.prec B64.emax m e l) as [mrs' e'].
  destruct (shr_fexp B64.prec B64.emax _ e' loc_Exact) as [mrs'' e''].
  destruct (shr_m mrs'') as [| p | p]; [reflexivity | | reflexivity].
  destruct (_ <=? _); reflexivity.
Qed.

(** A negative int of at most 53 bits is a negative double. *)
Lemma b64_of_int_neg (n : Z) :
  - 2 ^ 53 < n < 0 ->
  exists m e,
    B64.of_int n = S754_finite true m e
    /\ b64_finite 1 54 (S754_finite false m e).
Proof.
  intros Hn. destruct n as [| p | p]; try lia.
  assert (Hd : 1 <= B64.digits (Z.pos p) <= 53).
  { unfold B64.digits.
    pose proof (Z.log2_nonneg (Z.pos p)).
    assert (Z.log2 (Z.pos p) < 53); [| lia].
    apply Z.log2_lt_pow2; lia. }
  destruct (b64_of_int_pos (Z.pos p) ltac:(lia) ltac:(lia))
    as (m & e & E & Hc & Hr).
  exists m, e. split.
  - unfold B64.of_int, binary_normalize, binary_round in *.
    destruct (shl_align p 0 _) as [mz ez].
    rewrite binary_round_aux_opp, E. reflexivity.
  - exists m, e. split; [reflexivity |]. split; [exact Hc | lia].
Qed.

Lemma b64_mul_neg (x : spec_float) (m : positive) (e : Z) :
  SFmul B64.prec B64.emax x (S754_finite true m e)
  = SFopp (SFmul B64.prec B64.emax x (S754_finite false m e)).
Proof.
  destruct x as [sx | sx | | sx mx ex]; try reflexivity.
  - destruct sx; reflexivity.
  - destruct sx; reflexivity.
  - unfold SFmul. destruct sx; cbn [xorb].
    + rewrite binary_round_aux_opp. 
      destruct (binary_round_aux B64.prec B64.emax false _ _ _) as [[|] | [|] | | [|] ? ?];
        reflexivity.
    + apply binary_round_aux_opp.
Qed.

Lemma b64_ceil_negative (m : positive) (e : Z) :
  exists n, B64.ceil (S754_finite true m e) = Some n /\ n <= 0.
Proof.
  unfold B64.ceil. eexists. split; [reflexivity |]. cbv beta iota zeta.
  destruct (0 <=? e).
  - pose proof (Z.pow_nonneg 2 e ltac:(lia)). 
    assert (0 <= Z.pos m * 2 ^ e) by (apply Z.mul_nonneg_nonneg; lia).
    replace (Z.neg m * 2 ^ e) with (- (Z.pos m * 2 ^ e))
      by (rewrite <- Z.mul_opp_l; reflexivity).
    lia.
  - assert (Hq : 0 <= - Z.neg m / 2 ^ (- e)); [| lia].
    change (- Z.neg m) with (Z.pos m).
    destruct (Z.leb_spec 0 (- e)) as [He | He].
    + apply Z.div_pos; [lia | apply Z.pow_pos_nonneg; lia].
    + rewrite Z.pow_neg_r by lia. rewrite Z.div_0_r. lia.
Qed.

(** X15: in double precision, for spans with finite ends, a pixel rate of 0
    makes the strip builder raise ZeroDivisionError (at step = 1.0 / 0, the
    generator untouched); a negative pixel rate (above -2^53, spans ending at
    zero or at positive times of ordinary magnitude) raises nothing: the
    strip is returned with exactly one pixel. *)
Theorem strip_for_nonpositive_pps
    (first : NoteSpan (@num binary64)) (rest : list (NoteSpan (@num binary64)))
    (background : option pixel) (g : rng) :
  (Forall (fun s => B64.is_finite (end_ s) = true) (first :: rest) ->
   spans_to_color_strip (first :: rest) 0 background g
   = (Raise ZeroDivisionError, g))
  /\ (forall pps,
        - 2 ^ 53 < pps < 0 ->
        Forall (fun s => B64.is_zero (end_ s) = true
                         \/ b64_finite (-500) 500 (end_ s)) (first :: rest) ->
        exists p g',
          spans_to_color_strip (first :: rest) pps background g
          = (Ok [p], g')).
Proof.
  destruct (total_duration_In first rest) as (s & Hs & Etotal).
  split.
  - intros Hfin. rewrite Forall_forall in Hfin. specialize (Hfin s Hs).
    unfold spans_to_color_strip, strip_layout, math_ceil.
    rewrite Etotal. cbn [mul of_int ceil binary64].
    change (B64.of_int 0) with (S754_zero false).
    change (@num binary64) with spec_float in *.
    assert (E : forall x, B64.is_finite x = true ->
              exists sz, SFmul B64.prec B64.emax x (S754_zero false)
                         = S754_zero sz).
    { intros [sx | sx | | sx mx ex] Hx; try discriminate;
        eexists; reflexivity. }
    destruct (E _ Hfin) as (sz & ->). reflexivity.
  - intros pps Hpps Hends. rewrite Forall_forall in Hends.
    specialize (Hends s Hs).
    destruct (b64_of_int_neg pps Hpps) as (m & e & Eint & Hfin).
    assert (Eceil : exists n,
              B64.ceil (SFmul B64.prec B64.emax (end_ s) (B64.of_int pps))
              = Some n /\ n <= 0).
    { change (@num binary64) with spec_float in *.
      rewrite Eint, b64_mul_neg. destruct Hends as [Hz | Hf].
      - assert (E : forall x, B64.is_zero x = true ->
                  exists sz,
                    SFopp (SFmul B64.prec B64.emax x (S754_finite false m e))
                    = S754_zero sz).
        { intros [sx | sx | | sx mx ex] Hx; try discriminate.
          eexists. reflexivity. }
        destruct (E _ Hz) as (sz & ->).
        exists 0. split; [reflexivity | lia].
      - destruct (b64_mul_finite _ _ _ _ _ _ Hf Hfin
                    ltac:(lia) ltac:(lia) ltac:(lia) ltac:(lia))
          as (m' & e' & -> & _).
        apply b64_ceil_negative. }
    destruct Eceil as (n & Eceil & Hn).
    unfold spans_to_color_strip, strip_layout, math_ceil, py_truediv.
    rewrite Etotal. cbn [mul div of_int ceil eqb binary64].
    change (@num binary64) with spec_float in *.
    rewrite Eceil. cbn [bind]. rewrite Eint.
    change (SFeqb (S754_finite true m e) (B64.of_int 0)) with false.
    cbn [bind]. replace (Z.max 1 n) with 1 by lia.
    change (py_range 1) with [0]. unfold strip_loop. cbn [fold_left].
    destruct (sample_pixel _ _ _ _ _) as [p g']. exists p, g'. reflexivity.
Qed.

(** ** Notes shorter than a pixel *)

Section Unsampled.
Context {A : Arith}.

Lemma strip_loop_same_samples (l1 l2 : list (NoteSpan num)) (step : num)
    (background : option pixel) (indices : list Z) (strip : list pixel)
    (g : rng) :
  (forall i, In i indices ->
     filter (is_active (sample_time step i)) l1
     = filter (is_active (sample_time step i)) l2) ->
  strip_loop l1 step background indices strip g
  = strip_loop l2 step background indices strip g.
Proof.
  revert strip g. induction indices as [| i indices IH]; intros strip g Hsame;
    [reflexivity |].
  unfold strip_loop in *. cbn [fold_left].
  assert (E : sample_pixel l1 step background i g
              = sample_pixel l2 step background i g).
  { unfold sample_pixel. rewrite (Hsame i (or_introl eq_refl)). reflexivity. }
  rewrite E. destruct (sample_pixel l2 step background i g) as [p g1].
  apply IH. intros j Hj. apply Hsame. right. exact Hj.
Qed.

(** X16: a span of the list, at whatever place, that no sample time falls
    into and that does not change the maximum of the ends leaves no trace:
    the strip, and the generator after the call, are those of the call on the
    list without it.  A note shorter than a pixel can vanish. *)
Theorem unsampled_span_leaves_no_trace
    (before after : list (NoteSpan num)) (s first : NoteSpan num)
    (rest : list (NoteSpan num))
    (pps : Z) (background : option pixel) (g : rng)
    (total_pixels : Z) (step : num) :
  before ++ after = first :: rest ->
  strip_layout first rest pps = Ok (total_pixels, step) ->
  max_end (before ++ s :: after) = max_end (before ++ after) ->
  (forall i, 0 <= i < total_pixels ->
     is_active (sample_time step i) s = false) ->
  spans_to_color_strip (before ++ s :: after) pps background g
  = spans_to_color_strip (before ++ after) pps background g.
Proof.
  intros Hothers Hlayout Htotal Hmiss.
  assert (Hsame : forall i, In i (py_range total_pixels) ->
            filter (is_active (sample_time step i)) (before ++ s :: after)
            = filter (is_active (sample_time step i)) (before ++ after)).
  { intros i Hi. apply py_range_In_inv in Hi.
    rewrite !filter_app. cbn [filter]. rewrite (Hmiss i Hi). reflexivity. }
  rewrite Hothers in Htotal, Hsame |- *.
  destruct before as [| b before].
  - cbn [app] in *. subst after. cbn [max_end] in Htotal.
    assert (Hlayout' : strip_layout s (first :: rest) pps
                       = Ok (total_pixels, step)).
    { unfold strip_layout in *.
      replace (total_duration s (first :: rest))
        with (total_duration first rest) by congruence.
      exact Hlayout. }
    unfold spans_to_color_strip. rewrite Hlayout, Hlayout'.
    rewrite (strip_loop_same_samples (s :: first :: rest) (first :: rest)
               step background _ [] g Hsame).
    reflexivity.
  - cbn [app] in *. inversion Hothers; subst b rest. cbn [max_end] in Htotal.
    assert (Hlayout' : strip_layout first (before ++ s :: after) pps
                       = Ok (total_pixels, step)).
    { unfold strip_layout in *.
      replace (total_duration first (before ++ s :: after))
        with (total_duration first (before ++ after)) by congruence.
      exact Hlayout. }
    unfold spans_to_color_strip. rewrite Hlayout, Hlayout'.
    rewrite (strip_loop_same_samples (first :: before ++ s :: after)
               (first :: before ++ after) step background _ [] g Hsame).
    reflexivity.
Qed.
End Unsampled.

Lemma unsampled_span_leaves_no_trace_witness :
  spans_to_color_strip [long_span; short_span] 1 None gen_one
  = spans_to_color_strip [long_span] 1 None gen_one.
Proof.
  apply (@unsampled_span_leaves_no_trace binary64 [long_span] [] short_span
           long_span [] 1 None gen_one 2 (@div binary64 (of_int 1) (of_int 1))).
  - reflexivity.
  - vm_compute. reflexivity.
  - vm_compute. reflexivity.
  - intros i Hi. assert (E : i = 0 \/ i = 1) by lia.
    destruct E as [-> | ->]; vm_compute; reflexivity.
Defined.

(** ** More on the rectangle packer *)

Lemma py_prefix_Forall {T : Type} (P : T -> Prop) (l : list T) (n : Z) :
  Forall P l -> Forall P (py_prefix l n).
Proof.
  intros H. unfold py_prefix.
  assert (Hf : forall k, Forall P (firstn k l)).
  { intros k. rewrite <- (firstn_skipn k l) in H.
    apply Forall_app in H. apply H. }
  destruct (0 <=? n); apply Hf.
Qed.

Lemma pad_keeps_rgb (needed : Z) (noise : bool) (strip : loc) (w : world) :
  (strip < length (heap w))%nat ->
  Forall pixel_ok (heap_get (heap w) strip) ->
  Forall pixel_ok (heap_get (heap (pad needed noise strip w)) strip).
Proof.
  intros Hl Hok. unfold pad. destruct (0 <? needed); [| exact Hok].
  destruct noise.
  - generalize (Z.to_nat needed) as k. intros k. revert w Hl Hok.
    induction k as [| k IH]; intros w Hl Hok; [exact Hok |].
    cbn [append_noise]. rewrite random_pixel_drawn. apply IH; cbn [heap].
    + rewrite heap_set_length. exact Hl.
    + rewrite heap_get_set_same by exact Hl.
      apply Forall_app. split; [exact Hok |].
      constructor; [apply drawn_pixel_ok | constructor].
  - unfold extend_black. cbn [heap].
    rewrite heap_get_set_same by exact Hl.
    apply Forall_app. split; [exact Hok |].
    apply Forall_forall. intros p Hp. apply repeat_spec in Hp. subst p.
    repeat split; reflexivity.
Qed.

(** What a call of the packer that returns went through. *)
Lemma packer_returns {A : Arith} (pillow noise : bool) (strip : loc)
    (ratio_w ratio_h : Z) (w w' : world) (p : Packed) :
  color_strip_to_rect_image pillow strip (ratio_w, ratio_h) noise w
  = (Ok p, w') ->
  heap_get (heap w) strip <> []
  /\ 0 < ratio_w /\ 0 < ratio_h
  /\ exists width height,
       rect_dims (Z.of_nat (length (heap_get (heap w) strip))) ratio_w ratio_h
       = Ok (width, height).
Proof.
  unfold color_strip_to_rect_image.
  destruct (heap_get (heap w) strip) as [| p0 rest]; [discriminate |].
  destruct ((ratio_w <=? 0) || (ratio_h <=? 0)) eqn:Er; [discriminate |].
  apply orb_false_iff in Er as [E1 E2].
  apply Z.leb_gt in E1. apply Z.leb_gt in E2.
  destruct (rect_dims (Z.of_nat (length (p0 :: rest))) ratio_w ratio_h)
    as [[width height] | e]; [| discriminate].
  intros _. split; [discriminate |]. split; [exact E1 |].
  split; [exact E2 |]. exists width, height. reflexivity.
Qed.

(** The packer keeps RGB triples of bytes. *)
Lemma packer_data_ok {A : Arith} (pillow noise : bool)
    (strip : loc) (ratio : Z * Z) (w w' : world) (p : Packed) :
  Forall pixel_ok (heap_get (heap w) strip) ->
  color_strip_to_rect_image pillow strip ratio noise w = (Ok p, w') ->
  Forall pixel_ok (packed_data (heap w') p)
  /\ Forall pixel_ok (heap_get (heap w') strip).
Proof.
  intros Hok Hcall. destruct ratio as [ratio_w ratio_h].
  destruct (packer_returns _ _ _ _ _ _ _ _ Hcall)
    as (Hne & Hw & Hh & width & height & Hdims).
  pose proof (heap_get_allocated _ _ Hne) as Hl.
  set (needed := width * height
                 - Z.of_nat (length (heap_get (heap w) strip))).
  pose proof (pad_keeps_rgb needed noise strip w Hl Hok) as Hpad.
  destruct (packer_effect pillow noise strip ratio_w ratio_h w width height
              Hne Hw Hh Hdims)
    as (p1 & w1 & padding & H1 & _ & H3 & _ & _ & H6 & _).
  rewrite Hcall in H1. inversion H1; subst p1 w1. clear H1.
  destruct (pad_extends needed noise strip w Hl) as (padding' & E1 & _).
  assert (Hall : Forall pixel_ok (heap_get (heap w) strip ++ padding)).
  { rewrite <- H3.
    (* the list after the call is the padded list *)
    revert Hcall. unfold color_strip_to_rect_image.
    destruct (heap_get (heap w) strip) as [| p0 rest] eqn:Eh;
      [contradiction |].
    assert (Er : (ratio_w <=? 0) || (ratio_h <=? 0) = false)
      by (apply orb_false_iff; split; apply Z.leb_gt; assumption).
    rewrite Er, Hdims. fold needed.
    destruct pillow; intros Hcall; inversion Hcall; subst; cbn [heap].
    - exact Hpad.
    - unfold heap_get at 1. rewrite app_nth1; [exact Hpad |].
      destruct (pad_extends needed noise strip w Hl) as (_ & _ & _ & _ & E4 & _).
      rewrite E4. exact Hl. }
  split; [rewrite H6; apply py_prefix_Forall; exact Hall |].
  rewrite H3. exact Hall.
Qed.

(** X17: the packer refuses an empty strip with ValueError "Color strip is
    empty", whatever the ratio, and a strip that is not empty with
    ValueError "Aspect ratio must be positive" when a component of the ratio
    is zero or negative; and whenever it raises, whatever the exception, no
    list has been changed and nothing has been drawn. *)
Theorem packer_refuses_bad_input {A : Arith} (pillow noise : bool)
    (strip : loc) (ratio_w ratio_h : Z) (w : world) :
  (heap_get (heap w) strip = [] ->
   color_strip_to_rect_image pillow strip (ratio_w, ratio_h) noise w
   = (Raise (ValueError "Color strip is empty"), w))
  /\ (heap_get (heap w) strip <> [] ->
      ratio_w <= 0 \/ ratio_h <= 0 ->
      color_strip_to_rect_image pillow strip (ratio_w, ratio_h) noise w
      = (Raise (ValueError "Aspect ratio must be positive"), w))
  /\ (forall e w',
        color_strip_to_rect_image pillow strip (ratio_w, ratio_h) noise w
        = (Raise e, w') -> w' = w).
Proof.
  unfold color_strip_to_rect_image. split; [| split].
  - intros ->. reflexivity.
  - intros Hne Hr.
    destruct (heap_get (heap w) strip) as [| p0 rest]; [contradiction |].
    assert (Er : (ratio_w <=? 0) || (ratio_h <=? 0) = true).
    { apply orb_true_iff. destruct Hr; [left | right]; apply Z.leb_le; lia. }
    rewrite Er. reflexivity.
  - intros e w'.
    destruct (heap_get (heap w) strip) as [| p0 rest].
    { intros H. inversion H. reflexivity. }
    destruct ((ratio_w <=? 0) || (ratio_h <=? 0)).
    { intros H. inversion H. reflexivity. }
    destruct (rect_dims (Z.of_nat (length (p0 :: rest))) ratio_w ratio_h)
      as [[width height] | e0].
    + destruct pillow; [discriminate |].
      destruct (heap_alloc _ _). discriminate.
    + intros H. inversion H. reflexivity.
Qed.

(** X18: whenever the packer returns, for a strip of RGB triples of bytes,
    the pixels it returns are RGB triples of bytes, and so are those of the
    caller's list after the call: the noise it appends is drawn in 0..255 and
    the other padding is black. *)
Theorem packer_keeps_pixels_rgb {A : Arith} (pillow noise : bool)
    (strip : loc) (ratio : Z * Z) (w w' : world) (p : Packed) :
  Forall pixel_ok (heap_get (heap w) strip) ->
  color_strip_to_rect_image pillow strip ratio noise w = (Ok p, w') ->
  Forall pixel_ok (packed_data (heap w') p)
  /\ Forall pixel_ok (heap_get (heap w') strip).
Proof.
  intros Hok Hcall.
  destruct (packer_data_ok pillow noise strip ratio w w' p Hok Hcall)
    as [Hdata Hlist].
  split; [exact Hdata | exact Hlist].
Qed.

(** *** The canvas in double precision *)

Lemma binary_round_aux_unsigned (m e : Z) (l : location) :
  b64_unsigned (binary_round_aux B64.prec B64.emax false m e l).
Proof.
  unfold binary_round_aux.
  destruct (shr_fexp B64.prec B64.emax m e l) as [mrs' e'].
  destruct (shr_fexp B64.prec B64.emax _ e' loc_Exact) as [mrs'' e''].
  destruct (shr_m mrs'') as [| p | p]; [reflexivity | | exact I].
  destruct (_ <=? _); reflexivity.
Qed.

Lemma b64_of_int_unsigned (n : Z) : 0 <= n -> b64_unsigned (B64.of_int n).
Proof.
  intros Hn. unfold B64.of_int, binary_normalize.
  destruct n as [| p | p]; [reflexivity | | lia].
  unfold binary_round.
  destruct (shl_align p 0 _) as [mz ez]. apply binary_round_aux_unsigned.
Qed.

Lemma b64_div_unsigned (x y : spec_float) :
  b64_unsigned x -> b64_unsigned y ->
  b64_unsigned (SFdiv B64.prec B64.emax x y).
Proof.
  destruct x as [sx | sx | | sx mx ex], y as [sy | sy | | sy my ey];
    cbn [b64_unsigned]; intros Hx Hy; subst; try exact I; try reflexivity.
  unfold SFdiv. cbn [xorb].
  match goal with
  | |- context [let '(_, _) := ?c in _] => destruct c as [[mz ez] lz]
  end.
  apply binary_round_aux_unsigned.
Qed.

Lemma b64_int_div_unsigned (a b : Z) (q : spec_float) :
  0 < a -> 0 < b -> B64.int_div a b = Some q -> b64_unsigned q.
Proof.
  intros Ha Hb. unfold B64.int_div.
  assert (Hq : b64_unsigned
                 (SFdiv B64.prec B64.emax (B64.unrounded a) (B64.unrounded b))).
  { apply b64_div_unsigned; [destruct a | destruct b]; try lia; reflexivity. }
  destruct (SFdiv B64.prec B64.emax (B64.unrounded a) (B64.unrounded b));
    intros E; inversion E; subst; try exact Hq; discriminate.
Qed.

Lemma b64_mul_unsigned (x y : spec_float) :
  b64_unsigned x -> b64_unsigned y ->
  b64_unsigned (SFmul B64.prec B64.emax x y).
Proof.
  destruct x as [sx | sx | | sx mx ex], y as [sy | sy | | sy my ey];
    cbn [b64_unsigned]; intros Hx Hy; subst; try exact I; try reflexivity.
  unfold SFmul. cbn [xorb]. apply binary_round_aux_unsigned.
Qed.

Lemma b64_sqrt_unsigned (x : spec_float) :
  b64_unsigned x -> b64_unsigned (SFsqrt B64.prec B64.emax x).
Proof.
  destruct x as [sx | sx | | sx mx ex]; cbn [b64_unsigned]; intros Hx; subst;
    try exact I; try reflexivity.
  unfold SFsqrt.
  match goal with
  | |- context [let '(_, _) := ?c in _] => destruct c as [[mz ez] lz]
  end.
  apply binary_round_aux_unsigned.
Qed.

Lemma b64_ceil_unsigned (x : spec_float) (n : Z) :
  b64_unsigned x -> B64.ceil x = Some n -> 0 <= n.
Proof.
  destruct x as [sx | sx | | sx mx ex]; unfold B64.ceil, b64_unsigned;
    intros Hx H; subst; try discriminate.
  { assert (n = 0) by congruence. lia. }
  cbv beta iota zeta in H.
  assert (En : n = if 0 <=? ex then Z.pos mx * 2 ^ ex
                   else - (- Z.pos mx / 2 ^ (- ex))) by congruence.
  clear H. subst n.
  destruct (0 <=? ex).
  - apply Z.mul_nonneg_nonneg; [lia | apply Z.pow_nonneg; lia].
  - assert (Hq : - Z.pos mx / 2 ^ (- ex) <= 0); [| lia].
    destruct (Z.leb_spec 0 (- ex)) as [He | He].
    + pose proof (Z.pow_pos_nonneg 2 (- ex) ltac:(lia) He).
      apply Z.div_le_upper_bound; lia.
    + rewrite Z.pow_neg_r by lia. rewrite Z.div_0_r. lia.
Qed.

(** In double precision the dimensions are not negative. *)
Lemma b64_rect_dims_nonneg (area ratio_w ratio_h width height : Z) :
  0 <= area -> 0 < ratio_w -> 0 < ratio_h ->
  @rect_dims binary64 area ratio_w ratio_h = Ok (width, height) ->
  0 <= width /\ 0 <= height.
Proof.
  intros Ha Hw Hh.
  unfold rect_dims, py_int_truediv, py_truediv, math_sqrt, math_ceil.
  cbn [eqb ltb div int_div mul sqrt of_int ceil binary64].
  destruct (ratio_h =? 0); [discriminate |].
  destruct (B64.int_div ratio_w ratio_h) as [ratio |] eqn:Er; [| discriminate].
  cbn [bind].
  pose proof (b64_int_div_unsigned _ _ _ Hw Hh Er) as Hr.
  destruct (SFeqb ratio (B64.of_int 0)); [discriminate |]. cbn [bind].
  set (q := SFdiv B64.prec B64.emax (B64.of_int area) ratio).
  assert (Hq : b64_unsigned q)
    by (apply b64_div_unsigned; [apply b64_of_int_unsigned; lia | exact Hr]).
  destruct (SFltb q (B64.of_int 0)); [discriminate |]. cbn [bind].
  pose proof (b64_sqrt_unsigned q Hq) as Hroot.
  destruct (B64.ceil (SFsqrt B64.prec B64.emax q)) as [h |] eqn:Eh;
    [| destruct (is_nan _); discriminate].
  cbn [bind].
  pose proof (b64_ceil_unsigned _ _ Hroot Eh) as Hh0.
  destruct (B64.ceil (SFmul B64.prec B64.emax (B64.of_int h) ratio))
    as [w0 |] eqn:Ew; [| destruct (is_nan _); discriminate].
  cbn [bind]. intros H. inversion H; subst.
  split; [| exact Hh0].
  eapply b64_ceil_unsigned; [| exact Ew].
  apply b64_mul_unsigned; [apply b64_of_int_unsigned; exact Hh0 | exact Hr].
Qed.

Lemma py_prefix_length {T : Type} (l : list T) (n : Z) :
  0 <= n <= Z.of_nat (length l) -> Z.of_nat (length (py_prefix l n)) = n.
Proof.
  intros Hn. unfold py_prefix.
  assert (E : (0 <=? n) = true) by (apply Z.leb_le; lia).
  rewrite E, length_firstn. lia.
Qed.


(** In double precision the canvas has width * height pixels, neither
    negative. *)
Lemma b64_canvas (pillow noise : bool) (strip : loc) (ratio : Z * Z)
    (w w' : world) (p : Packed) :
  color_strip_to_rect_image (A := binary64) pillow strip ratio noise w
  = (Ok p, w') ->
  0 <= fst (packed_dims p) /\ 0 <= snd (packed_dims p)
  /\ Z.of_nat (length (packed_data (heap w') p))
     = fst (packed_dims p) * snd (packed_dims p).
Proof.
  intros Hcall. destruct ratio as [ratio_w ratio_h].
  destruct (packer_returns _ _ _ _ _ _ _ _ Hcall)
    as (Hne & Hw & Hh & width & height & Hdims).
  destruct (packer_effect pillow noise strip ratio_w ratio_h w width height
              Hne Hw Hh Hdims)
    as (p1 & w1 & padding & H1 & H2 & _ & H4 & _ & H6 & _).
  rewrite Hcall in H1. inversion H1; subst p1 w1. clear H1.
  destruct (b64_rect_dims_nonneg _ _ _ _ _ (Nat2Z.is_nonneg _) Hw Hh Hdims)
    as [Hw0 Hh0].
  rewrite H2. cbn [fst snd]. split; [exact Hw0 |]. split; [exact Hh0 |].
  rewrite H6. apply py_prefix_length. rewrite length_app, H4.
  split; [apply Z.mul_nonneg_nonneg; assumption | lia].
Qed.


(** X19: in double precision, whenever the packer returns, the width and the
    height are not negative and the pixels returned are exactly
    width * height, for every strip and every ratio, also where rounding
    makes the rectangle smaller than the strip. *)
Theorem canvas_has_width_times_height_pixels (pillow noise : bool)
    (strip : loc) (ratio : Z * Z) (w w' : world) (p : Packed) :
  color_strip_to_rect_image (A := binary64) pillow strip ratio noise w
  = (Ok p, w') ->
  0 <= fst (packed_dims p) /\ 0 <= snd (packed_dims p)
  /\ Z.of_nat (length (packed_data (heap w') p))
     = fst (packed_dims p) * snd (packed_dims p).
Proof.
  intros Hcall.
  destruct (b64_canvas pillow noise strip ratio w w' p Hcall)
    as (Hw & Hh & Hlen).
  split; [exact Hw |]. split; [exact Hh | exact Hlen].
Qed.

Lemma canvas_has_width_times_height_pixels_witness :
  0 <= 2 /\ 0 <= 1
  /\ Z.of_nat (length [(1, 2, 3); (1, 1, 1)]) = 2 * 1.
Proof.
  apply (canvas_has_width_times_height_pixels false true 0%nat (4, 3)
           {| heap := [[(1, 2, 3)]]; gen := gen_one |}
           {| heap := [[(1, 2, 3); (1, 1, 1)]; [(1, 2, 3); (1, 1, 1)]];
              gen := {| tape := fun _ => 1; taken := 3 |} |}
           (RawImage 2 1 1%nat)).
  vm_compute. reflexivity.
Defined.

Lemma packer_keeps_pixels_rgb_witness :
  Forall pixel_ok [(1, 2, 3); (1, 1, 1)]
  /\ Forall pixel_ok [(1, 2, 3); (1, 1, 1)].
Proof.
  apply (@packer_keeps_pixels_rgb binary64 false true 0%nat (4, 3)
           {| heap := [[(1, 2, 3)]]; gen := gen_one |}
           {| heap := [[(1, 2, 3); (1, 1, 1)]; [(1, 2, 3); (1, 1, 1)]];
              gen := {| tape := fun _ => 1; taken := 3 |} |}
           (RawImage 2 1 1%nat)).
  - repeat constructor.
  - vm_compute. reflexivity.
Defined.

(** ** More on the PNG writer *)

Lemma bytearray_extend_pixel (raw : list Z) (r g b : Z) :
  bytearray_extend raw [r; g; b]
  = if pixel_okb (r, g, b) then Ok (raw ++ [r; g; b])
    else Raise (ValueError BYTE_RANGE).
Proof.
  unfold pixel_okb, bytearray_extend, bytearray_append, BYTE_RANGE.
  destruct (byte_ok r); [| reflexivity]. cbn [bind andb].
  destruct (byte_ok g); [| reflexivity]. cbn [bind andb].
  destruct (byte_ok b); [| reflexivity]. cbn [bind].
  rewrite <- !app_assoc. reflexivity.
Qed.

Lemma list_index_raises {T : Type} (l : list T) (i : Z) (e : exn) :
  list_index l i = Raise e -> e = IndexError.
Proof.
  unfold list_index.
  destruct ((0 <=? _) && (_ <? _));
    [destruct (nth_error l _) |]; intros H; inversion H; reflexivity.
Qed.

Lemma list_index_inside {T : Type} (l : list T) (i : Z) :
  0 <= i < Z.of_nat (length l) ->
  exists v, list_index l i = Ok v /\ nth_error l (Z.to_nat i) = Some v.
Proof.
  intros Hi.
  destruct (nth_error l (Z.to_nat i)) as [v |] eqn:E.
  - exists v. split; [| reflexivity].
    rewrite <- (Z2Nat.id i) by lia. apply list_index_nth. exact E.
  - apply nth_error_None in E. lia.
Qed.

Lemma list_index_outside {T : Type} (l : list T) (i : Z) :
  Z.of_nat (length l) <= i -> list_index l i = Raise IndexError.
Proof.
  intros Hi. unfold list_index.
  assert (E1 : (i <? 0) = false) by (apply Z.ltb_ge; lia). rewrite E1.
  assert (E2 : (0 <=? i) && (i <? Z.of_nat (length l)) = false).
  { apply andb_false_iff. right. apply Z.ltb_ge. lia. }
  rewrite E2. reflexivity.
Qed.

Lemma list_index_ok {T : Type} (l : list T) (i : Z) (v : T) :
  0 <= i -> list_index l i = Ok v -> nth_error l (Z.to_nat i) = Some v.
Proof.
  intros Hi. unfold list_index.
  assert (E1 : (i <? 0) = false) by (apply Z.ltb_ge; lia). rewrite E1.
  destruct ((0 <=? i) && (i <? Z.of_nat (length l))); [| discriminate].
  destruct (nth_error l (Z.to_nat i)); [| discriminate].
  intros H. inversion H. reflexivity.
Qed.

Section PngMore.
Variable zlib_compress : list Z -> Z -> list Z.
Variable data : list pixel.

Lemma row_loop_inv (rs : Z) (xs : list Z) (raw : list Z) :
  match row_loop data rs xs raw with
  | Ok _ => Forall (fun x => readable data (rs + x)) xs
  | Raise e => Exists (fun x => refused data e (rs + x)) xs
  end.
Proof.
  revert raw. induction xs as [| x xs IH]; intros raw; cbn [row_loop];
    [constructor |].
  destruct (list_index data (rs + x)) as [[[r g] b] | e] eqn:Ei; cbn [bind].
  - rewrite bytearray_extend_pixel.
    destruct (pixel_okb (r, g, b)) eqn:Eok; cbn [bind].
    + specialize (IH (raw ++ [r; g; b])).
      destruct (row_loop data rs xs (raw ++ [r; g; b])).
      * constructor; [| exact IH]. exists (r, g, b).
        split; [exact Ei | apply pixel_okb_spec; exact Eok].
      * apply Exists_cons_tl. exact IH.
    + apply Exists_cons_hd. right. exists (r, g, b).
      split; [exact Ei |]. split; [| reflexivity].
      intros H. apply pixel_okb_spec in H. congruence.
  - apply Exists_cons_hd. left.
    pose proof (list_index_raises _ _ _ Ei). subst e. auto.
Qed.

Lemma scanline_loop_inv (width : Z) (ys : list Z) (raw : list Z) :
  match scanline_loop data width ys raw with
  | Ok _ =>
      Forall (fun y => Forall (fun x => readable data (y * width + x))
                              (py_range width)) ys
  | Raise e =>
      Exists (fun y => Exists (fun x => refused data e (y * width + x))
                              (py_range width)) ys
  end.
Proof.
  revert raw. induction ys as [| y ys IH]; intros raw; cbn [scanline_loop];
    [constructor |].
  rewrite bytearray_append_ok by reflexivity. cbn [bind].
  pose proof (row_loop_inv (y * width) (py_range width) (raw ++ [0])) as Hrow.
  destruct (row_loop data (y * width) (py_range width) (raw ++ [0]))
    as [raw1 | e]; cbn [bind].
  - specialize (IH raw1). destruct (scanline_loop data width ys raw1).
    + constructor; assumption.
    + apply Exists_cons_tl. exact IH.
  - apply Exists_cons_hd. exact Hrow.
Qed.

Lemma write_png_raises_in_loop (width height : Z) (e : exn) :
  scanline_loop data width (py_range height) [] = Raise e ->
  _write_png zlib_compress width height data = Raise e.
Proof. intros H. unfold _write_png. rewrite H. reflexivity. Qed.

(** The row and the column of a pixel of the rectangle. *)
Lemma rectangle_cell (width height i : Z) :
  0 <= width ->
  0 <= i < width * height ->
  In (i / width) (py_range height) /\ In (i mod width) (py_range width)
  /\ i / width * width + i mod width = i.
Proof.
  intros Hw0 Hi.
  assert (Hw : 0 < width).
  { destruct (Z.eq_dec width 0) as [E | E]; [| lia].
    rewrite E, Z.mul_0_l in Hi. lia. }
  split; [| split].
  - apply py_range_In. split; [apply Z.div_pos; lia |].
    apply Z.div_lt_upper_bound; lia.
  - apply py_range_In. apply Z.mod_pos_bound. exact Hw.
  - rewrite (Z.div_mod i width) at 3 by lia. ring.
Qed.

Lemma cell_in_rectangle (width height y x : Z) :
  In y (py_range height) -> In x (py_range width) ->
  0 <= y * width + x < width * height.
Proof.
  intros Hy Hx. apply py_range_In_inv in Hy, Hx. nia.
Qed.

(** X20: given fewer than width * height pixels, all of them RGB triples
    of bytes, the writer raises IndexError (from the loop over the rows,
    before anything is packed or written). *)
Theorem write_png_needs_all_pixels (width height : Z) :
  Forall pixel_ok data ->
  Z.of_nat (length data) < width * height ->
  0 <= width ->
  _write_png zlib_compress width height data = Raise IndexError.
Proof.
  intros Hok Hshort Hw.
  pose proof (scanline_loop_inv width (py_range height) []) as Hinv.
  destruct (scanline_loop data width (py_range height) []) as [raw | e] eqn:El.
  - exfalso.
    destruct (rectangle_cell width height (Z.of_nat (length data)))
      as (Hy & Hx & Hcell); [lia | lia |].
    rewrite Forall_forall in Hinv. specialize (Hinv _ Hy).
    rewrite Forall_forall in Hinv. specialize (Hinv _ Hx).
    rewrite Hcell in Hinv. destruct Hinv as (p & Hp & _).
    rewrite list_index_outside in Hp by lia. discriminate.
  - apply Exists_exists in Hinv as (y & Hy & Hinv).
    apply Exists_exists in Hinv as (x & Hx & Hinv).
    destruct Hinv as [[_ ->] | (p & Hp & Hbad & _)].
    + apply write_png_raises_in_loop. exact El.
    + exfalso. apply Hbad.
      pose proof (cell_in_rectangle _ _ _ _ Hy Hx) as Hi.
      apply list_index_ok in Hp; [| lia].
      rewrite Forall_forall in Hok. apply Hok.
      eapply nth_error_In. exact Hp.
Qed.

(** X21: given at least width * height pixels, one of the first
    width * height of which has a channel outside 0..255, the writer raises
    ValueError "byte must be in range(0, 256)". *)
Theorem write_png_refuses_bad_channels (width height i : Z) (p : pixel) :
  width * height <= Z.of_nat (length data) ->
  0 <= width ->
  0 <= i < width * height ->
  nth_error data (Z.to_nat i) = Some p ->
  ~ pixel_ok p ->
  _write_png zlib_compress width height data = Raise (ValueError BYTE_RANGE).
Proof.
  intros Hlen Hw Hi Hp Hbad.
  pose proof (scanline_loop_inv width (py_range height) []) as Hinv.
  destruct (scanline_loop data width (py_range height) []) as [raw | e] eqn:El.
  - exfalso.
    destruct (rectangle_cell width height i Hw Hi) as (Hy & Hx & Hcell).
    rewrite Forall_forall in Hinv. specialize (Hinv _ Hy).
    rewrite Forall_forall in Hinv. specialize (Hinv _ Hx).
    rewrite Hcell in Hinv. destruct Hinv as (q & Hq & Hqok).
    apply list_index_ok in Hq; [| lia]. congruence.
  - apply Exists_exists in Hinv as (y & Hy & Hinv).
    apply Exists_exists in Hinv as (x & Hx & Hinv).
    destruct Hinv as [[Hout _] | (q & _ & _ & ->)].
    + exfalso. pose proof (cell_in_rectangle _ _ _ _ Hy Hx) as Hc.
      destruct (list_index_inside data (y * width + x)) as (v & Hv & _);
        [lia |]. congruence.
    + apply write_png_raises_in_loop. exact El.
Qed.
End PngMore.

(** *** Reading the file back *)

Lemma be32_value_be32 (n : Z) : 0 <= n < 2 ^ 32 -> be32_value (be32 n) = n.
Proof.
  intros Hn. unfold be32_value, be32. cbn [fold_left].
  change (2 ^ 32) with 4294967296 in Hn.
  pose proof (Z.div_mod n 256 ltac:(lia)).
  pose proof (Z.div_mod (n / 256) 256 ltac:(lia)).
  pose proof (Z.div_mod (n / 256 / 256) 256 ltac:(lia)).
  assert (E1 : n / 65536 = n / 256 / 256)
    by (rewrite Z.div_div by lia; reflexivity).
  assert (E2 : n / 16777216 = n / 256 / 256 / 256)
    by (rewrite !Z.div_div by lia; reflexivity).
  assert (E3 : n / 16777216 mod 256 = n / 16777216).
  { apply Z.mod_small. split; [apply Z.div_pos; lia |].
    apply Z.div_lt_upper_bound; lia. }
  rewrite E3, E1, E2. lia.
Qed.

Lemma flat_map_pixel_bytes_length (l : list pixel) :
  length (flat_map pixel_bytes l) = (3 * length l)%nat.
Proof.
  induction l as [| [[r g] b] l IH]; [reflexivity |].
  cbn [flat_map pixel_bytes app length]. rewrite IH. lia.
Qed.

Lemma flat_map_pixel_bytes_nth (l : list pixel) (x : nat) (r g b : Z) :
  nth_error l x = Some (r, g, b) ->
  nth_error (flat_map pixel_bytes l) (3 * x) = Some r
  /\ nth_error (flat_map pixel_bytes l) (3 * x + 1) = Some g
  /\ nth_error (flat_map pixel_bytes l) (3 * x + 2) = Some b.
Proof.
  revert x. induction l as [| [[r0 g0] b0] l IH]; intros [| x] H;
    try discriminate.
  - inversion H; subst. repeat split; reflexivity.
  - simpl in H. destruct (IH x H) as (H1 & H2 & H3).
    replace (3 * S x)%nat with (S (S (S (3 * x)))) by lia.
    cbn [flat_map pixel_bytes app nth_error Nat.add].
    repeat split; assumption.
Qed.

(** Row [y] of the scanlines begins at offset [y * (3 * wn + 1)] with the
    filter byte; the three bytes of its pixel [x] follow at [1 + 3 * x]. *)
Lemma scanlines_nth (wn : nat) (rows : nat) (data : list pixel)
    (y x : nat) (r g b : Z) :
  (y < rows)%nat -> (x < wn)%nat ->
  nth_error data (y * wn + x) = Some (r, g, b) ->
  let o := (y * (3 * wn + 1))%nat in
  nth_error (scanlines wn rows data) o = Some 0
  /\ nth_error (scanlines wn rows data) (o + 1 + 3 * x) = Some r
  /\ nth_error (scanlines wn rows data) (o + 1 + 3 * x + 1) = Some g
  /\ nth_error (scanlines wn rows data) (o + 1 + 3 * x + 2) = Some b.
Proof.
  revert data y. induction rows as [| rows IH]; intros data y Hy Hx Hp;
    [lia |].
  cbn [scanlines]. destruct y as [| y].
  - cbn [Nat.mul Nat.add nth_error]. split; [reflexivity |].
    assert (Hf : nth_error (firstn wn data) x = Some (r, g, b)).
    { rewrite nth_error_firstn.
      destruct (Nat.ltb_spec x wn); [exact Hp | lia]. }
    destruct (flat_map_pixel_bytes_nth _ _ _ _ _ Hf) as (H1 & H2 & H3).
    assert (Hlen : (3 * x + 2 < length (flat_map pixel_bytes (firstn wn data)))%nat).
    { rewrite flat_map_pixel_bytes_length.
      assert (x < length (firstn wn data))%nat
        by (apply nth_error_Some; congruence). lia. }
    rewrite !nth_error_app1 by lia. repeat split; assumption.
  - assert (Hfull : length (firstn wn data) = wn).
    { apply firstn_length_le.
      assert (S y * wn + x < length data)%nat
        by (apply nth_error_Some; congruence). nia. }
    assert (Hrow : length (flat_map pixel_bytes (firstn wn data))
                   = (3 * wn)%nat)
      by (rewrite flat_map_pixel_bytes_length, Hfull; reflexivity).
    assert (Hp' : nth_error (skipn wn data) (y * wn + x) = Some (r, g, b)).
    { rewrite nth_error_skipn. rewrite <- Hp. f_equal. lia. }
    destruct (IH (skipn wn data) y ltac:(lia) Hx Hp') as (H0 & H1 & H2 & H3).
    assert (Hshift : forall k,
              nth_error (0 :: flat_map pixel_bytes (firstn wn data)
                           ++ scanlines wn rows (skipn wn data))
                        (S y * (3 * wn + 1) + k)
              = nth_error (scanlines wn rows (skipn wn data))
                          (y * (3 * wn + 1) + k)).
    { intros k.
      replace (S y * (3 * wn + 1) + k)%nat
        with (S (3 * wn + (y * (3 * wn + 1) + k))) by lia.
      cbn [nth_error]. rewrite nth_error_app2 by lia.
      f_equal. lia. }
    cbv zeta in H0, H1, H2, H3 |- *.
    split; [rewrite <- (Nat.add_0_r (S y * _)), Hshift, Nat.add_0_r; exact H0 |].
    rewrite <- !Nat.add_assoc, !Hshift, !Nat.add_assoc.
    repeat split; assumption.
Qed.

Section PngRoundTrip.
Variable zlib_compress : list Z -> Z -> list Z.
Variable unzip : list Z -> list Z.
Hypothesis unzip_compress : forall raw, unzip (zlib_compress raw 9) = raw.
Variable data : list pixel.
Hypothesis data_ok : Forall pixel_ok data.

(** The layout, for a buffer that has the pixels and may have more. *)
Lemma write_png_layout (width height : Z) :
  0 <= width < 2 ^ 32 ->
  0 <= height < 2 ^ 32 ->
  width * height <= Z.of_nat (length data) ->
  Z.of_nat (length (zlib_compress
                      (scanlines (Z.to_nat width) (Z.to_nat height) data) 9))
  < 2 ^ 32 ->
  _write_png zlib_compress width height data
  = Ok (png_layout zlib_compress width height data).
Proof.
  intros Hw Hh Hlen Hz. unfold _write_png, png_layout.
  unfold py_range at 1.
  rewrite <- (Z2Nat.id width) at 1 by lia.
  rewrite (scanline_loop_spec data data_ok (Z.to_nat width) (Z.to_nat height)
             0 []) by nia.
  cbn [bind app]. rewrite Nat.mul_0_l. cbn [skipn].
  unfold pack_header.
  rewrite !pack_I_be32 by lia. cbn [bind].
  change (pack_B 8) with (@Ok (list Z) [8]).
  change (pack_B 2) with (@Ok (list Z) [2]).
  change (pack_B 0) with (@Ok (list Z) [0]). cbn [bind].
  rewrite (chunk_framed "IHDR") by (simpl; lia). cbn [bind].
  rewrite (chunk_framed "IDAT") by exact Hz. cbn [bind].
  rewrite (chunk_framed "IEND") by (simpl; lia). cbn [bind].
  reflexivity.
Qed.

(** The file read from its start: the chunks in a row. *)
Lemma png_layout_parts (width height : Z) :
  let z := zlib_compress
             (scanlines (Z.to_nat width) (Z.to_nat height) data) 9 in
  exists crc1 rest,
    png_layout zlib_compress width height data
    = (PNG_SIGNATURE ++ be32 13 ++ bytes_of_string "IHDR")
        ++ be32 width ++ be32 height ++ ([8; 2; 0; 0; 0] ++ be32 crc1)
        ++ (be32 (Z.of_nat (length z)) ++ bytes_of_string "IDAT")
        ++ z ++ rest.
Proof.
  intros z. unfold png_layout, framed. fold z.
  eexists _, _. rewrite <- !app_assoc. reflexivity.
Qed.

Lemma skipn_prefix {T : Type} (p l : list T) (n : nat) :
  length p = n -> skipn n (p ++ l) = l.
Proof.
  intros <-. induction p as [| x p IH]; [reflexivity | exact IH].
Qed.

Lemma firstn_prefix {T : Type} (p l : list T) (n : nat) :
  length p = n -> firstn n (p ++ l) = p.
Proof.
  intros <-. induction p as [| x p IH]; [reflexivity |].
  simpl. rewrite IH. reflexivity.
Qed.

(** X22: what the writer writes can be read back: for a buffer of at least
    width * height RGB triples of bytes, the file begins with the PNG
    signature, the header chunk gives back the width and the height, and row
    y of the decompressed data chunk begins with the filter byte 0 and holds
    at column x the three bytes of pixel y * width + x of the buffer; the
    pixels beyond width * height are not read. *)
Theorem png_round_trip (width height : Z) :
  0 <= width < 2 ^ 32 ->
  0 <= height < 2 ^ 32 ->
  width * height <= Z.of_nat (length data) ->
  Z.of_nat (length (zlib_compress
                      (scanlines (Z.to_nat width) (Z.to_nat height) data) 9))
  < 2 ^ 32 ->
  exists bytes,
    _write_png zlib_compress width height data = Ok bytes
    /\ firstn 8 bytes = PNG_SIGNATURE
    /\ png_width bytes = width
    /\ png_height bytes = height
    /\ forall x y, 0 <= x < width -> 0 <= y < height ->
         png_filter unzip bytes y = Some 0
         /\ png_pixel unzip bytes x y
            = nth_error data (Z.to_nat (y * width + x)).
Proof.
  intros Hw Hh Hlen Hz.
  exists (png_layout zlib_compress width height data).
  split; [apply write_png_layout; assumption |].
  destruct (png_layout_parts width height) as (crc1 & rest & Eparts).
  set (z := zlib_compress _ 9) in *.
  set (bytes := png_layout zlib_compress width height data) in *.
  assert (S16 : skipn 16 bytes
                = be32 width ++ be32 height ++ ([8; 2; 0; 0; 0] ++ be32 crc1)
                    ++ (be32 (Z.of_nat (length z)) ++ bytes_of_string "IDAT")
                    ++ z ++ rest).
  { rewrite Eparts. apply skipn_prefix. reflexivity. }
  assert (S20 : skipn 20 bytes
                = be32 height ++ ([8; 2; 0; 0; 0] ++ be32 crc1)
                    ++ (be32 (Z.of_nat (length z)) ++ bytes_of_string "IDAT")
                    ++ z ++ rest).
  { change 20%nat with (4 + 16)%nat. rewrite <- skipn_skipn, S16.
    apply skipn_prefix. reflexivity. }
  assert (S33 : skipn 33 bytes
                = (be32 (Z.of_nat (length z)) ++ bytes_of_string "IDAT")
                    ++ z ++ rest).
  { change 33%nat with (13 + 20)%nat. rewrite <- skipn_skipn, S20.
    rewrite app_assoc. apply skipn_prefix. reflexivity. }
  assert (S41 : skipn 41 bytes = z ++ rest).
  { change 41%nat with (8 + 33)%nat. rewrite <- skipn_skipn, S33.
    apply skipn_prefix. reflexivity. }
  assert (Ewidth : png_width bytes = width).
  { unfold png_width. rewrite S16, firstn_prefix by reflexivity.
    apply be32_value_be32. exact Hw. }
  assert (Eidat : png_idat bytes = z).
  { unfold png_idat. rewrite S33, S41, <- app_assoc.
    rewrite (firstn_prefix (be32 _)) by reflexivity.
    rewrite be32_value_be32 by lia. rewrite Nat2Z.id.
    apply firstn_prefix. reflexivity. }
  split; [rewrite Eparts, <- app_assoc; reflexivity |].
  split; [exact Ewidth |].
  split.
  { unfold png_height. rewrite S20, firstn_prefix by reflexivity.
    apply be32_value_be32. exact Hh. }
  intros x y Hx Hy.
  unfold png_filter, png_pixel. rewrite Eidat, Ewidth. unfold z.
  rewrite unzip_compress.
  destruct (nth_error data (Z.to_nat (y * width + x))) as [[[r g] b] |] eqn:Ep.
  2: { apply nth_error_None in Ep. nia. }
  destruct (scanlines_nth (Z.to_nat width) (Z.to_nat height) data
              (Z.to_nat y) (Z.to_nat x) r g b) as (H0 & H1 & H2 & H3).
  - lia.
  - lia.
  - refine (eq_trans _ Ep). f_equal. nia.
  - replace (Z.to_nat (y * (3 * width + 1)))
      with (Z.to_nat y * (3 * Z.to_nat width + 1))%nat by nia.
    replace (Z.to_nat (y * (3 * width + 1) + 1 + 3 * x))
      with (Z.to_nat y * (3 * Z.to_nat width + 1) + 1 + 3 * Z.to_nat x)%nat
      by nia.
    rewrite H0, H1, H2, H3. split; reflexivity.
Qed.
End PngRoundTrip.

(** Without columns the loops read no pixel. *)
Lemma scanline_loop_no_columns (data : list pixel) (width : Z) (ys : list Z)
    (raw : list Z) :
  width <= 0 ->
  scanline_loop data width ys raw = Ok (raw ++ repeat 0 (length ys)).
Proof.
  intros Hw. revert raw. induction ys as [| y ys IH]; intros raw.
  - simpl. rewrite app_nil_r. reflexivity.
  - cbn [scanline_loop]. rewrite bytearray_append_ok by reflexivity.
    cbn [bind]. rewrite (py_range_nonpositive width Hw). cbn [row_loop bind].
    rewrite IH, <- app_assoc. reflexivity.
Qed.

Lemma pack_I_negative (n : Z) : n < 0 -> pack_I n = Raise StructError.
Proof.
  intros Hn. unfold pack_I.
  assert (E : (0 <=? n) = false) by (apply Z.leb_gt; exact Hn).
  rewrite E. reflexivity.
Qed.

Lemma pack_I_cases (n : Z) :
  pack_I n = Raise StructError \/ exists bs, pack_I n = Ok bs.
Proof.
  unfold pack_I. destruct ((0 <=? n) && (n <? 4294967296)); eauto.
Qed.

(** X23: a negative width or height makes the writer raise struct.error,
    whatever the buffer; a width or a height of zero is not refused: the
    writer reads no pixel of the buffer and writes a file whose data chunk
    holds the compression of one filter byte per row and nothing else. *)
Theorem write_png_without_pixels (zlib_compress : list Z -> Z -> list Z)
    (width height : Z) (data : list pixel) :
  (width < 0 \/ height < 0 ->
   _write_png zlib_compress width height data = Raise StructError)
  /\ (width = 0 \/ height = 0 ->
      0 <= width < 2 ^ 32 -> 0 <= height < 2 ^ 32 ->
      Z.of_nat (length (zlib_compress (repeat 0 (Z.to_nat height)) 9))
      < 2 ^ 32 ->
      _write_png zlib_compress width height data
      = Ok (PNG_SIGNATURE
              ++ framed "IHDR" (be32 width ++ be32 height ++ [8; 2; 0; 0; 0])
              ++ framed "IDAT" (zlib_compress (repeat 0 (Z.to_nat height)) 9)
              ++ framed "IEND" [])).
Proof.
  assert (Hloop : width <= 0 \/ height <= 0 ->
            scanline_loop data width (py_range height) []
            = Ok (if 0 <? width then [] else repeat 0 (Z.to_nat height))).
  { intros H. destruct (Z.ltb_spec 0 width) as [Hpos | Hneg].
    - rewrite py_range_nonpositive by lia. reflexivity.
    - rewrite scanline_loop_no_columns by lia.
      rewrite py_range_length. reflexivity. }
  split.
  - intros Hneg. unfold _write_png. rewrite Hloop by lia. cbn [bind].
    unfold pack_header.
    destruct (Z.ltb_spec width 0) as [Hw | Hw].
    + rewrite (pack_I_negative width Hw). reflexivity.
    + destruct (pack_I_cases width) as [-> | (bs & ->)]; [reflexivity |].
      cbn [bind]. rewrite (pack_I_negative height) by lia. reflexivity.
  - intros Hzero Hw Hh Hz. unfold _write_png. rewrite Hloop by lia.
    cbn [bind].
    assert (Eraw : (if 0 <? width then [] else repeat 0 (Z.to_nat height))
                   = repeat 0 (Z.to_nat height)).
    { destruct (Z.ltb_spec 0 width); [| reflexivity].
      replace height with 0 by lia. reflexivity. }
    rewrite Eraw. unfold pack_header.
    rewrite !pack_I_be32 by lia. cbn [bind].
    change (pack_B 8) with (@Ok (list Z) [8]).
    change (pack_B 2) with (@Ok (list Z) [2]).
    change (pack_B 0) with (@Ok (list Z) [0]). cbn [bind].
    rewrite (chunk_framed "IHDR") by (simpl; lia). cbn [bind].
    rewrite (chunk_framed "IDAT") by exact Hz. cbn [bind].
    rewrite (chunk_framed "IEND") by (simpl; lia). cbn [bind].
    reflexivity.
Qed.


Lemma write_png_needs_all_pixels_witness :
  _write_png stored 2 1 [(1, 2, 3)] = Raise IndexError.
Proof.
  apply (write_png_needs_all_pixels stored [(1, 2, 3)] 2 1).
  - repeat constructor.
  - simpl. lia.
  - lia.
Defined.

Lemma write_png_refuses_bad_channels_witness :
  _write_png stored 2 1 [(1, 2, 3); (4, 256, 6)]
  = Raise (ValueError BYTE_RANGE).
Proof.
  apply (write_png_refuses_bad_channels stored [(1, 2, 3); (4, 256, 6)]
           2 1 1 (4, 256, 6)).
  - simpl. lia.
  - lia.
  - lia.
  - reflexivity.
  - intros (_ & H & _). discriminate.
Defined.

Lemma png_round_trip_witness :
  exists bytes,
    _write_png stored 2 1 [(1, 2, 3); (4, 5, 6)] = Ok bytes
    /\ firstn 8 bytes = PNG_SIGNATURE
    /\ png_width bytes = 2
    /\ png_height bytes = 1
    /\ forall x y, 0 <= x < 2 -> 0 <= y < 1 ->
         png_filter (fun z => z) bytes y = Some 0
         /\ png_pixel (fun z => z) bytes x y
            = nth_error [(1, 2, 3); (4, 5, 6)] (Z.to_nat (y * 2 + x)).
Proof.
  apply (png_round_trip stored (fun z => z) (fun raw => eq_refl)
           [(1, 2, 3); (4, 5, 6)]).
  - repeat constructor.
  - lia.
  - lia.
  - simpl. lia.
  - vm_compute. reflexivity.
Defined.

(** ** The pipeline *)

(** X24: in the pipeline with the built-in writer, in double precision, once
    the extractor, the strip builder and the packer have returned, with a
    width and a height below 2^32 (and a compressed payload shorter than
    2^32 bytes), the writer returns too: the buffer handed over has exactly
    width * height RGB triples of bytes, so that no index is out of range and
    no channel is refused, and the file is the PNG layout of that buffer. *)
Theorem pipeline_writer_accepts_the_canvas
    (conv : Z -> Z -> Z -> result (@num binary64))
    (zlib : list Z -> Z -> list Z) (fs : string -> option MidiFile)
    (path : string) (pps : Z) (w w2 : world)
    (all_spans : list (NoteSpan (@num binary64))) (strip : list pixel)
    (g1 : rng) (p : Packed) :
  parse_midi_to_spans conv fs path = Ok all_spans ->
  spans_to_color_strip all_spans pps None (gen w) = (Ok strip, g1) ->
  color_strip_to_rect_image (A := binary64) false (length (heap w)) (4, 3) true
    {| heap := heap w ++ [strip]; gen := g1 |} = (Ok p, w2) ->
  let width := fst (packed_dims p) in
  let height := snd (packed_dims p) in
  let data := packed_data (heap w2) p in
  width < 2 ^ 32 -> height < 2 ^ 32 ->
  Z.of_nat (length (zlib (scanlines (Z.to_nat width) (Z.to_nat height) data) 9))
  < 2 ^ 32 ->
  midi_to_image conv zlib false fs path pps w
  = (Ok (SavedPng (png_layout zlib width height data)), w2)
  /\ Z.of_nat (length data) = width * height
  /\ Forall pixel_ok data.
Proof.
  intros Hparse Hstrip Hpack width height data Hw Hh Hz.
  assert (Hsok : Forall pixel_ok strip).
  { apply (b64_strip_ok all_spans pps None (gen w) g1 strip);
      [intros bg E; discriminate | exact Hstrip]. }
  assert (Hget : heap_get (heap w ++ [strip]) (length (heap w)) = strip)
    by (unfold heap_get; apply nth_middle).
  destruct (packer_data_ok (A := binary64) false true (length (heap w)) (4, 3)
              {| heap := heap w ++ [strip]; gen := g1 |} w2 p)
    as [Hdata _]; [cbn [heap]; rewrite Hget; exact Hsok | exact Hpack |].
  destruct (b64_canvas false true (length (heap w)) (4, 3)
              {| heap := heap w ++ [strip]; gen := g1 |} w2 p Hpack)
    as (Hw0 & Hh0 & Hlen).
  fold width in Hw0, Hlen. fold height in Hh0, Hlen. fold data in Hdata, Hlen.
  split; [| split; [exact Hlen | exact Hdata]].
  assert (Hraw : exists l, p = RawImage width height l).
  { destruct (packer_returns _ _ _ _ _ _ _ _ Hpack)
      as (Hne & Hrw & Hrh & wd & ht & Hdims).
    destruct (packer_effect (A := binary64) false true (length (heap w)) 4 3
                {| heap := heap w ++ [strip]; gen := g1 |} wd ht
                Hne Hrw Hrh Hdims)
      as (p1 & w1 & padding & H1 & _ & _ & _ & _ & _ & H7 & _).
    rewrite Hpack in H1. inversion H1; subst p1 w1.
    destruct (H7 eq_refl) as [Hp _]. unfold width, height. rewrite Hp.
    eexists. reflexivity. }
  destruct Hraw as (l & Hp).
  unfold midi_to_image. rewrite Hparse, Hstrip. unfold heap_alloc.
  rewrite Hpack, Hp.
  assert (Edata : heap_get (heap w2) l = data)
    by (unfold data; rewrite Hp; reflexivity).
  rewrite Edata.
  rewrite (write_png_layout zlib data Hdata width height)
    by (try lia; exact Hz).
  reflexivity.
Qed.

Lemma pipeline_writer_accepts_the_canvas_witness :
  midi_to_image (A := binary64) tick2second stored false one_note_fs
    "one.mid" 50 {| heap := []; gen := gen_one |}
  = (Ok (SavedPng
           (png_layout stored 7 5
              (repeat (222, 186, 8) 25 ++ repeat (1, 1, 1) 10))),
     scenario_A_store).
Proof.
  apply (pipeline_writer_accepts_the_canvas tick2second stored one_note_fs
           "one.mid" 50 {| heap := []; gen := gen_one |} scenario_A_store
           [scenario_A_span] (repeat (222, 186, 8) 25) gen_one
           (RawImage 7 5 1%nat)).
  - vm_compute. reflexivity.
  - vm_compute. reflexivity.
  - vm_compute. reflexivity.
  - vm_compute. reflexivity.
  - vm_compute. reflexivity.
  - vm_compute. reflexivity.
Defined.
